(** * Namma Metro route finder: the graph-construction-and-search engine

    A shallow embedding of [metro.c]: name normalisation, the station
    registry, the adjacency matrix, breadth-first search with blocked
    edges, the alternate-route loop and the per-edge line labels; and of
    the reports: the lookup of the ends of a journey, the suggestions, the
    segment table, the estimates of time and fare, the answer of
    [get_route] and the route finder of [main].

    Conventions of the embedding.
    - A C [int] is a [Z]; every value met here is far from the 32-bit range.
      An index into the live part of an array kept as a list ([front], the
      index of the swap loop) is a [nat].
    - A C string is the [string] of its characters before the terminating
      NUL; no modelled string contains the NUL character.
    - An [int] array read and written at station ids ([adj], [visited],
      [parent], the station table) is the map from index to element,
      [Z -> _], updated by [upd]. The properties are about ids inside the
      arrays.
    - An array filled from the front with its own counter ([q] with [rear],
      [path] with [len], [ids], a station's [lines] with [line_count]) is the
      list of its live elements; storing at the counter appends, and the
      store is checked against the declared capacity. The station table
      is a map with the counter [stationCount], checked in the same way.
    - A run that would leave an array's bounds has no defined result in C;
      the model returns [None] there, and [Some _] for a run that stays
      inside its arrays. The source has no statement that stops the
      program, so the model has no third outcome.
    - [normalize_inplace] works in three buffers of 80 bytes; every caller
      passes it a copy of at most 79 characters, and the model is the
      function on such strings.
    - A [double] is a binary64 number of IEEE 754 whose operations round
      to nearest: the kernel's [float].
    - Of a report the model keeps the names and figures it prints, in the
      order printed, not the characters of the text; files, the clock and
      the terminal are outside the model. *)

From Stdlib Require Import ZArith List String Ascii Bool Lia Sorted.
From Stdlib Require Floats Uint63.
Import ListNotations.
Local Open Scope string_scope.
Local Open Scope list_scope.
Local Open Scope Z_scope.

(** ** Constants *)

Definition MAX : Z := 400.
Definition MAX_ALTERNATES : Z := 3.

(** ** Character classes of <ctype.h> in the "C" locale *)

Definition code (c : ascii) : Z := Z.of_N (N_of_ascii c).

Definition isspace (c : ascii) : bool :=
  ((9 <=? code c) && (code c <=? 13)) || (code c =? 32).

Definition isdigit (c : ascii) : bool := (48 <=? code c) && (code c <=? 57).
Definition isupper (c : ascii) : bool := (65 <=? code c) && (code c <=? 90).
Definition islower (c : ascii) : bool := (97 <=? code c) && (code c <=? 122).
Definition isalpha (c : ascii) : bool := isupper c || islower c.
Definition isalnum (c : ascii) : bool := isalpha c || isdigit c.

Definition tolower (c : ascii) : ascii :=
  if isupper c then ascii_of_N (Z.to_N (code c + 32)) else c.

(** ** String utilities *)

(** [lowercase]: [tolower] on every character. *)
Fixpoint lowercase (s : string) : string :=
  match s with
  | EmptyString => EmptyString
  | String c r => String (tolower c) (lowercase r)
  end.

(** [strncpy (dst, src, n); dst[n] = 0]: the first [n] characters. *)
Fixpoint strncpy (n : nat) (s : string) : string :=
  match n, s with
  | S n', String c r => String c (strncpy n' r)
  | _, _ => EmptyString
  end.

Module Normalize.

(** Step 1 of [normalize_inplace]: keep letters, digits and white space. *)
Fixpoint keep_alnum_space (s : string) : string :=
  match s with
  | EmptyString => EmptyString
  | String c r =>
      if isalnum c || isspace c then String c (keep_alnum_space r)
      else keep_alnum_space r
  end.

(** Step 2, first loop: skip the leading white space. *)
Fixpoint skip_spaces (s : string) : string :=
  match s with
  | EmptyString => EmptyString
  | String c r => if isspace c then skip_spaces r else s
  end.

(** Step 2, second loop: a run of white space becomes one blank;
    [last_space] is the flag of the source. *)
Fixpoint collapse (last_space : bool) (s : string) : string :=
  match s with
  | EmptyString => EmptyString
  | String c r =>
      if isspace c then
        if last_space then collapse true r else String " " (collapse true r)
      else String c (collapse false r)
  end.

(** Step 2, end: [if (k > 0 && tmp2[k - 1] == ' ') k--]. *)
Fixpoint drop_trailing_space (s : string) : string :=
  match s with
  | EmptyString => EmptyString
  | String c EmptyString => if (c =? " ")%char then EmptyString else s
  | String c r => String c (drop_trailing_space r)
  end.

(** Step 3: at a letter followed by a blank and a letter, copy the two
    letters and move three characters on; otherwise copy one character. *)
Fixpoint fuse (s : string) : string :=
  match s with
  | EmptyString => EmptyString
  | String a t =>
      match t with
      | String b (String c r) =>
          if isalpha a && (b =? " ")%char && isalpha c
          then String a (String c (fuse r))
          else String a (fuse t)
      | _ => String a (fuse t)
      end
  end.

End Normalize.

(** [normalize_inplace]: the four steps in the order of the source, then
    the copy back of at most 79 characters. *)
Definition normalize_inplace (s : string) : string :=
  let tmp := Normalize.keep_alnum_space s in
  let tmp2 :=
    Normalize.drop_trailing_space
      (Normalize.collapse false (Normalize.skip_spaces tmp)) in
  let tmp3 := Normalize.fuse tmp2 in
  strncpy 79 (lowercase tmp3).

(** ** Stations and the network state *)

(** [Station]: [lines] holds [lines[0 .. line_count)], so [line_count] is
    its length; the array has room for 6 names of at most 29 characters. *)
Record Station : Type := mkStation {
  display_name : string;
  key_name : string;
  lines : list string;
  planned : Z
}.

Definition line_count (s : Station) : Z := Z.of_nat (List.length (lines s)).

Definition LINES_CAP : Z := 6.

(** The globals [stations], [stationCount] and [adj]. *)
Record Network : Type := mkNetwork {
  stations : Z -> Station;
  stationCount : Z;
  adj : Z -> Z -> Z
}.

(** [a[i] = v] on an array seen as a map. *)
Definition upd {A : Type} (a : Z -> A) (i : Z) (v : A) : Z -> A :=
  fun j => if j =? i then v else a j.

(** [m[i][j] = v] on a matrix. *)
Definition upd2 (m : Z -> Z -> Z) (i j v : Z) : Z -> Z -> Z :=
  fun x y => if (x =? i) && (y =? j) then v else m x y.

(** The globals at program start: static storage is zero-initialised. *)
Definition blank_station : Station := mkStation "" "" [] 0.
Definition initial_network : Network :=
  mkNetwork (fun _ => blank_station) 0 (fun _ _ => 0).

(** ** Station and network building *)

(** The lookup loop of [find_or_add_by_key_with_plan]: [k] iterations
    are left, [i] is the loop index. *)
Fixpoint find_key (tbl : Z -> Station) (key : string) (k : nat) (i : Z)
  : option Z :=
  match k with
  | O => None
  | S k' =>
      if (key_name (tbl i) =? key)%string then Some i
      else find_key tbl key k' (i + 1)
  end.

(** [while (tmp[s] && isspace (tmp[s])) s++], from [s = 0]. *)
Fixpoint leading_spaces (tmp : string) : Z :=
  match tmp with
  | EmptyString => 0
  | String c r => if isspace c then 1 + leading_spaces r else 0
  end.

(** [while (e >= 0 && isspace (tmp[e])) e--]: [k] is [e + 1]. *)
Fixpoint last_nonspace (tmp : string) (k : nat) : Z :=
  match k with
  | O => -1
  | S e =>
      match String.get e tmp with
      | Some c => if isspace c then last_nonspace tmp e else Z.of_nat e
      | None => Z.of_nat e
      end
  end.

(** The display name stored for a new station: the first 79 characters
    of the raw name without the white space at either end. *)
Definition trim_display (display : string) : string :=
  let tmp := strncpy 79 display in
  let s := leading_spaces tmp in
  let e := last_nonspace tmp (String.length tmp) in
  if s <=? e then
    let len := Z.min (e - s + 1) 79 in
    String.substring (Z.to_nat s) (Z.to_nat len) tmp
  else EmptyString.

Definition find_or_add_by_key_with_plan
  (g : Network) (key display : string) (planned : Z) : option (Network * Z) :=
  match find_key (stations g) key (Z.to_nat (stationCount g)) 0 with
  | Some i => Some (g, i)
  | None =>
      if stationCount g <? MAX then
        let fresh := mkStation (trim_display display) (strncpy 79 key) [] planned in
        Some (mkNetwork (upd (stations g) (stationCount g) fresh)
                        (stationCount g + 1) (adj g),
              stationCount g)
      else None
  end.

(** The membership loop of [add_line_tag]. *)
Fixpoint has_line (ls : list string) (line : string) : bool :=
  match ls with
  | [] => false
  | l :: r => if (l =? line)%string then true else has_line r line
  end.

Definition add_line_tag (g : Network) (id : Z) (line : string) : option Network :=
  let s := stations g id in
  if has_line (lines s) line then Some g
  else if line_count s <? LINES_CAP then
    let s' := mkStation (display_name s) (key_name s)
                        (lines s ++ [strncpy 29 line]) (planned s) in
    Some (mkNetwork (upd (stations g) id s') (stationCount g) (adj g))
  else None.

Definition connect_ids (m : Z -> Z -> Z) (a b : Z) : Z -> Z -> Z :=
  if (a <? 0) || (b <? 0) || (a =? b) then m
  else upd2 (upd2 m a b 1) b a 1.

(** One station reference of a line: the body of the first loop of
    [add_line_with_plan] up to the call that registers the station. *)
Definition register (g : Network) (raw : string) (planned : Z)
  : option (Network * Z) :=
  let display := strncpy 79 raw in
  let key := normalize_inplace (strncpy 79 raw) in
  find_or_add_by_key_with_plan g key display planned.

(** First loop of [add_line_with_plan] over the station names [names]
    (the array [list] of the source with its length [n]): [i] is the loop
    index, [ids] the filled part of the local array [ids[MAX]]; a null
    [planned_flags] is [None]. *)
Fixpoint register_line (g : Network) (lineName : string) (names : list string)
  (planned_flags : option (Z -> Z)) (i : Z) (ids : list Z)
  : option (Network * list Z) :=
  match names with
  | [] => Some (g, ids)
  | raw :: rest =>
      let flag := match planned_flags with Some f => f i | None => 0 end in
      match register g raw flag with
      | None => None
      | Some (g1, id) =>
          if i <? MAX then
            match add_line_tag g1 id lineName with
            | None => None
            | Some g2 => register_line g2 lineName rest planned_flags (i + 1) (ids ++ [id])
            end
          else None
      end
  end.

(** Second loop of [add_line_with_plan]: consecutive ids are connected. *)
Fixpoint connect_chain (m : Z -> Z -> Z) (ids : list Z) : Z -> Z -> Z :=
  match ids with
  | a :: t =>
      match t with
      | b :: _ => connect_chain (connect_ids m a b) t
      | [] => m
      end
  | [] => m
  end.

Definition add_line_with_plan (g : Network) (lineName : string)
  (names : list string) (planned_flags : option (Z -> Z)) : option Network :=
  match register_line g lineName names planned_flags 0 [] with
  | None => None
  | Some (g1, ids) =>
      Some (mkNetwork (stations g1) (stationCount g1) (connect_chain (adj g1) ids))
  end.

Definition purple : list string :=
  [ "challaghatta"; "kengeri"; "Kengeri Bus Terminal"; "Pattanagere"; "Jnanbharati"; "Rajarajeshwari Nagar";
    "Nayandahalli"; "mysore road"; "deepanjali nagar"; "attiguppe";
    "vijayanagar"; "Hosahalli"; "magadi road"; "majestic"; "Central Road"; "Vidhana Soudha";
    "Cubbon Park"; "m.g. road"; "trinity"; "halasuru"; "indiranagar";
    "swami vivekananda road"; "baiyappanahalli"; "Benniganahalli"; "kr puram"; "Singayyanapalya"; "Garudacharpalaya";
    "hoodi"; "Seetharampalya"; "Kundalahalli"; "Nallurhalli"; "Sri Satya Sai Hospital"; "Pattandur Agrahara"; "Kadugodi Tree Park";
    "Channasandra(HopeFarm)"; "whitefield(Kadugodi)" ]%string.

Definition green : list string :=
  [ "Madavara"; "Chikkabidarakallu"; "Manjunathanagar"; "nagasandra"; "Dasarhalli"; "Jalahalli";
    "Peenya Industry"; "Peenya"; "Gorguntepalya"; "Yeswantpur"; "Sandal Soap Factory"; "Mahalakshmi";
    "Rajijnagar"; "Kuvempu road"; "Srirampura"; "Sampige Road"; "majestic";
    "Chickpete"; "Krishna Rajendra Market"; "National College"; "Lalbagh"; "South End Circle";
    "Jayanagar"; "Rashtreeya Vidyalaya Road"; "Banashankari"; "jayadeva hospital"; "Yelachenahalli"; "Konanakunte Cross";
    "Vajarahalli"; "Thalaghattapura"; "Silk Institute" ]%string.

Definition pink : list string :=
  [ "kalena agrahara"; "hulimavu"; "iim bangalore"; "jp nagar 4th phase";
    "jayadeva hospital"; "Tavarekere"; "dairy circle"; "lakkasandra"; "langford town";
    "rashtriya military school"; "mg road"; "shivajinagar"; "Cantonment"; "Pottery Town";
    "tannery road"; "Venkateshpura"; "kadugundanahalli"; "nagawara" ]%string.

(** [build_network]: the counter and the matrix are reset, the station
    records of an earlier build stay in the table until they are
    overwritten; every planned flag is 0 and [include_planned] is unused. *)
Definition build_network (g : Network) (include_planned : Z) : option Network :=
  let g0 := mkNetwork (stations g) 0 (fun _ _ => 0) in
  let no_plan : option (Z -> Z) := Some (fun _ => 0) in
  match add_line_with_plan g0 "purple" purple no_plan with
  | None => None
  | Some g1 =>
      match add_line_with_plan g1 "green" green no_plan with
      | None => None
      | Some g2 => add_line_with_plan g2 "pink" pink no_plan
      end
  end.

(** ** Breadth-first search with blocked edges *)

(** The locals [visited] and [q] (with [rear] its length) and the
    caller's array [parent]. *)
Record Search : Type := mkSearch {
  visited : Z -> Z;
  q : list Z;
  parent : Z -> Z
}.

(** The loop over the blocked pairs: the value of [blocked] after it.
    [k] iterations are left, [b] is the loop index; a null array is [None]. *)
Fixpoint blocked_scan (blocked_a blocked_b : option (Z -> Z)) (u v : Z)
  (k : nat) (b : Z) : Z :=
  match k with
  | O => 0
  | S k' =>
      let hit :=
        match blocked_a, blocked_b with
        | Some ba, Some bb =>
            ((u =? ba b) && (v =? bb b)) || ((u =? bb b) && (v =? ba b))
        | _, _ => false
        end in
      if hit then 1 else blocked_scan blocked_a blocked_b u v k' (b + 1)
  end.

Section Bfs.

Variable g : Network.
Variables blocked_a blocked_b : option (Z -> Z).
Variable blocked_count : Z.

Definition edge_blocked (u v : Z) : Z :=
  blocked_scan blocked_a blocked_b u v (Z.to_nat blocked_count) 0.

(** The body of the loop over [v]. *)
Definition visit (u v : Z) (s : Search) : option Search :=
  if adj g u v =? 0 then Some s
  else if negb (visited s v =? 0) then Some s
  else if negb (edge_blocked u v =? 0) then Some s
  else if Z.of_nat (List.length (q s)) <? MAX then
    Some (mkSearch (upd (visited s) v 1) (q s ++ [v]) (upd (parent s) v u))
  else None.

(** [for (v = ...; v < stationCount; v++)] with [k] iterations left. *)
Fixpoint expand (k : nat) (u v : Z) (s : Search) : option Search :=
  match k with
  | O => Some s
  | S k' =>
      match visit u v s with
      | None => None
      | Some s' => expand k' u (v + 1) s'
      end
  end.

(** [while (front < rear)]: every round takes one slot of [q], so a run
    inside the array takes at most [MAX] rounds; [fuel] counts them. The
    result is the returned flag with the final [parent]. *)
Fixpoint bfs_loop (fuel : nat) (dest : Z) (front : nat) (s : Search)
  : option (Z * (Z -> Z)) :=
  match fuel with
  | O => None
  | S fuel' =>
      if (front <? List.length (q s))%nat then
        let u := nth front (q s) 0 in
        if u =? dest then Some (1, parent s)
        else
          match expand (Z.to_nat (stationCount g)) u 0 s with
          | None => None
          | Some s' => bfs_loop fuel' dest (S front) s'
          end
      else Some (0, parent s)
  end.

Definition bfs_with_blocked_edges (src dest : Z) (parent0 : Z -> Z)
  : option (Z * (Z -> Z)) :=
  let s0 := mkSearch (upd (fun _ => 0) src 1) [src] (upd parent0 src (-1)) in
  bfs_loop (S (Z.to_nat MAX)) dest 0 s0.

End Bfs.

Definition bfs_simple (g : Network) (src dest : Z) (parent0 : Z -> Z)
  : option (Z * (Z -> Z)) :=
  bfs_with_blocked_edges g None None 0 src dest parent0.

(** ** Route helpers *)

(** [while (cur != -1) { path[len++] = cur; cur = parent[cur]; }]:
    [room] is what is left of [path[MAX]]. *)
Fixpoint walk_back (room : nat) (par : Z -> Z) (cur : Z) (path : list Z)
  : option (list Z) :=
  if cur =? -1 then Some path
  else
    match room with
    | O => None
    | S room' => walk_back room' par (par cur) (path ++ [cur])
    end.

(** [path[i] = v] inside the live part of [path]. *)
Fixpoint store (i : nat) (v : Z) (path : list Z) : list Z :=
  match path with
  | [] => []
  | x :: t =>
      match i with
      | O => v :: t
      | S i' => x :: store i' v t
      end
  end.

(** The swap loop that reverses [path[0 .. len)]: [k] rounds are left,
    [i] is the loop index, [t] the temporary of the source. *)
Fixpoint swap_ends (k i : nat) (path : list Z) : list Z :=
  match k with
  | O => path
  | S k' =>
      let len := List.length path in
      let t := nth i path 0 in
      let path1 := store i (nth (len - 1 - i) path 0) path in
      let path2 := store (len - 1 - i) t path1 in
      swap_ends k' (S i) path2
  end.

(** [for (i = 0; i < len / 2; i++)]: swap [path[i]] and
    [path[len - 1 - i]]. *)
Definition reverse_in_place (path : list Z) : list Z :=
  swap_ends (Nat.div2 (List.length path)) 0 path.

(** The path read off [parent] from [dest], then reversed in place. *)
Definition reconstruct (par : Z -> Z) (dest : Z) : option (list Z) :=
  option_map reverse_in_place (walk_back (Z.to_nat MAX) par dest []).

Inductive RouteResult : Type :=
| Found (path : list Z)
| NoRoute.

(** The search as every caller runs it ([find_alternates], [get_route],
    [main]): [parent] filled with -1, the search, the path read back. *)
Definition shortest_path (g : Network) (src dest : Z)
  (blocked_a blocked_b : option (Z -> Z)) (blocked_count : Z)
  : option RouteResult :=
  match bfs_with_blocked_edges g blocked_a blocked_b blocked_count
          src dest (fun _ => -1) with
  | None => None
  | Some (found, par) =>
      if found =? 0 then Some NoRoute
      else option_map Found (reconstruct par dest)
  end.

(** The loop of [route_equals] on two arrays of one length. *)
Fixpoint same_stations (a b : list Z) : Z :=
  match a, b with
  | x :: a', y :: b' => if negb (x =? y) then 0 else same_stations a' b'
  | _, _ => 1
  end.

Definition route_equals (a b : list Z) : Z :=
  if negb (Z.of_nat (List.length a) =? Z.of_nat (List.length b)) then 0
  else same_stations a b.

(** [for (a = 0; a < altcount && !dup; a++)]: the final [dup]. *)
Fixpoint seen_before (path : list Z) (alternates : list (list Z)) : Z :=
  match alternates with
  | [] => 0
  | alt :: rest =>
      if negb (route_equals path alt =? 0) then 1 else seen_before path rest
  end.

Section Alternates.

Variable g : Network.
Variable primary : list Z.

Definition plen : Z := Z.of_nat (List.length primary).
Definition at_index (i : Z) : Z := nth (Z.to_nat i) primary 0.

(** The loop of [find_alternates]: [k] edges of the primary path are
    left, [e] is the loop index, [alternates] the routes accepted so far
    ([altcount] is their number). *)
Fixpoint alternates_loop (k : nat) (e : Z) (alternates : list (list Z))
  : option (list (list Z)) :=
  match k with
  | O => Some alternates
  | S k' =>
      if Z.of_nat (List.length alternates) <? MAX_ALTERNATES then
        let blocked_a := fun _ : Z => at_index e in
        let blocked_b := fun _ : Z => at_index (e + 1) in
        match shortest_path g (at_index 0) (at_index (plen - 1))
                (Some blocked_a) (Some blocked_b) 1 with
        | None => None
        | Some NoRoute => alternates_loop k' (e + 1) alternates
        | Some (Found path) =>
            let dup :=
              if negb (route_equals path primary =? 0) then 1
              else seen_before path alternates in
            if dup =? 0 then alternates_loop k' (e + 1) (alternates ++ [path])
            else alternates_loop k' (e + 1) alternates
        end
      else Some alternates
  end.

Definition find_alternates : option (list (list Z)) :=
  alternates_loop (Z.to_nat (plen - 1)) 0 [].

End Alternates.

(** ** Line labels of a path *)

(** Inner loop of [build_edge_lines] over the lines of [b]: the label
    copied when [la] is met. *)
Fixpoint match_line (la : string) (lbs : list string) : option string :=
  match lbs with
  | [] => None
  | lb :: rest =>
      if (la =? lb)%string then Some (strncpy 29 la) else match_line la rest
  end.

(** Outer loop over the lines of [a]; leaving both loops on [found] is
    the first [Some]. *)
Fixpoint shared_line (las lbs : list string) : option string :=
  match las with
  | [] => None
  | la :: rest =>
      match match_line la lbs with
      | Some l => Some l
      | None => shared_line rest lbs
      end
  end.

Definition edge_line (g : Network) (a b : Z) : string :=
  match shared_line (lines (stations g a)) (lines (stations g b)) with
  | Some l => l
  | None => "unknown"
  end.

Fixpoint build_edge_lines (g : Network) (path : list Z) : list string :=
  match path with
  | a :: t =>
      match t with
      | b :: _ => edge_line g a b :: build_edge_lines g t
      | [] => []
      end
  | [] => []
  end.

(** ** Reports: shown names, suggestions, lookups, segments *)

Definition TIME_PER_EDGE_MIN : Z := 2.
Definition INTERCHANGE_TIME_MIN : Z := 3.

(** [display_name[0] ? display_name : key_name]: the name every report
    prints for a station. *)
Definition shown_name (s : Station) : string :=
  match display_name s with
  | EmptyString => key_name s
  | String _ _ => display_name s
  end.

(** [strncmp (a, b, n) == 0]. *)
Fixpoint strncmp_zero (n : nat) (a b : string) : bool :=
  match n with
  | O => true
  | S n' =>
      match a, b with
      | EmptyString, EmptyString => true
      | String c a', String d b' =>
          if (c =? d)%char then strncmp_zero n' a' b' else false
      | _, _ => false
      end
  end.

(** The loop of [autocomplete_print]: [k] stations are left, [i] is the
    loop index, [printed] the counter of the source, [out] the names
    printed so far. *)
Fixpoint autocomplete_loop (tbl : Z -> Station) (prefix : string) (k : nat)
  (i printed : Z) (out : list string) : list string :=
  match k with
  | O => out
  | S k' =>
      if printed <? 20 then
        if strncmp_zero (String.length prefix) (key_name (tbl i)) prefix
        then autocomplete_loop tbl prefix k' (i + 1) (printed + 1)
                               (out ++ [shown_name (tbl i)])
        else autocomplete_loop tbl prefix k' (i + 1) printed out
      else out
  end.

(** [autocomplete_print]: the names it prints, one per line, in the order
    printed; for the empty list it prints "(no prefix matches)". *)
Definition autocomplete_print (g : Network) (prefix : string) : list string :=
  autocomplete_loop (stations g) prefix (Z.to_nat (stationCount g)) 0 0 [].

(** The loop of [get_route] and of [main] that looks the two keys up:
    [k] stations are left, [i] is the loop index; no [break], so the last
    station with the key is kept. *)
Fixpoint lookup_keys (tbl : Z -> Station) (include_planned : Z)
  (srckey dstkey : string) (k : nat) (i src dest : Z) : Z * Z :=
  match k with
  | O => (src, dest)
  | S k' =>
      if (include_planned =? 0) && negb (planned (tbl i) =? 0)
      then lookup_keys tbl include_planned srckey dstkey k' (i + 1) src dest
      else
        let src' := if (srckey =? key_name (tbl i))%string then i else src in
        let dest' := if (dstkey =? key_name (tbl i))%string then i else dest in
        lookup_keys tbl include_planned srckey dstkey k' (i + 1) src' dest'
  end.

Definition find_stations (g : Network) (include_planned : Z)
  (srckey dstkey : string) : Z * Z :=
  lookup_keys (stations g) include_planned srckey dstkey
              (Z.to_nat (stationCount g)) 0 (-1) (-1).

(** One row of the segment table: the line, and the indices [s] and [e]
    of its first and last edge; it runs from station [path[s]] to station
    [path[e + 1]] over [e - s + 1] stops. *)
Record Segment : Type := mkSegment {
  seg_line : string;
  seg_s : Z;
  seg_e : Z
}.

Definition seg_stops (sg : Segment) : Z := seg_e sg - seg_s sg + 1.

(** [while (e + 1 < len - 1 && strcmp (edgeLines[e + 1], curr) == 0) e++]:
    [rest] is [edgeLines] from index [e + 1] on; the result is the number
    of steps of [e]. *)
Fixpoint same_line_run (curr : string) (rest : list string) : nat :=
  match rest with
  | [] => O
  | l :: rest' =>
      if (l =? curr)%string then S (same_line_run curr rest') else O
  end.

(** The segment loop of the reports ([while (i < len - 1)]): [labels] is
    [edgeLines] from index [i] on; every round takes at least one label,
    [fuel] counts the rounds. *)
Fixpoint segments_from (fuel : nat) (i : Z) (labels : list string)
  : list Segment :=
  match fuel with
  | O => []
  | S fuel' =>
      match labels with
      | [] => []
      | l :: rest =>
          let curr := strncpy 29 l in
          let s := i in
          let e := i + Z.of_nat (same_line_run curr rest) in
          mkSegment curr s e
          :: segments_from fuel' (e + 1) (skipn (same_line_run curr rest) rest)
      end
  end.

Definition segments (edgeLines : list string) : list Segment :=
  segments_from (List.length edgeLines) 0 edgeLines.

(** [if (stations[path[ii]].line_count > 1) interchanges++] over the
    path. *)
Fixpoint count_interchanges (g : Network) (path : list Z) : Z :=
  match path with
  | [] => 0
  | a :: rest =>
      (if 1 <? line_count (stations g a) then 1 else 0)
      + count_interchanges g rest
  end.

(** ** Distance, fare and time

    A [double] is a binary64 number of IEEE 754 and its operations round
    to nearest, as the kernel's [float] does. *)

Section Doubles.

Import PrimFloat.

#[warnings="-inexact-float"] Definition AVG_KM_PER_EDGE : float := 1.1%float.

(** The conversion of an [int] operand to [double]. *)
Definition int_to_double (n : Z) : float :=
  if n <? 0 then opp (of_uint63 (Uint63.of_Z (- n)))
  else of_uint63 (Uint63.of_Z n).

Definition fare_from_distance (km : float) : Z :=
  if (km <=? int_to_double 2)%float then 10
  else if (km <=? int_to_double 4)%float then 20
  else if (km <=? int_to_double 6)%float then 30
  else if (km <=? int_to_double 8)%float then 40
  else if (km <=? int_to_double 10)%float then 50
  else if (km <=? int_to_double 15)%float then 60
  else if (km <=? int_to_double 20)%float then 70
  else if (km <=? int_to_double 25)%float then 80
  else 90.

(** [edges * AVG_KM_PER_EDGE]: the distance in [get_route] and
    [export_route_to_txt]. *)
Definition distance_of_edges (edges : Z) : float :=
  (int_to_double edges * AVG_KM_PER_EDGE)%float.

(** [for (k = 0; k < edges; k++) total_dist += dist], with [k] rounds
    left. *)
Fixpoint distance_summed (k : nat) (total_dist : float) : float :=
  match k with
  | O => total_dist
  | S k' => distance_summed k' (total_dist + AVG_KM_PER_EDGE)%float
  end.

(** The distance in [print_final_output_professional] and
    [export_route_to_html]: [total_dist] starts at 0.0 and takes the
    length of every edge in turn. *)
Definition distance_by_sum (edges : Z) : float :=
  distance_summed (Z.to_nat edges) 0%float.

End Doubles.

(** [edges * TIME_PER_EDGE_MIN + interchanges * INTERCHANGE_TIME_MIN]. *)
Definition estimated_time (g : Network) (path : list Z) : Z :=
  (Z.of_nat (List.length path) - 1) * TIME_PER_EDGE_MIN
  + count_interchanges g path * INTERCHANGE_TIME_MIN.

(** ** The answer of [get_route] *)

(** What [get_route] answers: one of its messages, or the figures its
    summary is printed from; the characters of the text are not
    modelled. *)
Inductive Reply : Type :=
| NotLoaded
| MissingInput
| BothNotFound
| StartNotFound
| DestNotFound
| NoRouteFound
| Summary (path : list Z) (edgeLines : list string) (segs : list Segment)
          (edges interchanges est_time est_fare : Z).

(** [get_route (from, to)]: a null pointer is [None]; the network is
    rebuilt first, so the globals change too. *)
Definition get_route (g : Network) (from to : option string)
  : option (Network * Reply) :=
  match build_network g 1 with
  | None => None
  | Some g1 =>
      if stationCount g1 =? 0 then Some (g1, NotLoaded)
      else
        match from, to with
        | Some (String f0 fr), Some (String t0 tr) =>
            let srckey := normalize_inplace (strncpy 79 (String f0 fr)) in
            let dstkey := normalize_inplace (strncpy 79 (String t0 tr)) in
            let '(src, dest) := find_stations g1 1 srckey dstkey in
            if (src =? -1) && (dest =? -1) then Some (g1, BothNotFound)
            else if src =? -1 then Some (g1, StartNotFound)
            else if dest =? -1 then Some (g1, DestNotFound)
            else
              match shortest_path g1 src dest None None 0 with
              | None => None
              | Some NoRoute => Some (g1, NoRouteFound)
              | Some (Found path) =>
                  let edgeLines := build_edge_lines g1 path in
                  Some (g1, Summary path edgeLines (segments edgeLines)
                                    (Z.of_nat (List.length path) - 1)
                                    (count_interchanges g1 path)
                                    (estimated_time g1 path)
                                    (fare_from_distance
                                       (distance_of_edges
                                          (Z.of_nat (List.length path) - 1))))
              end
        | _, _ => Some (g1, MissingInput)
        end
  end.


(** ** The route finder of [main] *)

(** What the branch "Find route" of [main] comes to for the two lines
    read: the suggestions printed for a name that is not found, or the
    path with its labels and its alternates. *)
Inductive Finding : Type :=
| StartUnknown (suggestions : list string)
| DestUnknown (suggestions : list string)
| NoRouteBetween
| RouteFound (path : list Z) (edgeLines : list string)
             (alternates : list (list Z)).

(** Choice 1 of the menu of [main], from the two lines read (without
    their line ends) up to the path kept for the export; the network is
    the one built at the start or at the last toggle. *)
Definition find_route (g : Network) (include_planned : Z)
  (srcraw dstra : string) : option Finding :=
  let srckey := normalize_inplace (strncpy 79 srcraw) in
  let dstkey := normalize_inplace (strncpy 79 dstra) in
  let '(src, dest) := find_stations g include_planned srckey dstkey in
  if src =? -1 then Some (StartUnknown (autocomplete_print g srckey))
  else if dest =? -1 then Some (DestUnknown (autocomplete_print g dstkey))
  else
    match shortest_path g src dest None None 0 with
    | None => None
    | Some NoRoute => Some NoRouteBetween
    | Some (Found path) =>
        match find_alternates g path with
        | None => None
        | Some alternates =>
            Some (RouteFound path (build_edge_lines g path) alternates)
        end
    end.

(** * Vocabulary of the properties *)

(** ** Order on routes: fewer stations first, then station by station *)

Module RouteOrder.

(** [lex_lt a b]: at the first station where [a] and [b] differ, [a] has
    the smaller identity (routes of one length). *)
Fixpoint lex_lt (a b : list Z) : Prop :=
  match a, b with
  | x :: a', y :: b' => x < y \/ (x = y /\ lex_lt a' b')
  | _, _ => False
  end.

Definition before (a b : list Z) : Prop :=
  (List.length a < List.length b)%nat
  \/ (List.length a = List.length b /\ lex_lt a b).

Definition not_after (a b : list Z) : Prop := before a b \/ a = b.

End RouteOrder.

(** ** Routes *)

(** A registered station identity. *)
Definition station_id (g : Network) (v : Z) : Prop := 0 <= v < stationCount g.

(** The pair [(u, v)] is one of the [blocked_count] blocked pairs, in
    either orientation. *)
Definition is_blocked (blocked_a blocked_b : option (Z -> Z))
  (blocked_count : Z) (u v : Z) : Prop :=
  exists ba bb b,
    blocked_a = Some ba /\ blocked_b = Some bb /\ 0 <= b < blocked_count
    /\ ((u = ba b /\ v = bb b) \/ (u = bb b /\ v = ba b)).

(** An edge of the matrix that is not blocked. *)
Definition open_edge (g : Network) (blocked_a blocked_b : option (Z -> Z))
  (blocked_count : Z) (u v : Z) : Prop :=
  adj g u v <> 0 /\ ~ is_blocked blocked_a blocked_b blocked_count u v.

(** Every consecutive pair of [p] is in [E]. *)
Fixpoint linked (E : Z -> Z -> Prop) (p : list Z) : Prop :=
  match p with
  | a :: t =>
      match t with
      | b :: _ => E a b /\ linked E t
      | [] => True
      end
  | [] => True
  end.

(** A route from [src] to [dest]: station identities from [src] to
    [dest], consecutive ones joined by an edge that is not blocked. *)
Definition route (g : Network) (blocked_a blocked_b : option (Z -> Z))
  (blocked_count : Z) (src dest : Z) (p : list Z) : Prop :=
  hd_error p = Some src /\ last p src = dest
  /\ Forall (station_id g) p
  /\ linked (open_edge g blocked_a blocked_b blocked_count) p.

(** Number of edges of a route. *)
Definition hops (p : list Z) : Z := Z.of_nat (List.length p) - 1.

(** ** The search: hops, walks and the invariant of the two loops *)

Section SearchVocabulary.

Import RouteOrder.

Variable g : Network.
Variables blocked_a blocked_b : option (Z -> Z).
Variable blocked_count : Z.
Variable src : Z.

(** One step of the search from [u] to [v]: an edge of the matrix to a
    registered station that the blocked pairs leave open. *)
Definition hop (u v : Z) : Prop :=
  adj g u v <> 0 /\ 0 <= v < stationCount g
  /\ edge_blocked blocked_a blocked_b blocked_count u v = 0.

(** [walk v p]: [p] lists the stations of a sequence of hops from [src]
    to [v]. *)
Inductive walk : Z -> list Z -> Prop :=
| walk_start : walk src [src]
| walk_step u v p : walk u p -> hop u v -> walk v (p ++ [v]).

(** The invariant. [done] are the dequeued stations, [pend] the rest of
    the queue, whose head is being expanded when [vpos > 0]; [vpos] is the
    loop index [v]; [tp x] is the route the [parent] links spell for a
    queued station [x]. *)
Record Inv (done pend : list Z) (vpos : Z) (s : Search) (tp : Z -> list Z)
  : Prop := mkInv {
  inv_q : q s = done ++ pend;
  inv_nodup : NoDup (q s);
  inv_visited : forall v, visited s v <> 0 <-> In v (q s);
  inv_range : forall v, In v (q s) -> 0 <= v < stationCount g;
  inv_src : In src (q s) /\ tp src = [src] /\ parent s src = -1;
  inv_parent : forall v, In v (q s) -> v <> src ->
    hop (parent s v) v /\ tp v = tp (parent s v) ++ [v]
    /\ (In (parent s v) done \/ (hd_error pend = Some (parent s v) /\ v < vpos));
  inv_sorted : StronglySorted (fun x y => before (tp x) (tp y)) (q s);
  inv_done : forall x w, In x done -> hop x w ->
    In w (q s) /\ not_after (tp w) (tp x ++ [w]);
  inv_cur : forall u w, hd_error pend = Some u -> hop u w -> w < vpos ->
    In w (q s) /\ not_after (tp w) (tp u ++ [w]);
  inv_walk : forall v, In v (q s) -> walk v (tp v);
  inv_len : forall v, In v (q s) -> (List.length (tp v) <= List.length (q s))%nat
}.

End SearchVocabulary.

Arguments inv_q {g blocked_a blocked_b blocked_count src done pend vpos s tp} _.
Arguments inv_nodup {g blocked_a blocked_b blocked_count src done pend vpos s tp} _.
Arguments inv_visited {g blocked_a blocked_b blocked_count src done pend vpos s tp} _ _.
Arguments inv_range {g blocked_a blocked_b blocked_count src done pend vpos s tp} _ _ _.
Arguments inv_src {g blocked_a blocked_b blocked_count src done pend vpos s tp} _.
Arguments inv_parent {g blocked_a blocked_b blocked_count src done pend vpos s tp} _ _ _ _.
Arguments inv_sorted {g blocked_a blocked_b blocked_count src done pend vpos s tp} _.
Arguments inv_done {g blocked_a blocked_b blocked_count src done pend vpos s tp} _ _ _ _ _.
Arguments inv_cur {g blocked_a blocked_b blocked_count src done pend vpos s tp} _ _ _ _ _ _.
Arguments inv_walk {g blocked_a blocked_b blocked_count src done pend vpos s tp} _ _ _.
Arguments inv_len {g blocked_a blocked_b blocked_count src done pend vpos s tp} _ _ _.

(** ** Alternate routes *)

(** The search between the ends of [primary] with its edge number [e]
    as the one blocked pair: one round of [find_alternates]. *)
Definition detour (g : Network) (primary : list Z) (e : Z) : option RouteResult :=
  shortest_path g (at_index primary 0) (at_index primary (plen primary - 1))
    (Some (fun _ : Z => at_index primary e))
    (Some (fun _ : Z => at_index primary (e + 1))) 1.

(** What holds of the accepted alternates when the loop index is [e]:
    [es] are the indices of the edges whose blocking produced them. *)
Definition accepted (g : Network) (primary : list Z) (e : Z)
  (alternates : list (list Z)) : Prop :=
  Z.of_nat (List.length alternates) <= MAX_ALTERNATES
  /\ NoDup alternates
  /\ ~ In primary alternates
  /\ exists es,
       StronglySorted Z.lt es
       /\ Forall (fun x => 0 <= x < e) es
       /\ Forall2 (fun x alt => detour g primary x = Some (Found alt)) es alternates.

(** ** The adjacency matrix *)

(** [connected (a, b) == connected (b, a)] for all ids, and no id is
    connected to itself. *)
Definition symmetric_irreflexive (m : Z -> Z -> Z) : Prop :=
  (forall a b, m a b = m b a) /\ (forall a, m a a = 0).

(** Every edge of the matrix joins two registered stations. *)
Definition edges_registered (g : Network) : Prop :=
  forall u v, adj g u v <> 0 -> station_id g u /\ station_id g v.

(** ** Inputs of the registry and of the name key *)


(** Station number [i] of 400 two-letter names, ["aa"] to ["tt"]. *)
Definition filler_name (i : nat) : string :=
  String (ascii_of_nat (97 + i / 20))
         (String (ascii_of_nat (97 + i mod 20)) EmptyString).

(** [k] registrations in a row, of the names from number [i] on. *)
Fixpoint register_many (k i : nat) (g : Network) : option Network :=
  match k with
  | O => Some g
  | S k' =>
      match register g (filler_name i) 0 with
      | Some (g', _) => register_many k' (S i) g'
      | None => None
      end
  end.

(** Every character is a letter, a digit or white space. *)
Fixpoint accepted_chars (s : string) : bool :=
  match s with
  | EmptyString => true
  | String c r => (isalnum c || isspace c) && accepted_chars r
  end.

(** ** Line labels *)

(** The first name of [las], in its order, that is also in [lbs]. *)
Definition first_common (las lbs : list string) : option string :=
  find (fun la => existsb (String.eqb la) lbs) las.

(** The consecutive pairs of a path. *)
Fixpoint consecutive (path : list Z) : list (Z * Z) :=
  match path with
  | a :: t =>
      match t with
      | b :: _ => (a, b) :: consecutive t
      | [] => []
      end
  | [] => []
  end.

(** The label of the pair [(a, b)]: the first common line, or the
    sentinel when there is none. *)
Definition common_line_or_unknown (g : Network) (ab : Z * Z) : string :=
  match first_common (lines (stations g (fst ab))) (lines (stations g (snd ab))) with
  | Some l => l
  | None => "unknown"
  end.

(** Every stored line name fits its slot of 30 bytes. *)
Definition lines_fit (g : Network) : Prop :=
  forall id l, In l (lines (stations g id)) -> (String.length l <= 29)%nat.

(** ** The network of the program *)

(** The network after [build_network (1)] at program start. *)
Definition metro : Network :=
  match build_network initial_network 1 with
  | Some g => g
  | None => initial_network
  end.

(** Majestic to M.G. Road along the purple line. *)
Definition purple_leg : list Z := [13; 14; 15; 16; 17].

(** The line A-B-C-D alone, and the same with a second line E-F apart
    from it. *)
Definition one_line : option Network :=
  add_line_with_plan initial_network "red" ["A"; "B"; "C"; "D"] None.

Definition two_lines : option Network :=
  match one_line with
  | Some g => add_line_with_plan g "blue" ["E"; "F"] None
  | None => None
  end.

(** ** Shape of a key and of a display name *)

(** A character of a key: a lower-case letter, a digit or the blank. *)
Definition key_char (c : ascii) : bool :=
  islower c || isdigit c || (c =? " ")%char.

(** Every character of [s] is in [p]. *)
Fixpoint forall_chars (p : ascii -> bool) (s : string) : bool :=
  match s with
  | EmptyString => true
  | String c r => p c && forall_chars p r
  end.

(** No blank follows a blank; [prev] tells whether a blank (or the start
    of the key) comes just before [s]. *)
Fixpoint single_blanks (prev : bool) (s : string) : bool :=
  match s with
  | EmptyString => true
  | String c r =>
      if (c =? " ")%char then negb prev && single_blanks true r
      else single_blanks false r
  end.

(** The last character is a blank. *)
Fixpoint ends_blank (s : string) : bool :=
  match s with
  | EmptyString => false
  | String c EmptyString => (c =? " ")%char
  | String _ r => ends_blank r
  end.

(** Some character is a letter or a digit. *)
Fixpoint has_alnum (s : string) : bool :=
  match s with
  | EmptyString => false
  | String c r => isalnum c || has_alnum r
  end.

(** The test of step 3 at a character [a] followed by [t]. *)
Definition fusible (a : ascii) (t : string) : bool :=
  match t with
  | String b (String c _) => isalpha a && (b =? " ")%char && isalpha c
  | _ => false
  end.

(** [u] has the shape of a key made from [t]: characters in [p], single
    blanks, none at the end, no longer than [t]. *)
Definition key_shape (p : ascii -> bool) (prev : bool) (t u : string) : Prop :=
  forall_chars p u = true
  /\ single_blanks prev u = true
  /\ ends_blank u = false
  /\ (String.length u <= String.length t)%nat.

(** The first character is white space. *)
Definition starts_space (t : string) : bool :=
  match t with
  | EmptyString => false
  | String c _ => isspace c
  end.

(** The last character is white space. *)
Fixpoint ends_space (s : string) : bool :=
  match s with
  | EmptyString => false
  | String c EmptyString => isspace c
  | String _ r => ends_space r
  end.

(** ** The registry *)

(** No two registered stations have the same key. *)
Definition keys_distinct (g : Network) : Prop :=
  forall i j, station_id g i -> station_id g j ->
    key_name (stations g i) = key_name (stations g j) -> i = j.

(** [g'] has every station of [g] under its id, with its key, display
    name and planned flag, and with its lines followed by new ones. *)
Definition extends (g g' : Network) : Prop :=
  stationCount g <= stationCount g'
  /\ forall j, station_id g j ->
       key_name (stations g' j) = key_name (stations g j)
       /\ display_name (stations g' j) = display_name (stations g j)
       /\ planned (stations g' j) = planned (stations g j)
       /\ exists more, lines (stations g' j) = lines (stations g j) ++ more.

(** The key a raw station name is registered and looked up under. *)
Definition key_of (raw : string) : string :=
  normalize_inplace (strncpy 79 raw).

(** The id the registry's own lookup gives for a key, or -1. *)
Definition id_of_key (g : Network) (key : string) : Z :=
  match find_key (stations g) key (Z.to_nat (stationCount g)) 0 with
  | Some i => i
  | None => -1
  end.

(** Every edge joins two stations that have a line in common. *)
Definition edges_share_line (g : Network) : Prop :=
  forall u v, adj g u v <> 0 ->
    exists l, In l (lines (stations g u)) /\ In l (lines (stations g v)).

(** Every planned flag of a registered station is 0. *)
Definition none_planned (g : Network) : Prop :=
  forall j, station_id g j -> planned (stations g j) = 0.





(** The station names of the three lines. *)
Definition listed_names : list string := purple ++ green ++ pink.

(** The registry of [g] has a station under the key of [raw]. *)
Definition registered (g : Network) (raw : string) : bool :=
  negb (id_of_key g (key_of raw) =? -1).

(** ** Segments *)

(** The labels a segment stands for: its line, once for each stop. *)
Definition seg_labels (sg : Segment) : list string :=
  repeat (seg_line sg) (Z.to_nat (seg_stops sg)).

(** The segments follow one another from edge [i] up to, not including,
    edge [n], and none is empty. *)
Fixpoint chained (i n : Z) (segs : list Segment) : Prop :=
  match segs with
  | [] => i = n
  | sg :: r => seg_s sg = i /\ seg_s sg <= seg_e sg /\ chained (seg_e sg + 1) n r
  end.

(** Neighbouring segments are on different lines. *)
Fixpoint lines_alternate (segs : list Segment) : Prop :=
  match segs with
  | a :: r =>
      match r with
      | b :: _ => seg_line a <> seg_line b /\ lines_alternate r
      | [] => True
      end
  | [] => True
  end.

(** A label fits a slot of [edgeLines]. *)
Definition labels_fit (labels : list string) : Prop :=
  Forall (fun l => (String.length l <= 29)%nat) labels.

(** ** Suggestions *)

(** The stations [tbl[i .. i + k)] in the order of their ids. *)
Fixpoint table_from (tbl : Z -> Station) (i : Z) (k : nat) : list Station :=
  match k with
  | O => []
  | S k' => tbl i :: table_from tbl (i + 1) k'
  end.

(** The registered stations in the order of their ids. *)
Definition station_list (g : Network) : list Station :=
  table_from (stations g) 0 (Z.to_nat (stationCount g)).

(** The names shown for the stations whose key begins with [prefix]. *)
Definition names_with_prefix (g : Network) (prefix : string) : list string :=
  map shown_name
      (filter (fun s => String.prefix prefix (key_name s)) (station_list g)).

(** ** Fares *)

(** The fare slab of a journey of [edges] stops, at 1.1 km a stop. *)
Definition fare_of_edges (edges : Z) : Z :=
  if edges <=? 1 then 10
  else if edges <=? 3 then 20
  else if edges <=? 5 then 30
  else if edges <=? 7 then 40
  else if edges <=? 9 then 50
  else if edges <=? 13 then 60
  else if edges <=? 18 then 70
  else if edges <=? 22 then 80
  else 90.

(** The two ways the reports compute the fare of [edges] stops give the
    slab of [fare_of_edges]. *)
Definition fare_agrees (edges : Z) : bool :=
  (fare_from_distance (distance_of_edges edges) =? fare_of_edges edges)
  && (fare_from_distance (distance_by_sum edges) =? fare_of_edges edges).

(** ** Stations within reach *)

(** The ids [i], [i + 1], ... , [k] of them. *)
Fixpoint ids_from (i : Z) (k : nat) : list Z :=
  match k with
  | O => []
  | S k' => i :: ids_from (i + 1) k'
  end.

(** The search finds a path from [src] to [dest]. *)
Definition reaches (g : Network) (src dest : Z) : bool :=
  match shortest_path g src dest None None 0 with
  | Some (Found _) => true
  | _ => false
  end.

(** ** Answers *)

(** What [get_route] has to answer for two names, given the network
    [g'] it has built: [s] and [d] are the stations of the two keys. *)
Definition right_answer (g' : Network) (from to : string) (reply : Reply)
  : Prop :=
  let s := id_of_key g' (key_of from) in
  let d := id_of_key g' (key_of to) in
  if (s =? -1) && (d =? -1) then reply = BothNotFound
  else if s =? -1 then reply = StartNotFound
  else if d =? -1 then reply = DestNotFound
  else
    exists path,
      reply = Summary path (build_edge_lines g' path)
                      (segments (build_edge_lines g' path))
                      (hops path) (count_interchanges g' path)
                      (estimated_time g' path) (fare_of_edges (hops path))
      /\ route g' None None 0 s d path
      /\ forall p', route g' None None 0 s d p' -> hops path <= hops p'.

(** What choice 1 of [main] has to come to over the network [g] for the
    two names read: [s] and [d] are the stations of the two keys. *)
Definition right_finding (g : Network) (srcraw dstra : string)
  (finding : Finding) : Prop :=
  let s := id_of_key g (key_of srcraw) in
  let d := id_of_key g (key_of dstra) in
  if s =? -1 then
    finding = StartUnknown (firstn 20 (names_with_prefix g (key_of srcraw)))
  else if d =? -1 then
    finding = DestUnknown (firstn 20 (names_with_prefix g (key_of dstra)))
  else
    exists path alternates,
      finding = RouteFound path (build_edge_lines g path) alternates
      /\ route g None None 0 s d path
      /\ (forall p', route g None None 0 s d p' -> hops path <= hops p')
      /\ Z.of_nat (List.length alternates) <= MAX_ALTERNATES
      /\ NoDup alternates /\ ~ In path alternates
      /\ forall alt, In alt alternates ->
           route g None None 0 s d alt /\ hops path <= hops alt.

(** * Properties *)

(** ** Facts on the order on routes *)

Module RouteOrderFacts.

Import RouteOrder.

Lemma lex_lt_trans a : forall b c, lex_lt a b -> lex_lt b c -> lex_lt a c.
Proof.
  induction a as [|x a IH]; intros [|y b] [|z c]; simpl; try tauto.
  intros [Hxy | [Hxy Hab]] [Hyz | [Hyz Hbc]]; subst.
  - left; lia.
  - left; lia.
  - left; lia.
  - right; split; [reflexivity | eauto].
Qed.

Lemma lex_lt_app a : forall b l1 l2, lex_lt a b -> lex_lt (a ++ l1) (b ++ l2).
Proof.
  induction a as [|x a IH]; intros [|y b] l1 l2; simpl; try tauto.
  intros [H | [H1 H2]]; [left; exact H | right; split; auto].
Qed.

Lemma lex_lt_last a x y : x < y -> lex_lt (a ++ [x]) (a ++ [y]).
Proof.
  intros Hxy. induction a as [|z a IH]; simpl; [left; exact Hxy | right; auto].
Qed.

Lemma before_trans a b c : before a b -> before b c -> before a c.
Proof.
  unfold before. intros [H1 | [H1 H1']] [H2 | [H2 H2']].
  - left; lia.
  - left; lia.
  - left; lia.
  - right; split; [lia | eapply lex_lt_trans; eauto].
Qed.

Lemma not_after_before a b c : not_after a b -> before b c -> before a c.
Proof. intros [H | ->] Hbc; [eapply before_trans; eauto | exact Hbc]. Qed.

Lemma before_not_after a b c : before a b -> not_after b c -> before a c.
Proof. intros Hab [H | <-]; [eapply before_trans; eauto | exact Hab]. Qed.

Lemma not_after_trans a b c : not_after a b -> not_after b c -> not_after a c.
Proof.
  intros Hab [H | <-]; [left; eapply not_after_before; eauto | exact Hab].
Qed.

Lemma before_shorter a b : (List.length a < List.length b)%nat -> before a b.
Proof. intros H; left; exact H. Qed.

Lemma before_snoc a b x y : before a b -> before (a ++ [x]) (b ++ [y]).
Proof.
  unfold before. rewrite !length_app. simpl.
  intros [H | [H1 H2]]; [left; lia | right; split; [lia | now apply lex_lt_app]].
Qed.

Lemma before_last a x y : x < y -> before (a ++ [x]) (a ++ [y]).
Proof.
  intros H. right. rewrite !length_app. split; [reflexivity | now apply lex_lt_last].
Qed.

Lemma not_after_snoc a b x : not_after a b -> not_after (a ++ [x]) (b ++ [x]).
Proof. intros [H | ->]; [left; now apply before_snoc | right; reflexivity]. Qed.

Lemma before_extend a b x : not_after a b -> before a (b ++ [x]).
Proof.
  intros H. eapply not_after_before; [exact H|].
  apply before_shorter. rewrite length_app. simpl. lia.
Qed.

Lemma not_after_length a b : not_after a b -> (List.length a <= List.length b)%nat.
Proof. unfold not_after, before. intros [[H | [H _]] | ->]; lia. Qed.

Lemma lex_lt_irrefl a : ~ lex_lt a a.
Proof. induction a as [|x a IH]; simpl; [tauto | intros [H | [_ H]]; [lia | auto]]. Qed.

Lemma before_irrefl a : ~ before a a.
Proof. intros [H | [_ H]]; [lia | now apply lex_lt_irrefl in H]. Qed.

End RouteOrderFacts.

(** ** List facts used by the search proofs *)

Lemma sorted_snoc {A} (R : A -> A -> Prop) l v :
  StronglySorted R l -> (forall x, In x l -> R x v) -> StronglySorted R (l ++ [v]).
Proof.
  induction 1 as [|a l Hl IH Ha]; intros Hv; simpl.
  - constructor; constructor.
  - constructor.
    + apply IH. intros x Hx. apply Hv. now right.
    + apply Forall_app. split; [exact Ha|].
      constructor; [apply Hv; now left | constructor].
Qed.

Lemma sorted_split {A} (R : A -> A -> Prop) l1 x l2 :
  StronglySorted R (l1 ++ x :: l2) ->
  (forall y, In y l1 -> R y x) /\ (forall y, In y l2 -> R x y).
Proof.
  induction l1 as [|a l1 IH]; simpl; intros H.
  - apply StronglySorted_inv in H. destruct H as [_ H].
    rewrite Forall_forall in H. split; [tauto | exact H].
  - apply StronglySorted_inv in H. destruct H as [H1 H2].
    destruct (IH H1) as [IHa IHb]. rewrite Forall_forall in H2.
    split; [|exact IHb].
    intros y [<- | Hy]; [apply H2, in_elt | now apply IHa].
Qed.

Lemma sorted_ext {A} (R R' : A -> A -> Prop) l :
  (forall x y, In x l -> In y l -> R x y -> R' x y) ->
  StronglySorted R l -> StronglySorted R' l.
Proof.
  intros Hext H. induction H as [|a l Hl IH Ha]; constructor.
  - apply IH. intros x y Hx Hy. apply Hext; now right.
  - rewrite Forall_forall in *. intros y Hy.
    apply Hext; [now left | now right | now apply Ha].
Qed.

(** Distinct ids below [n] are at most [n]. *)
Lemma distinct_ids_bound (l : list Z) (n : Z) :
  0 <= n -> NoDup l -> (forall v, In v l -> 0 <= v < n) ->
  Z.of_nat (List.length l) <= n.
Proof.
  intros Hn Hnd Hr.
  assert (Hnd' : NoDup (map Z.to_nat l)).
  { clear - Hnd Hr. induction Hnd as [|x l Hx Hnd IH]; simpl; constructor.
    - rewrite in_map_iff. intros [y [Hy Hin]].
      assert (0 <= y < n) by (apply Hr; now right).
      assert (0 <= x < n) by (apply Hr; now left).
      apply Z2Nat.inj in Hy; [|lia|lia]. subst. contradiction.
    - apply IH. intros v Hv. apply Hr. now right. }
  assert (Hincl : incl (map Z.to_nat l) (seq 0 (Z.to_nat n))).
  { intros k Hk. rewrite in_map_iff in Hk. destruct Hk as [y [<- Hy]].
    apply Hr in Hy. apply in_seq. lia. }
  pose proof (NoDup_incl_length Hnd' Hincl) as Hlen.
  rewrite length_map, length_seq in Hlen. lia.
Qed.

(** The swap loop reverses the path. *)
Lemma store_middle pre x post v :
  store (List.length pre) v (pre ++ x :: post) = pre ++ v :: post.
Proof. induction pre as [|a pre IH]; simpl; [reflexivity | now rewrite IH]. Qed.

Lemma swap_ends_rev k : forall pre m post,
  List.length pre = List.length post -> k = Nat.div2 (List.length m) ->
  swap_ends k (List.length pre) (pre ++ m ++ post) = pre ++ rev m ++ post.
Proof.
  induction k as [|k IH]; intros pre m post Hlen Hk.
  - destruct m as [|x [|y m]]; simpl in Hk; try discriminate; reflexivity.
  - destruct m as [|x m]; [discriminate|].
    destruct (exists_last (l := m)) as [mid [y ->]].
    { intros ->. discriminate. }
    cbn [swap_ends].
    set (L := pre ++ (x :: mid ++ [y]) ++ post).
    assert (E1 : L = (pre ++ x :: mid) ++ y :: post)
      by (unfold L; rewrite <- !app_assoc; simpl; now rewrite <- app_assoc).
    assert (E2 : L = pre ++ x :: (mid ++ y :: post))
      by (unfold L; simpl; now rewrite <- app_assoc).
    assert (Hidx : (List.length L - 1 - List.length pre
                    = List.length (pre ++ x :: mid))%nat).
    { rewrite E1, !length_app. cbn [List.length]. lia. }
    assert (A1 : nth (List.length pre) L 0 = x) by (rewrite E2; apply nth_middle).
    assert (A2 : nth (List.length (pre ++ x :: mid)) L 0 = y)
      by (rewrite E1; apply nth_middle).
    assert (A3 : store (List.length pre) y L = (pre ++ y :: mid) ++ y :: post)
      by (rewrite E2, store_middle, <- app_assoc; reflexivity).
    assert (A4 : store (List.length (pre ++ x :: mid)) x
                   ((pre ++ y :: mid) ++ y :: post)
                 = (pre ++ [y]) ++ mid ++ x :: post).
    { replace (List.length (pre ++ x :: mid)) with (List.length (pre ++ y :: mid))
        by (rewrite !length_app; reflexivity).
      rewrite store_middle, <- !app_assoc. reflexivity. }
    rewrite Hidx, A1, A2, A3, A4.
    replace (S (List.length pre)) with (List.length (pre ++ [y]))
      by (rewrite length_app; simpl; lia).
    rewrite IH.
    + simpl. rewrite rev_app_distr. simpl.
      rewrite <- !app_assoc. simpl. reflexivity.
    + rewrite length_app. simpl. lia.
    + simpl in Hk. rewrite length_app in Hk. simpl in Hk.
      replace (List.length mid + 1)%nat with (S (List.length mid)) in Hk by lia.
      simpl in Hk. lia.
Qed.

Lemma reverse_in_place_rev path : reverse_in_place path = rev path.
Proof.
  unfold reverse_in_place.
  pose proof (swap_ends_rev (Nat.div2 (List.length path)) [] path [] eq_refl eq_refl) as H.
  simpl in H. now rewrite !app_nil_r in H.
Qed.

Lemma upd_same {A} (a : Z -> A) i v : upd a i v i = v.
Proof. unfold upd. now rewrite Z.eqb_refl. Qed.

Lemma upd_other {A} (a : Z -> A) i v j : j <> i -> upd a i v j = a j.
Proof. unfold upd. intros H. apply Z.eqb_neq in H. now rewrite H. Qed.

(** ** The search: invariant of the two loops *)

Section SearchInvariant.

Import RouteOrder RouteOrderFacts.

Variable g : Network.
Variables blocked_a blocked_b : option (Z -> Z).
Variable blocked_count : Z.
Variable src : Z.

Hypothesis src_id : 0 <= src < stationCount g.
Hypothesis table_fits : stationCount g <= MAX.

Local Abbreviation hop' := (hop g blocked_a blocked_b blocked_count).
Local Abbreviation walk' := (walk g blocked_a blocked_b blocked_count src).
Local Abbreviation Inv' := (Inv g blocked_a blocked_b blocked_count src).

Lemma walk_length {v p} : walk' v p -> (1 <= List.length p)%nat.
Proof. destruct 1; [simpl | rewrite length_app; simpl]; lia. Qed.

Lemma inv_init parent0 :
  Inv' [] [src] 0
      (mkSearch (upd (fun _ => 0) src 1) [src] (upd parent0 src (-1)))
      (fun _ => [src]).
Proof.
  constructor; simpl.
  - reflexivity.
  - constructor; [simpl; tauto | constructor].
  - intros v. unfold upd. destruct (Z.eqb_spec v src) as [-> | Hne].
    + split; [intros _; now left | intros _; lia].
    + split; [intros H; now contradiction H | intros [H | []]; congruence].
  - intros v [<- | []]. exact src_id.
  - split; [now left | split; [reflexivity | apply upd_same]].
  - intros v [<- | []] H. congruence.
  - constructor; constructor.
  - intros x w [] _.
  - intros u w _ [_ [Hw _]] Hlt. lia.
  - intros v [<- | []]. constructor.
  - intros v _. lia.
Qed.

(** A queued station's parent is queued. *)
Lemma inv_parent_in done pend vpos s tp v :
  Inv' done pend vpos s tp -> In v (q s) -> v <> src -> In (parent s v) (q s).
Proof.
  intros I Hv Hne. destruct (inv_parent I v Hv Hne) as [_ [_ [H | [H _]]]];
    rewrite (inv_q I); apply in_or_app; [now left | right].
  destruct pend; simpl in H; [discriminate | injection H as ->; now left].
Qed.

(** Every queued station has its route not after the routes through the
    station [u] being expanded, once [v] is past the station. *)
Lemma inv_route_via done u rest vpos s tp w :
  Inv' done (u :: rest) vpos s tp -> In w (q s) ->
  not_after (tp w) (tp u ++ [w]).
Proof.
  intros I Hw.
  assert (Hu : In u (q s)) by (rewrite (inv_q I); apply in_elt).
  pose proof (walk_length (inv_walk I u Hu)) as Hul.
  destruct (Z.eq_dec w src) as [-> | Hne].
  - left. apply before_shorter. destruct (inv_src I) as [_ [-> _]].
    rewrite length_app. simpl. lia.
  - destruct (inv_parent I w Hw Hne) as [_ [Htp [Hd | [Hh _]]]].
    + rewrite Htp. left. apply before_snoc.
      pose proof (inv_sorted I) as Hs. rewrite (inv_q I) in Hs.
      apply sorted_split in Hs. now apply (proj1 Hs).
    + simpl in Hh. injection Hh as Hh. right. now rewrite Hh.
Qed.

(** The rounds of the loop over [v] that leave the state as it is. *)
Lemma visit_skip done u rest v s tp :
  Inv' done (u :: rest) v s tp ->
  (hop' u v -> In v (q s)) ->
  Inv' done (u :: rest) (v + 1) s tp.
Proof.
  intros I Hskip. constructor; try apply I.
  - intros x Hx Hne. destruct (inv_parent I x Hx Hne) as [H1 [H2 H3]].
    split; [exact H1 | split; [exact H2|]].
    destruct H3 as [H3 | [H3 H4]]; [now left | right; split; [exact H3 | lia]].
  - intros u' w Hh Hhop Hlt. simpl in Hh. injection Hh as <-.
    destruct (Z.eq_dec w v) as [-> | Hne].
    + split; [now apply Hskip | eapply inv_route_via; eauto].
    + apply (inv_cur I u w); [reflexivity | exact Hhop | lia].
Qed.

(** The round that marks [v], links it to [u] and queues it. *)
Lemma visit_push done u rest v s tp :
  Inv' done (u :: rest) v s tp -> hop' u v -> ~ In v (q s) ->
  Inv' done (u :: rest ++ [v]) (v + 1)
      (mkSearch (upd (visited s) v 1) (q s ++ [v]) (upd (parent s) v u))
      (upd tp v (tp u ++ [v])).
Proof.
  intros I Hhop Hnew.
  assert (Hu : In u (q s)) by (rewrite (inv_q I); apply in_elt).
  assert (Huv : u <> v) by congruence.
  assert (Hold : forall x, In x (q s) -> x <> v) by congruence.
  assert (Htp : forall x, In x (q s) -> upd tp v (tp u ++ [v]) x = tp x)
    by (intros x Hx; apply upd_other; auto).
  destruct (inv_src I) as [Hs1 [Hs2 Hs3]].
  constructor; simpl.
  - rewrite (inv_q I). now rewrite <- app_assoc.
  - apply NoDup_app; [apply I | constructor; [simpl; tauto | constructor] |].
    intros x Hx [<- | []]. contradiction.
  - intros x. rewrite in_app_iff. simpl. unfold upd at 1.
    destruct (Z.eqb_spec x v) as [-> | Hne].
    + split; [auto | lia].
    + rewrite (inv_visited I). split; [auto | intros [H | [H | []]]; congruence].
  - intros x Hx. apply in_app_or in Hx. destruct Hx as [Hx | [<- | []]].
    + now apply (inv_range I).
    + apply Hhop.
  - split; [apply in_or_app; now left|].
    split; [rewrite Htp; auto | rewrite upd_other; auto].
  - intros x Hx Hne. apply in_app_or in Hx. destruct Hx as [Hx | [<- | []]].
    + rewrite upd_other by auto.
      destruct (inv_parent I x Hx Hne) as [H1 [H2 H3]].
      assert (Hp : In (parent s x) (q s)) by (eapply inv_parent_in; eauto).
      rewrite !Htp by auto.
      split; [exact H1 | split; [exact H2|]].
      destruct H3 as [H3 | [H3 H4]]; [now left | right; split; [exact H3 | lia]].
    + rewrite !upd_same. rewrite Htp by auto.
      split; [exact Hhop | split; [reflexivity | right; split; [reflexivity | lia]]].
  - apply sorted_snoc.
    + eapply sorted_ext; [|apply (inv_sorted I)].
      intros x y Hx Hy. simpl. now rewrite !Htp.
    + intros x Hx. rewrite Htp by auto. rewrite upd_same.
      pose proof (walk_length (inv_walk I u Hu)) as Hul.
      destruct (Z.eq_dec x src) as [-> | Hne].
      * apply before_shorter. rewrite Hs2, length_app. simpl. lia.
      * destruct (inv_parent I x Hx Hne) as [_ [Hx2 [Hd | [Hh Hlt]]]].
        -- rewrite Hx2. apply before_snoc.
           pose proof (inv_sorted I) as Hs. rewrite (inv_q I) in Hs.
           apply sorted_split in Hs. now apply (proj1 Hs).
        -- simpl in Hh. injection Hh as Hh. rewrite Hx2, <- Hh.
           now apply before_last.
  - intros x w Hx Hxw.
    assert (Hxq : In x (q s)) by (rewrite (inv_q I); apply in_or_app; now left).
    destruct (inv_done I x w Hx Hxw) as [H1 H2].
    split; [apply in_or_app; now left | now rewrite !Htp].
  - intros u' w Hh Hw Hlt. simpl in Hh. injection Hh as <-.
    destruct (Z.eq_dec w v) as [-> | Hne].
    + split; [apply in_or_app; right; now left|].
      rewrite upd_same, Htp by auto. right. reflexivity.
    + destruct (inv_cur I u w) as [H1 H2]; [reflexivity | exact Hw | lia |].
      split; [apply in_or_app; now left | now rewrite !Htp].
  - intros x Hx. apply in_app_or in Hx. destruct Hx as [Hx | [<- | []]].
    + rewrite Htp by auto. now apply (inv_walk I).
    + rewrite upd_same. econstructor; [apply (inv_walk I u Hu) | exact Hhop].
  - intros x Hx. rewrite length_app. simpl.
    apply in_app_or in Hx. destruct Hx as [Hx | [<- | []]].
    + rewrite Htp by auto. pose proof (inv_len I x Hx). lia.
    + rewrite upd_same, length_app. simpl. pose proof (inv_len I u Hu). lia.
Qed.

Local Abbreviation visit' := (visit g blocked_a blocked_b blocked_count).
Local Abbreviation expand' := (expand g blocked_a blocked_b blocked_count).
Local Abbreviation bfs_loop' := (bfs_loop g blocked_a blocked_b blocked_count).

(** The queue never outgrows the station table. *)
Lemma inv_queue_fits done pend vpos s tp :
  Inv' done pend vpos s tp -> Z.of_nat (List.length (q s)) <= stationCount g.
Proof.
  intros I. apply distinct_ids_bound; [lia | apply I | apply I].
Qed.

Lemma visit_inv done u rest v s tp :
  Inv' done (u :: rest) v s tp -> 0 <= v < stationCount g ->
  exists s' rest' tp',
    visit' u v s = Some s' /\ Inv' done (u :: rest') (v + 1) s' tp'.
Proof.
  intros I Hv. unfold visit.
  destruct (Z.eqb_spec (adj g u v) 0) as [Ha | Ha].
  { exists s, rest, tp. split; [reflexivity|].
    apply visit_skip; [exact I|]. intros [H _]. contradiction. }
  destruct (Z.eqb_spec (visited s v) 0) as [Hvis | Hvis]; simpl.
  2: { exists s, rest, tp. split; [reflexivity|].
       apply visit_skip; [exact I|]. intros _. now apply (inv_visited I). }
  destruct (Z.eqb_spec (edge_blocked blocked_a blocked_b blocked_count u v) 0)
    as [Hb | Hb]; simpl.
  2: { exists s, rest, tp. split; [reflexivity|].
       apply visit_skip; [exact I|]. intros [_ [_ H]]. contradiction. }
  assert (Hnew : ~ In v (q s)).
  { intros Hin. apply (inv_visited I) in Hin. contradiction. }
  assert (Hroom : Z.of_nat (List.length (v :: q s)) <= stationCount g).
  { apply distinct_ids_bound; [lia | constructor; [exact Hnew | apply I] |].
    intros x [<- | Hx]; [exact Hv | now apply (inv_range I)]. }
  simpl List.length in Hroom.
  destruct (Z.ltb_spec (Z.of_nat (List.length (q s))) MAX) as [_ | Hfull]; [|lia].
  eexists _, (rest ++ [v]), _. split; [reflexivity|].
  apply visit_push; [exact I | now repeat split | exact Hnew].
Qed.

Lemma expand_inv done u k : forall v rest s tp,
  Inv' done (u :: rest) v s tp -> 0 <= v ->
  v + Z.of_nat k = stationCount g ->
  exists s' rest' tp',
    expand' k u v s = Some s' /\ Inv' done (u :: rest') (stationCount g) s' tp'.
Proof.
  induction k as [|k IH]; intros v rest s tp I Hv Hk; simpl.
  - exists s, rest, tp. split; [reflexivity|].
    replace (stationCount g) with v by lia. exact I.
  - destruct (visit_inv done u rest v s tp I) as [s1 [rest1 [tp1 [E1 I1]]]]; [lia|].
    rewrite E1. apply (IH (v + 1) rest1 s1 tp1 I1); lia.
Qed.

(** Leaving the loop over [v]: the expanded station joins [done]. *)
Lemma next_inv done u rest s tp :
  Inv' done (u :: rest) (stationCount g) s tp -> Inv' (done ++ [u]) rest 0 s tp.
Proof.
  intros I. constructor; try apply I.
  - rewrite (inv_q I), <- app_assoc. reflexivity.
  - intros x Hx Hne. destruct (inv_parent I x Hx Hne) as [H1 [H2 H3]].
    split; [exact H1 | split; [exact H2 | left]].
    apply in_or_app. destruct H3 as [H3 | [H3 _]]; [now left | right].
    simpl in H3. injection H3 as ->. now left.
  - intros x w Hx Hxw. apply in_app_or in Hx. destruct Hx as [Hx | [<- | []]].
    + now apply (inv_done I).
    + apply (inv_cur I u w); [reflexivity | exact Hxw | apply Hxw].
  - intros x w _ [_ [Hw _]] Hlt. lia.
Qed.

(** The outer loop: within its rounds it ends, on [dest] at the head of
    the queue or on an empty queue that never held [dest]. *)
Lemma loop_inv dest fuel : forall front s done pend tp,
  Inv' done pend 0 s tp -> List.length done = front -> ~ In dest done ->
  (Z.to_nat MAX < fuel + front)%nat ->
  exists s' done' pend' tp',
    Inv' done' pend' 0 s' tp' /\ ~ In dest done'
    /\ ((bfs_loop' fuel dest front s = Some (1, parent s')
         /\ hd_error pend' = Some dest)
        \/ (bfs_loop' fuel dest front s = Some (0, parent s') /\ pend' = [])).
Proof.
  induction fuel as [|fuel IH]; intros front s done pend tp I Hfront Hdest Hfuel.
  - exfalso. pose proof (inv_queue_fits _ _ _ _ _ I) as Hq.
    rewrite (inv_q I), length_app in Hq. lia.
  - simpl. rewrite (inv_q I), length_app.
    destruct pend as [|u rest].
    + exists s, done, [], tp. split; [exact I | split; [exact Hdest | right]].
      split; [|reflexivity].
      destruct (Nat.ltb_spec front (List.length done + List.length (@nil Z)));
        [simpl in *; lia | reflexivity].
    + destruct (Nat.ltb_spec front (List.length done + List.length (u :: rest)));
        [|simpl in *; lia].
      replace (nth front (done ++ u :: rest) 0) with u
        by (subst front; now rewrite nth_middle).
      destruct (Z.eqb_spec u dest) as [-> | Hne].
      * exists s, done, (dest :: rest), tp.
        split; [exact I | split; [exact Hdest | left; split; reflexivity]].
      * destruct (expand_inv done u (Z.to_nat (stationCount g)) 0 rest s tp I)
          as [s1 [rest1 [tp1 [E1 I1]]]]; [lia | lia |].
        rewrite E1. apply next_inv in I1.
        apply (IH (S front) s1 (done ++ [u]) rest1 tp1 I1).
        -- rewrite length_app. simpl. lia.
        -- intros Hin. apply in_app_or in Hin.
           destruct Hin as [Hin | [Hin | []]]; [contradiction | congruence].
        -- lia.
Qed.

(** Between two rounds of the outer loop: a station that hops lead to is
    queued with a route not after the hops, unless a station still to be
    expanded has its route before them. *)
Lemma reach_or_front done pend s tp w p :
  Inv' done pend 0 s tp -> walk' w p ->
  (In w (q s) /\ not_after (tp w) p)
  \/ (exists x, In x pend /\ before (tp x) p).
Proof.
  intros I Hw. induction Hw as [|u v p Hu IH Huv].
  - left. destruct (inv_src I) as [H1 [H2 _]].
    split; [exact H1 | right; exact H2].
  - destruct IH as [[Hin Hle] | [x [Hx Hlt]]].
    + rewrite (inv_q I) in Hin. apply in_app_or in Hin.
      destruct Hin as [Hd | Hp].
      * left. destruct (inv_done I u v Hd Huv) as [H1 H2].
        split; [exact H1|].
        eapply not_after_trans; [exact H2 | now apply not_after_snoc].
      * right. exists u. split; [exact Hp | now apply before_extend].
    + right. exists x. split; [exact Hx|].
      eapply before_trans; [exact Hlt|].
      apply before_shorter. rewrite length_app. simpl. lia.
Qed.

Lemma walk_back_end room par path : walk_back room par (-1) path = Some path.
Proof. destruct room; reflexivity. Qed.

(** Reading [parent] back from a queued station spells its route,
    last station first. *)
Lemma walk_back_route done pend vpos s tp :
  Inv' done pend vpos s tp ->
  forall room v path, In v (q s) -> (List.length (tp v) <= room)%nat ->
  walk_back room (parent s) v path = Some (path ++ rev (tp v)).
Proof.
  intros I. induction room as [|room IH]; intros v path Hv Hlen.
  - pose proof (walk_length (inv_walk I v Hv)). lia.
  - pose proof (inv_range I v Hv) as Hr. simpl.
    destruct (Z.eqb_spec v (-1)) as [E | _]; [lia|].
    destruct (Z.eq_dec v src) as [-> | Hne].
    + destruct (inv_src I) as [_ [-> ->]]. now rewrite walk_back_end.
    + destruct (inv_parent I v Hv Hne) as [_ [Htp _]].
      rewrite IH.
      * rewrite Htp, rev_app_distr, <- app_assoc. reflexivity.
      * eapply inv_parent_in; eauto.
      * rewrite Htp, length_app in Hlen. simpl in Hlen. lia.
Qed.

(** What the search returns. *)
Lemma shortest_path_walk dest :
  (exists p, shortest_path g src dest blocked_a blocked_b blocked_count
               = Some (Found p)
             /\ walk' dest p /\ forall p', walk' dest p' -> not_after p p')
  \/ (shortest_path g src dest blocked_a blocked_b blocked_count = Some NoRoute
      /\ forall p', ~ walk' dest p').
Proof.
  unfold shortest_path, bfs_with_blocked_edges.
  destruct (loop_inv dest (S (Z.to_nat MAX)) 0 _ [] [src] _
              (inv_init (fun _ => -1)))
    as [s [done [pend [tp [I [Hdest [[E Hhd] | [E ->]]]]]]]];
    [reflexivity | simpl; tauto | lia | |]; rewrite E; simpl.
  - left. destruct pend as [|d rest]; [discriminate|].
    simpl in Hhd. injection Hhd as ->.
    assert (Hq : In dest (q s)) by (rewrite (inv_q I); apply in_elt).
    exists (tp dest). unfold reconstruct.
    rewrite (walk_back_route _ _ _ _ _ I).
    + cbn [option_map app]. rewrite reverse_in_place_rev, rev_involutive.
      split; [reflexivity|].
      split; [now apply (inv_walk I)|].
      intros p' Hp'. destruct (reach_or_front _ _ _ _ _ _ I Hp')
        as [[_ H] | [x [Hx Hlt]]]; [exact H | left].
      destruct Hx as [<- | Hx]; [exact Hlt|].
      eapply before_trans; [|exact Hlt].
      pose proof (inv_sorted I) as Hs. rewrite (inv_q I) in Hs.
      apply sorted_split in Hs. now apply (proj2 Hs).
    + exact Hq.
    + pose proof (inv_len I dest Hq). pose proof (inv_queue_fits _ _ _ _ _ I). lia.
  - right. split; [reflexivity|].
    intros p' Hp'. destruct (reach_or_front _ _ _ _ _ _ I Hp')
      as [[H _] | [x [[] _]]].
    rewrite (inv_q I), app_nil_r in H. contradiction.
Qed.

End SearchInvariant.

(** ** Routes and walks *)

Lemma blocked_scan_iff blocked_a blocked_b u v k : forall b,
  blocked_scan blocked_a blocked_b u v k b <> 0 <->
  exists ba bb i,
    blocked_a = Some ba /\ blocked_b = Some bb /\ b <= i < b + Z.of_nat k
    /\ ((u = ba i /\ v = bb i) \/ (u = bb i /\ v = ba i)).
Proof.
  induction k as [|k IH]; intros b.
  - simpl. split; [tauto | intros [ba [bb [i H]]]; lia].
  - cbn [blocked_scan].
    destruct blocked_a as [ba|], blocked_b as [bb|];
      try (rewrite IH; split; intros [ba' [bb' [i [H1 [H2 _]]]]]; discriminate).
    destruct (((u =? ba b) && (v =? bb b)) || ((u =? bb b) && (v =? ba b))) eqn:E.
    + split; [intros _ | intros _; lia].
      exists ba, bb, b. split; [reflexivity | split; [reflexivity | split; [lia|]]].
      apply orb_true_iff in E. rewrite !andb_true_iff, !Z.eqb_eq in E. exact E.
    + rewrite IH. split; intros [ba' [bb' [i [H1 [H2 [H3 H4]]]]]];
        injection H1 as <-; injection H2 as <-; exists ba, bb, i;
        (split; [reflexivity | split; [reflexivity | split; [|exact H4]]]).
      * lia.
      * destruct (Z.eq_dec i b) as [-> | Hne]; [exfalso | lia].
        apply orb_false_iff in E. rewrite !andb_false_iff, !Z.eqb_neq in E. tauto.
Qed.

Lemma edge_blocked_iff blocked_a blocked_b blocked_count u v :
  edge_blocked blocked_a blocked_b blocked_count u v <> 0 <->
  is_blocked blocked_a blocked_b blocked_count u v.
Proof.
  unfold edge_blocked, is_blocked. rewrite blocked_scan_iff.
  split; intros [ba [bb [i [H1 [H2 [H3 H4]]]]]]; exists ba, bb, i;
    repeat split; try assumption; lia.
Qed.

Lemma hop_iff g blocked_a blocked_b blocked_count u v :
  hop g blocked_a blocked_b blocked_count u v <->
  open_edge g blocked_a blocked_b blocked_count u v /\ station_id g v.
Proof.
  unfold hop, open_edge, station_id. rewrite <- edge_blocked_iff.
  destruct (Z.eq_dec (edge_blocked blocked_a blocked_b blocked_count u v) 0);
    tauto.
Qed.

Lemma linked_snoc E p v d :
  linked E (p ++ [v]) <-> linked E p /\ (p <> [] -> E (last p d) v).
Proof.
  induction p as [|a p IH]; simpl.
  - tauto.
  - destruct p as [|b p']; simpl in *.
    + split; [intros [H _]; auto | intros [_ H]; split; [apply H; discriminate | exact I]].
    + rewrite IH. split.
      * intros [H1 [H2 H3]]. split; [tauto | intros _; apply H3; discriminate].
      * intros [[H1 H2] H3]. split; [exact H1 | split; [exact H2 | intros _; apply H3; discriminate]].
Qed.

Lemma walk_route g blocked_a blocked_b blocked_count src dest p :
  station_id g src ->
  walk g blocked_a blocked_b blocked_count src dest p ->
  route g blocked_a blocked_b blocked_count src dest p.
Proof.
  intros Hsrc Hw. induction Hw as [|u v p Hu IH Huv].
  - repeat split; [constructor; [exact Hsrc | constructor]].
  - destruct IH as [H1 [H2 [H3 H4]]]. apply hop_iff in Huv.
    destruct p as [|a p]; [discriminate|].
    repeat split.
    + exact H1.
    + apply last_last.
    + apply Forall_app. split; [exact H3 | constructor; [apply Huv | constructor]].
    + apply (linked_snoc _ _ _ src). split; [exact H4|].
      intros _. rewrite H2. apply Huv.
Qed.

Lemma route_walk g blocked_a blocked_b blocked_count src p : forall dest,
  route g blocked_a blocked_b blocked_count src dest p ->
  walk g blocked_a blocked_b blocked_count src dest p.
Proof.
  induction p as [|v p IH] using rev_ind; intros dest [H1 [H2 [H3 H4]]].
  - discriminate.
  - rewrite last_last in H2. subst v.
    destruct p as [|a p].
    + simpl in H1. injection H1 as ->. constructor.
    + apply Forall_app in H3. destruct H3 as [H3 H3'].
      apply (linked_snoc _ _ _ src) in H4. destruct H4 as [H4 H4'].
      apply walk_step with (u := last (a :: p) src).
      * apply IH. repeat split; assumption.
      * apply hop_iff. split; [apply H4'; discriminate | now inversion H3'].
Qed.

(** C1. Over a network whose table fits its array, for a source that is
    a station identity, any destination and any blocked pairs: the search
    stays inside its arrays; it reports no route exactly when no route
    avoiding the blocked pairs exists; and a path it returns is such a
    route, with no more stations than any other, and among the routes of
    its own length the first in the order of station identities, which
    is the route met first when neighbours are expanded in increasing
    identity. *)
Theorem shortest_path_correct g blocked_a blocked_b blocked_count src dest :
  station_id g src -> stationCount g <= MAX ->
  (exists r, shortest_path g src dest blocked_a blocked_b blocked_count = Some r)
  /\ (shortest_path g src dest blocked_a blocked_b blocked_count = Some NoRoute
      <-> ~ exists p, route g blocked_a blocked_b blocked_count src dest p)
  /\ (forall p,
        shortest_path g src dest blocked_a blocked_b blocked_count
          = Some (Found p) ->
        route g blocked_a blocked_b blocked_count src dest p
        /\ forall p', route g blocked_a blocked_b blocked_count src dest p' ->
             hops p <= hops p'
             /\ (hops p = hops p' -> p = p' \/ RouteOrder.lex_lt p p')).
Proof.
  intros Hsrc Hfit.
  destruct (shortest_path_walk g blocked_a blocked_b blocked_count src
              Hsrc Hfit dest) as [[p [E [Hw Hmin]]] | [E Hnone]]; rewrite E.
  - split; [eauto | split].
    + split; [discriminate|]. intros Hno. exfalso. apply Hno.
      exists p. now apply walk_route.
    + intros p0 Hp0. injection Hp0 as <-. split; [now apply walk_route|].
      intros p' Hp'. apply route_walk in Hp'. apply Hmin in Hp'.
      pose proof (RouteOrderFacts.not_after_length _ _ Hp') as Hlen.
      unfold hops. split; [lia|].
      intros Heq. destruct Hp' as [[Hlt | [_ Hlex]] | ->]; [lia | now right | now left].
  - split; [eauto | split].
    + split; [|reflexivity]. intros _ [p Hp]. apply route_walk in Hp.
      now apply Hnone in Hp.
    + intros p Hp. discriminate.
Qed.

Lemma bfs_loop_at_dest g blocked_a blocked_b blocked_count fuel dest vis par :
  bfs_loop g blocked_a blocked_b blocked_count (S fuel) dest 0
           (mkSearch vis [dest] par) = Some (1, par).
Proof. simpl. now rewrite Z.eqb_refl. Qed.

Lemma walk_back_single room par s path :
  s <> -1 -> par s = -1 -> walk_back (S room) par s path = Some (path ++ [s]).
Proof.
  intros Hs Hp. simpl. destruct (Z.eqb_spec s (-1)) as [E | _]; [contradiction|].
  rewrite Hp. apply walk_back_end.
Qed.

Lemma MAX_room : Z.to_nat MAX = S (Z.to_nat (MAX - 1)).
Proof. vm_compute. reflexivity. Qed.

(** C8. From a station to itself the search succeeds with the
    one-station path, whatever is blocked. *)
Theorem shortest_path_self g blocked_a blocked_b blocked_count s :
  station_id g s ->
  shortest_path g s s blocked_a blocked_b blocked_count = Some (Found [s]).
Proof.
  intros [Hs _]. unfold shortest_path, bfs_with_blocked_edges.
  rewrite bfs_loop_at_dest. unfold reconstruct.
  rewrite MAX_room, walk_back_single; [reflexivity | lia | apply upd_same].
Qed.

(** ** Alternate routes *)

Lemma same_stations_iff a : forall b,
  List.length a = List.length b -> (same_stations a b <> 0 <-> a = b).
Proof.
  induction a as [|x a IH]; intros [|y b] Hlen; simpl in *; try discriminate.
  - split; [reflexivity | lia].
  - destruct (Z.eqb_spec x y) as [-> | Hne]; simpl.
    + rewrite IH by lia. split; [intros ->; reflexivity | intros H; now injection H].
    + split; [lia | intros H; injection H; contradiction].
Qed.

Lemma route_equals_iff a b : route_equals a b <> 0 <-> a = b.
Proof.
  unfold route_equals.
  destruct (Z.eqb_spec (Z.of_nat (List.length a)) (Z.of_nat (List.length b)))
    as [E | E]; simpl.
  - apply same_stations_iff. lia.
  - split; [lia | intros ->; contradiction].
Qed.

Lemma seen_before_iff path alternates :
  seen_before path alternates <> 0 <-> In path alternates.
Proof.
  induction alternates as [|alt rest IH]; simpl.
  - split; [lia | tauto].
  - destruct (Z.eqb_spec (route_equals path alt) 0) as [E | E]; simpl.
    + rewrite IH. split; [now right | intros [<- | H]; [|exact H]].
      exfalso. assert (H : route_equals alt alt <> 0) by now apply route_equals_iff.
      contradiction.
    + apply route_equals_iff in E. split; [now left | lia].
Qed.

Lemma linked_weaken (E E' : Z -> Z -> Prop) p :
  (forall u v, E u v -> E' u v) -> linked E p -> linked E' p.
Proof.
  intros HE. induction p as [|a p IH]; simpl; [tauto|].
  destruct p as [|b p']; [tauto|]. intros [H1 H2]. split; auto.
Qed.

(** A route that avoids blocked pairs is a route of the whole network. *)
Lemma route_unblocked g blocked_a blocked_b blocked_count src dest p :
  route g blocked_a blocked_b blocked_count src dest p ->
  route g None None 0 src dest p.
Proof.
  intros [H1 [H2 [H3 H4]]]. repeat split; try assumption.
  revert H4. apply linked_weaken. intros u v [Ha _]. split; [exact Ha|].
  intros [ba [bb [b [Hn _]]]]. discriminate.
Qed.

(** The search returns, and a path it returns is a route. *)
Lemma shortest_path_cases g blocked_a blocked_b blocked_count src dest :
  station_id g src -> stationCount g <= MAX ->
  shortest_path g src dest blocked_a blocked_b blocked_count = Some NoRoute
  \/ exists p,
       shortest_path g src dest blocked_a blocked_b blocked_count = Some (Found p)
       /\ route g blocked_a blocked_b blocked_count src dest p.
Proof.
  intros Hsrc Hfit.
  destruct (shortest_path_walk g blocked_a blocked_b blocked_count src
              Hsrc Hfit dest) as [[p [E [Hw _]]] | [E _]].
  - right. exists p. split; [exact E | now apply walk_route].
  - now left.
Qed.

Lemma accepted_later g primary e e' alternates :
  e <= e' -> accepted g primary e alternates -> accepted g primary e' alternates.
Proof.
  intros He [H1 [H2 [H3 [es [H4 [H5 H6]]]]]].
  repeat split; try assumption. exists es. repeat split; try assumption.
  eapply Forall_impl; [|exact H5]. simpl. intros x Hx. lia.
Qed.

Lemma accepted_push g primary e alternates path :
  0 <= e -> accepted g primary e alternates ->
  Z.of_nat (List.length alternates) < MAX_ALTERNATES ->
  detour g primary e = Some (Found path) ->
  path <> primary -> ~ In path alternates ->
  accepted g primary (e + 1) (alternates ++ [path]).
Proof.
  intros He [H1 [H2 [H3 [es [H4 [H5 H6]]]]]] Hroom Hd Hp Hnew.
  repeat split.
  - rewrite length_app. simpl. lia.
  - apply NoDup_app; [exact H2 | constructor; [simpl; tauto | constructor] |].
    intros x Hx [<- | []]. contradiction.
  - intros Hin. apply in_app_or in Hin. destruct Hin as [Hin | [Hin | []]];
      [contradiction | congruence].
  - exists (es ++ [e]). repeat split.
    + apply sorted_snoc; [exact H4|]. rewrite Forall_forall in H5.
      intros x Hx. apply H5 in Hx. lia.
    + apply Forall_app. split.
      * eapply Forall_impl; [|exact H5]. simpl. intros x Hx. lia.
      * constructor; [lia | constructor].
    + apply Forall2_app; [exact H6 | constructor; [exact Hd | constructor]].
Qed.

Lemma alternates_loop_accepted g primary :
  station_id g (at_index primary 0) -> stationCount g <= MAX ->
  forall k e alternates,
    0 <= e -> accepted g primary e alternates ->
    exists alternates',
      alternates_loop g primary k e alternates = Some alternates'
      /\ accepted g primary (e + Z.of_nat k) alternates'.
Proof.
  intros Hsrc Hfit. induction k as [|k IH]; intros e alternates He Hacc.
  - exists alternates. split; [reflexivity|].
    eapply accepted_later; [|exact Hacc]. lia.
  - cbn [alternates_loop].
    destruct (Z.ltb_spec (Z.of_nat (List.length alternates)) MAX_ALTERNATES)
      as [Hroom | Hfull].
    2: { exists alternates. split; [reflexivity|].
         eapply accepted_later; [|exact Hacc]. lia. }
    assert (Hnext : forall a, accepted g primary (e + 1) a ->
              exists alternates',
                alternates_loop g primary k (e + 1) a = Some alternates'
                /\ accepted g primary (e + Z.of_nat (S k)) alternates').
    { intros a Ha. destruct (IH (e + 1) a) as [a' [E1 E2]]; [lia | exact Ha |].
      exists a'. split; [exact E1|].
      replace (e + Z.of_nat (S k)) with (e + 1 + Z.of_nat k) by lia. exact E2. }
    fold (detour g primary e).
    destruct (shortest_path_cases g (Some (fun _ : Z => at_index primary e))
                (Some (fun _ : Z => at_index primary (e + 1))) 1
                (at_index primary 0) (at_index primary (plen primary - 1))
                Hsrc Hfit) as [E | [path [E _]]]; fold (detour g primary e) in E;
      rewrite E.
    + apply Hnext. eapply accepted_later; [|exact Hacc]. lia.
    + destruct (Z.eqb_spec (route_equals path primary) 0) as [Hp | Hp]; simpl.
      * destruct (Z.eqb_spec (seen_before path alternates) 0) as [Hs | Hs].
        -- apply Hnext. apply accepted_push; try assumption.
           ++ intros ->. assert (H : route_equals primary primary <> 0)
                by now apply route_equals_iff. contradiction.
           ++ intros Hin. apply seen_before_iff in Hin. contradiction.
        -- apply Hnext. eapply accepted_later; [|exact Hacc]. lia.
      * apply Hnext. eapply accepted_later; [|exact Hacc]. lia.
Qed.

Lemma find_alternates_accepted g primary :
  station_id g (at_index primary 0) -> stationCount g <= MAX ->
  exists alternates,
    find_alternates g primary = Some alternates
    /\ accepted g primary (Z.max 0 (hops primary)) alternates.
Proof.
  intros Hsrc Hfit. unfold find_alternates.
  destruct (alternates_loop_accepted g primary Hsrc Hfit
              (Z.to_nat (plen primary - 1)) 0 []) as [a [E H]].
  - lia.
  - repeat split; [simpl; unfold MAX_ALTERNATES; lia | constructor | simpl; tauto |].
    exists []. repeat split; constructor.
  - exists a. split; [exact E|]. unfold hops. unfold plen in H.
    replace (Z.max 0 (Z.of_nat (List.length primary) - 1))
      with (0 + Z.of_nat (Z.to_nat (Z.of_nat (List.length primary) - 1))) by lia.
    exact H.
Qed.

Lemma Forall2_some_left {A B} (P : A -> B -> Prop) l1 l2 y :
  Forall2 P l1 l2 -> In y l2 -> exists x, In x l1 /\ P x y.
Proof.
  induction 1 as [|a b l1 l2 Hab H IH]; simpl; [tauto|].
  intros [<- | Hy].
  - exists a. split; [now left | exact Hab].
  - destruct (IH Hy) as [x [Hx Hp]]. exists x. split; [now right | exact Hp].
Qed.

(** Every accepted alternate is a route of the whole network between the
    ends of [primary]. *)
Lemma accepted_routes g primary e alternates alt :
  station_id g (at_index primary 0) -> stationCount g <= MAX ->
  accepted g primary e alternates -> In alt alternates ->
  route g None None 0 (at_index primary 0)
        (at_index primary (plen primary - 1)) alt.
Proof.
  intros Hsrc Hfit [_ [_ [_ [es [_ [_ H]]]]]] Hin.
  destruct (Forall2_some_left _ _ _ _ H Hin) as [x [_ Hx]].
  unfold detour in Hx.
  destruct (shortest_path_cases g (Some (fun _ : Z => at_index primary x))
              (Some (fun _ : Z => at_index primary (x + 1))) 1
              (at_index primary 0) (at_index primary (plen primary - 1))
              Hsrc Hfit) as [E | [p [E Hp]]]; rewrite E in Hx.
  - discriminate.
  - injection Hx as <-. eapply route_unblocked. exact Hp.
Qed.

(** C4. For a primary path of at least two edges over registered
    stations, [find_alternates] returns at most 3 routes between the ends
    of the primary path, no two of them the same sequence and none the
    primary path; they come in the order of the primary edges whose
    blocking produced them ([es] are the indices of those edges). *)
Theorem find_alternates_distinct g primary :
  Forall (station_id g) primary -> 2 <= hops primary ->
  stationCount g <= MAX ->
  exists alternates,
    find_alternates g primary = Some alternates
    /\ Z.of_nat (List.length alternates) <= 3
    /\ NoDup alternates
    /\ ~ In primary alternates
    /\ (forall alt, In alt alternates ->
          route g None None 0 (at_index primary 0)
                (at_index primary (plen primary - 1)) alt)
    /\ exists es,
         StronglySorted Z.lt es
         /\ Forall (fun e => 0 <= e < hops primary) es
         /\ Forall2 (fun e alt => detour g primary e = Some (Found alt))
                    es alternates.
Proof.
  intros Hids Hlen Hfit.
  assert (Hsrc : station_id g (at_index primary 0)).
  { destruct primary as [|a p]; [unfold hops in Hlen; simpl in Hlen; lia|].
    now inversion Hids. }
  destruct (find_alternates_accepted g primary Hsrc Hfit) as [a [E Ha]].
  exists a. split; [exact E|].
  pose proof Ha as [H1 [H2 [H3 [es [H4 [H5 H6]]]]]].
  split; [exact H1 | split; [exact H2 | split; [exact H3 | split]]].
  - intros alt Hin. eapply accepted_routes; eauto.
  - exists es. split; [exact H4 | split; [|exact H6]].
    eapply Forall_impl; [|exact H5]. simpl. intros x Hx. lia.
Qed.

(** C10. When the primary path is a route with the fewest hops between
    its ends, [find_alternates] returns and no alternate has fewer hops
    than the primary path. *)
Theorem alternates_not_shorter g primary :
  stationCount g <= MAX ->
  route g None None 0 (at_index primary 0)
        (at_index primary (plen primary - 1)) primary ->
  (forall p,
      route g None None 0 (at_index primary 0)
            (at_index primary (plen primary - 1)) p ->
      hops primary <= hops p) ->
  exists alternates,
    find_alternates g primary = Some alternates
    /\ forall alt, In alt alternates -> hops primary <= hops alt.
Proof.
  intros Hfit Hroute Hmin.
  assert (Hsrc : station_id g (at_index primary 0)).
  { destruct Hroute as [H1 [_ [H3 _]]].
    destruct primary as [|a p]; [discriminate | now inversion H3]. }
  destruct (find_alternates_accepted g primary Hsrc Hfit) as [a [E Ha]].
  exists a. split; [exact E|].
  intros alt Hin. apply Hmin. eapply accepted_routes; eauto.
Qed.

(** ** The adjacency matrix *)

Lemma connect_ids_keeps m a b :
  symmetric_irreflexive m -> symmetric_irreflexive (connect_ids m a b).
Proof.
  intros [Hsym Hirr]. unfold connect_ids.
  destruct ((a <? 0) || (b <? 0) || (a =? b)) eqn:E; [now split|].
  apply orb_false_iff in E. destruct E as [_ E]. apply Z.eqb_neq in E.
  split.
  - intros x y. unfold upd2.
    destruct (Z.eqb_spec x b), (Z.eqb_spec y a), (Z.eqb_spec y b),
      (Z.eqb_spec x a); simpl; subst; try reflexivity; try contradiction;
      apply Hsym.
  - intros x. unfold upd2.
    destruct (Z.eqb_spec x b), (Z.eqb_spec x a); simpl; subst;
      try contradiction; apply Hirr.
Qed.

Lemma connect_chain_keeps ids : forall m,
  symmetric_irreflexive m -> symmetric_irreflexive (connect_chain m ids).
Proof.
  induction ids as [|a t IH]; intros m Hm; simpl; [exact Hm|].
  destruct t as [|b t']; [exact Hm|].
  apply IH. now apply connect_ids_keeps.
Qed.

Lemma find_or_add_adj g key display planned g' id :
  find_or_add_by_key_with_plan g key display planned = Some (g', id) ->
  adj g' = adj g.
Proof.
  unfold find_or_add_by_key_with_plan.
  destruct (find_key _ _ _ _); [intros H; now injection H as <- _|].
  destruct (stationCount g <? MAX); [|discriminate].
  intros H. now injection H as <- _.
Qed.

Lemma add_line_tag_adj g id line g' :
  add_line_tag g id line = Some g' -> adj g' = adj g.
Proof.
  unfold add_line_tag. destruct (has_line _ _); [intros H; now injection H as <-|].
  destruct (_ <? _); [|discriminate]. intros H. now injection H as <-.
Qed.

Lemma register_line_adj lineName names flags : forall g i ids g' ids',
  register_line g lineName names flags i ids = Some (g', ids') ->
  adj g' = adj g.
Proof.
  induction names as [|raw rest IH]; intros g i ids g' ids'; simpl.
  - intros H. now injection H as <- _.
  - unfold register.
    destruct (find_or_add_by_key_with_plan _ _ _ _) as [[g1 id]|] eqn:E1;
      [|discriminate].
    destruct (i <? MAX); [|discriminate].
    destruct (add_line_tag g1 id lineName) as [g2|] eqn:E2; [|discriminate].
    intros H. apply IH in H. rewrite H.
    apply add_line_tag_adj in E2. apply find_or_add_adj in E1. congruence.
Qed.

Lemma add_line_with_plan_keeps g lineName names flags g' :
  add_line_with_plan g lineName names flags = Some g' ->
  symmetric_irreflexive (adj g) -> symmetric_irreflexive (adj g').
Proof.
  unfold add_line_with_plan.
  destruct (register_line _ _ _ _ _ _) as [[g1 ids]|] eqn:E; [|discriminate].
  intros H Hg. injection H as <-. simpl.
  apply connect_chain_keeps. apply register_line_adj in E. now rewrite E.
Qed.

Lemma build_network_returns g include_planned :
  exists g', build_network g include_planned = Some g'.
Proof.
  assert (H : match build_network g include_planned with
              | Some _ => true
              | None => false
              end = true) by (vm_compute; reflexivity).
  destruct (build_network g include_planned) as [g'|]; [eauto | discriminate].
Qed.

Lemma build_network_keeps g include_planned g' :
  build_network g include_planned = Some g' -> symmetric_irreflexive (adj g').
Proof.
  unfold build_network.
  destruct (add_line_with_plan _ "purple" purple _) as [g1|] eqn:E1; [|discriminate].
  destruct (add_line_with_plan g1 "green" green _) as [g2|] eqn:E2; [|discriminate].
  intros E.
  apply add_line_with_plan_keeps in E1; [|simpl; now split].
  apply add_line_with_plan_keeps in E2; [|exact E1].
  eapply add_line_with_plan_keeps; eauto.
Qed.

(** C7. Every build of the network ends with a matrix that is symmetric
    and has a zero diagonal, and every [connect_ids] call keeps a matrix
    so. *)
Theorem graph_symmetric_irreflexive :
  (forall g include_planned,
      exists g',
        build_network g include_planned = Some g'
        /\ symmetric_irreflexive (adj g'))
  /\ (forall m a b,
        symmetric_irreflexive m -> symmetric_irreflexive (connect_ids m a b)).
Proof.
  split; [|apply connect_ids_keeps].
  intros g ip. destruct (build_network_returns g ip) as [g' E].
  exists g'. split; [exact E | exact (build_network_keeps g ip g' E)].
Qed.

(** ** The registry *)

Lemma Some_eq {A} (x y : A) : Some x = Some y -> x = y.
Proof. intros H. now injection H. Qed.

Lemma strncpy_short n : forall s, (String.length s <= n)%nat -> strncpy n s = s.
Proof.
  induction n as [|n IH]; intros [|c r] H; simpl in *; try reflexivity; try lia.
  rewrite IH by lia. reflexivity.
Qed.

Lemma strncpy_length n : forall s, (String.length (strncpy n s) <= n)%nat.
Proof.
  induction n as [|n IH]; intros [|c r]; simpl; try lia.
  specialize (IH r). lia.
Qed.

Lemma normalize_inplace_length s : (String.length (normalize_inplace s) <= 79)%nat.
Proof. unfold normalize_inplace. apply strncpy_length. Qed.

Lemma has_line_iff ls line : has_line ls line = true <-> In line ls.
Proof.
  induction ls as [|l r IH]; simpl.
  - split; [discriminate | tauto].
  - destruct (String.eqb_spec l line) as [-> | Hne].
    + split; [now left | reflexivity].
    + rewrite IH. split; [now right | intros [H | H]; [contradiction | exact H]].
Qed.

(** The lookup sees only the keys of the table. *)
Lemma find_key_ext tbl tbl' key k : forall i,
  (forall j, key_name (tbl' j) = key_name (tbl j)) ->
  find_key tbl' key k i = find_key tbl key k i.
Proof.
  induction k as [|k IH]; intros i H; simpl; [reflexivity|].
  rewrite H. destruct (_ =? _)%string; [reflexivity | now apply IH].
Qed.



(** A key that is in the table is returned with the network unchanged. *)
Lemma find_or_add_known g key display planned id :
  find_key (stations g) key (Z.to_nat (stationCount g)) 0 = Some id ->
  find_or_add_by_key_with_plan g key display planned = Some (g, id).
Proof. unfold find_or_add_by_key_with_plan. now intros ->. Qed.



(** ** Registry capacity *)

(** With a full table and a key that is not in it, the function goes on
    to the store [stations[stationCount]] at index [MAX], one past the
    table: no test of the counter comes before it. *)
Lemma find_or_add_full g key display planned :
  stationCount g = MAX ->
  find_key (stations g) key (Z.to_nat (stationCount g)) 0 = None ->
  find_or_add_by_key_with_plan g key display planned = None.
Proof.
  intros Hfull Hnew. unfold find_or_add_by_key_with_plan.
  rewrite Hnew, Hfull. reflexivity.
Qed.

(** C6, the claim as first stated fails: 400 registrations of distinct
    names fill the table; a known name is still answered with its id; a
    new name takes the run to the store at [stations[400]], outside the
    table, where the model has no result. Nothing stops the build and
    nothing refuses the station. *)
Lemma register_past_capacity :
  option_map stationCount (register_many 400 0 initial_network) = Some MAX
  /\ option_map (fun g => option_map snd (register g "tt" 0))
                (register_many 400 0 initial_network) = Some (Some 399)
  /\ option_map (fun g => option_map snd (register g "zz" 0))
                (register_many 400 0 initial_network) = Some None.
Proof. vm_compute. repeat split. Qed.

Lemma find_key_range tbl key k : forall i id,
  find_key tbl key k i = Some id -> i <= id < i + Z.of_nat k.
Proof.
  induction k as [|k IH]; intros i id; cbn [find_key]; [discriminate|].
  destruct (_ =? _)%string.
  - intros H. apply Some_eq in H. lia.
  - intros H. apply IH in H. lia.
Qed.

Lemma build_network_count g include_planned :
  option_map stationCount (build_network g include_planned) = Some 82.
Proof. vm_compute. reflexivity. Qed.

(** C6 (as amended). While fewer than [MAX] = 400 stations are
    registered, a registration returns the id of a registered station and
    keeps the count within [MAX]; a key that is in the table is answered
    with its id at any count, the full table included; and every build of
    the program's network completes with 82 stations. *)
Theorem register_within_capacity :
  (forall g key display planned,
      0 <= stationCount g < MAX ->
      exists g' id,
        find_or_add_by_key_with_plan g key display planned = Some (g', id)
        /\ 0 <= id < stationCount g'
        /\ stationCount g <= stationCount g' <= MAX)
  /\ (forall g key display planned id,
        find_key (stations g) key (Z.to_nat (stationCount g)) 0 = Some id ->
        find_or_add_by_key_with_plan g key display planned = Some (g, id))
  /\ (forall g include_planned,
        exists g', build_network g include_planned = Some g'
                   /\ stationCount g' = 82).
Proof.
  split; [|split].
  - intros g key display planned Hc. unfold find_or_add_by_key_with_plan.
    destruct (find_key (stations g) key (Z.to_nat (stationCount g)) 0)
      as [i|] eqn:E.
    + apply find_key_range in E. exists g, i. split; [reflexivity | lia].
    + destruct (Z.ltb_spec (stationCount g) MAX) as [_ | H]; [|lia].
      eexists _, _. split; [reflexivity|]. simpl. lia.
  - intros g key display planned id. apply find_or_add_known.
  - intros g ip. pose proof (build_network_count g ip) as H.
    destruct (build_network g ip) as [g'|]; [|discriminate].
    exists g'. split; [reflexivity|]. simpl in H. now apply Some_eq in H.
Qed.

(** ** Built networks *)

Lemma find_or_add_id g key display planned g' id :
  0 <= stationCount g ->
  find_or_add_by_key_with_plan g key display planned = Some (g', id) ->
  0 <= id < stationCount g' /\ stationCount g <= stationCount g'.
Proof.
  intros Hc. unfold find_or_add_by_key_with_plan.
  destruct (find_key _ _ _ _) as [i|] eqn:E.
  - intros H. apply Some_eq in H. injection H as <- <-.
    apply find_key_range in E. lia.
  - destruct (stationCount g <? MAX); [|discriminate].
    intros H. apply Some_eq in H. injection H as <- <-. simpl. lia.
Qed.

Lemma add_line_tag_count g id line g' :
  add_line_tag g id line = Some g' -> stationCount g' = stationCount g.
Proof.
  unfold add_line_tag. destruct (has_line _ _); [intros H; apply Some_eq in H; now subst|].
  destruct (_ <? _); [|discriminate]. intros H. apply Some_eq in H. now subst.
Qed.

Lemma register_line_ids lineName names flags : forall g i ids g' ids',
  0 <= stationCount g ->
  Forall (fun id => 0 <= id < stationCount g) ids ->
  register_line g lineName names flags i ids = Some (g', ids') ->
  stationCount g <= stationCount g'
  /\ Forall (fun id => 0 <= id < stationCount g') ids'.
Proof.
  induction names as [|raw rest IH]; intros g i ids g' ids' Hc Hids;
    cbn [register_line].
  - intros H. apply Some_eq in H. injection H as <- <-. split; [lia | exact Hids].
  - unfold register.
    destruct (find_or_add_by_key_with_plan _ _ _ _) as [[g1 id]|] eqn:E1;
      [|discriminate].
    destruct (i <? MAX); [|discriminate].
    destruct (add_line_tag g1 id lineName) as [g2|] eqn:E2; [|discriminate].
    apply find_or_add_id in E1; [|exact Hc]. apply add_line_tag_count in E2.
    intros H. apply IH in H.
    + split; [lia | apply H].
    + lia.
    + apply Forall_app. split.
      * eapply Forall_impl; [|exact Hids]. simpl. intros x Hx. lia.
      * constructor; [lia | constructor].
Qed.

Lemma connect_ids_edges m a b u v :
  connect_ids m a b u v <> 0 ->
  m u v <> 0 \/ ((u = a \/ u = b) /\ (v = a \/ v = b)).
Proof.
  unfold connect_ids. destruct ((a <? 0) || (b <? 0) || (a =? b)); [now left|].
  unfold upd2.
  destruct (Z.eqb_spec u b), (Z.eqb_spec v a), (Z.eqb_spec u a), (Z.eqb_spec v b);
    simpl; subst; auto.
Qed.

Lemma connect_chain_edges ids : forall m u v,
  connect_chain m ids u v <> 0 -> m u v <> 0 \/ (In u ids /\ In v ids).
Proof.
  induction ids as [|a t IH]; intros m u v; simpl; [now left|].
  destruct t as [|b t']; [now left|].
  intros H. apply IH in H. destruct H as [H | [H1 H2]].
  - apply connect_ids_edges in H. simpl. intuition.
  - right. split; now right.
Qed.

Lemma add_line_with_plan_edges g lineName names flags g' :
  0 <= stationCount g -> edges_registered g ->
  add_line_with_plan g lineName names flags = Some g' ->
  0 <= stationCount g' /\ edges_registered g'.
Proof.
  intros Hc He. unfold add_line_with_plan.
  destruct (register_line _ _ _ _ _ _) as [[g1 ids]|] eqn:E; [|discriminate].
  intros H. apply Some_eq in H. subst g'.
  pose proof (register_line_adj _ _ _ _ _ _ _ _ E) as Hadj.
  apply register_line_ids in E; [|exact Hc | constructor].
  destruct E as [Hmono Hids]. rewrite Forall_forall in Hids.
  split; [simpl; lia|].
  intros u v. unfold station_id. simpl. intros Huv.
  apply connect_chain_edges in Huv. destruct Huv as [Huv | [Hu Hv]].
  - rewrite Hadj in Huv. apply He in Huv. unfold station_id in Huv. lia.
  - split; now apply Hids.
Qed.

(** Every build joins registered stations only. *)
Lemma build_network_edges_registered g include_planned g' :
  build_network g include_planned = Some g' -> edges_registered g'.
Proof.
  unfold build_network.
  destruct (add_line_with_plan _ "purple" purple _) as [g1|] eqn:E1; [|discriminate].
  destruct (add_line_with_plan g1 "green" green _) as [g2|] eqn:E2; [|discriminate].
  intros E3.
  apply add_line_with_plan_edges in E1;
    [|simpl; lia | intros u v H; simpl in H; contradiction].
  destruct E1 as [C1 R1].
  apply add_line_with_plan_edges in E2; [|exact C1 | exact R1].
  destruct E2 as [C2 R2].
  apply add_line_with_plan_edges in E3; [|exact C2 | exact R2].
  apply E3.
Qed.

(** Over such a matrix every sequence of open edges from a registered
    station is a route. *)
Lemma linked_route g blocked_a blocked_b blocked_count src p :
  edges_registered g -> station_id g src ->
  hd_error p = Some src ->
  linked (open_edge g blocked_a blocked_b blocked_count) p ->
  route g blocked_a blocked_b blocked_count src (last p src) p.
Proof.
  intros He Hsrc Hhd Hl. repeat split; try assumption.
  destruct p as [|a p]; [discriminate|]. simpl in Hhd. injection Hhd as ->.
  clear - He Hsrc Hl. revert src Hsrc Hl.
  induction p as [|b p IH]; intros a Ha Hl; constructor; try assumption.
  - constructor.
  - destruct Hl as [[Hab _] Hl]. apply IH; [|exact Hl]. now apply He in Hab.
Qed.

(** ** Name keys *)

(** C2, the code on the three spellings: the dotted and the fused
    spelling share the key ["mgroad"]; the spaced capitals get
    ["mg road"], since step 3 joins M and G and moves past the blank
    before ROAD, while in the other two it joins the G and the R. *)
Theorem normalize_mg_road :
  normalize_inplace "M.G. Road" = "mgroad"
  /\ normalize_inplace "mg road" = "mgroad"
  /\ normalize_inplace "M G ROAD" = "mg road"
  /\ normalize_inplace "M G ROAD" <> normalize_inplace "M.G. Road".
Proof. repeat split. vm_compute. discriminate. Qed.

(** C3, the code applied twice: on ["M G ROAD"], made of accepted
    characters only, the second application joins the G and the R that
    the first left apart, so the two results differ; the same on
    ["a b c"]. *)
Theorem normalize_twice_differs :
  accepted_chars "M G ROAD" = true
  /\ normalize_inplace "M G ROAD" = "mg road"
  /\ normalize_inplace (normalize_inplace "M G ROAD") = "mgroad"
  /\ accepted_chars "a b c" = true
  /\ normalize_inplace "a b c" = "ab c"
  /\ normalize_inplace (normalize_inplace "a b c") = "abc".
Proof. repeat split. Qed.

(** ** Line labels *)

Lemma match_line_existsb la lbs :
  match_line la lbs =
  if existsb (String.eqb la) lbs then Some (strncpy 29 la) else None.
Proof.
  induction lbs as [|lb rest IH]; simpl; [reflexivity|].
  destruct (la =? lb)%string; [reflexivity | exact IH].
Qed.

Lemma shared_line_first_common las lbs :
  (forall l, In l las -> (String.length l <= 29)%nat) ->
  shared_line las lbs = first_common las lbs.
Proof.
  unfold first_common. induction las as [|la rest IH]; intros Hfit;
    cbn [shared_line find]; [reflexivity|].
  rewrite match_line_existsb.
  destruct (existsb (String.eqb la) lbs).
  - rewrite strncpy_short; [reflexivity | apply Hfit; now left].
  - apply IH. intros l Hl. apply Hfit. now right.
Qed.

(** C9. Over stations whose line names fit their slots, the labels of
    a path are, pair by consecutive pair, the first line of the first
    station (in insertion order) that the second station has too, and
    ["unknown"] where the two share no line; there is one label for
    each pair, so the segmenter does not fail. *)
Theorem build_edge_lines_labels g path :
  lines_fit g ->
  build_edge_lines g path = map (common_line_or_unknown g) (consecutive path).
Proof.
  intros Hfit. induction path as [|a t IH]; [reflexivity|].
  destruct t as [|b t']; [reflexivity|].
  change (build_edge_lines g (a :: b :: t'))
    with (edge_line g a b :: build_edge_lines g (b :: t')).
  change (consecutive (a :: b :: t')) with ((a, b) :: consecutive (b :: t')).
  rewrite map_cons, <- IH. f_equal.
  unfold edge_line, common_line_or_unknown. cbn [fst snd].
  rewrite shared_line_first_common; [reflexivity | apply Hfit].
Qed.

(** The registry keeps every line name within its slot. *)
Lemma find_or_add_lines_fit g key display planned g' id :
  find_or_add_by_key_with_plan g key display planned = Some (g', id) ->
  lines_fit g -> lines_fit g'.
Proof.
  unfold find_or_add_by_key_with_plan.
  destruct (find_key _ _ _ _); [intros H; apply Some_eq in H; now inversion H|].
  destruct (stationCount g <? MAX); [|discriminate].
  intros H Hfit. apply Some_eq in H. inversion H; subst. clear H.
  intros j l. cbn [stations]. unfold upd.
  destruct (j =? stationCount g); [simpl; tauto | apply Hfit].
Qed.

Lemma add_line_tag_lines_fit g id line g' :
  add_line_tag g id line = Some g' -> lines_fit g -> lines_fit g'.
Proof.
  unfold add_line_tag. destruct (has_line _ _); [intros H; now apply Some_eq in H; subst|].
  destruct (_ <? _); [|discriminate].
  intros H Hfit. apply Some_eq in H. subst g'.
  intros j l. cbn [stations]. unfold upd.
  destruct (j =? id); [|apply Hfit]. cbn [lines]. intros Hin.
  apply in_app_or in Hin. destruct Hin as [Hin | [<- | []]].
  - now apply (Hfit id).
  - apply strncpy_length.
Qed.

Lemma register_line_lines_fit lineName names flags : forall g i ids g' ids',
  register_line g lineName names flags i ids = Some (g', ids') ->
  lines_fit g -> lines_fit g'.
Proof.
  induction names as [|raw rest IH]; intros g i ids g' ids'; cbn [register_line].
  - intros H. apply Some_eq in H. now inversion H.
  - unfold register.
    destruct (find_or_add_by_key_with_plan _ _ _ _) as [[g1 id]|] eqn:E1;
      [|discriminate].
    destruct (i <? MAX); [|discriminate].
    destruct (add_line_tag g1 id lineName) as [g2|] eqn:E2; [|discriminate].
    intros H Hfit. eapply IH; [exact H|].
    eapply add_line_tag_lines_fit; [exact E2|].
    eapply find_or_add_lines_fit; eauto.
Qed.

Lemma add_line_with_plan_lines_fit g lineName names flags g' :
  add_line_with_plan g lineName names flags = Some g' ->
  lines_fit g -> lines_fit g'.
Proof.
  unfold add_line_with_plan.
  destruct (register_line _ _ _ _ _ _) as [[g1 ids]|] eqn:E; [|discriminate].
  intros H Hfit. apply Some_eq in H. subst g'.
  intros j l. cbn [stations].
  eapply register_line_lines_fit; eauto.
Qed.

Lemma build_network_lines_fit g include_planned g' :
  build_network g include_planned = Some g' -> lines_fit g -> lines_fit g'.
Proof.
  unfold build_network.
  destruct (add_line_with_plan _ "purple" purple _) as [g1|] eqn:E1; [|discriminate].
  destruct (add_line_with_plan g1 "green" green _) as [g2|] eqn:E2; [|discriminate].
  intros E Hfit.
  eapply add_line_with_plan_lines_fit; [exact E|].
  eapply add_line_with_plan_lines_fit; [exact E2|].
  eapply add_line_with_plan_lines_fit; [exact E1|].
  intros j l. cbn [stations]. apply Hfit.
Qed.

(** ** The network of the program *)

Lemma metro_built : build_network initial_network 1 = Some metro.
Proof.
  unfold metro. destruct (build_network_returns initial_network 1) as [g' E].
  now rewrite E.
Qed.

Lemma metro_count : stationCount metro = 82.
Proof. vm_compute. reflexivity. Qed.

Lemma metro_lines_fit : lines_fit metro.
Proof.
  eapply build_network_lines_fit; [apply metro_built|].
  intros id l H. simpl in H. contradiction.
Qed.

Lemma metro_station id : 0 <= id < 82 -> station_id metro id.
Proof. unfold station_id. now rewrite metro_count. Qed.

Lemma metro_fits : stationCount metro <= MAX.
Proof. rewrite metro_count. unfold MAX. lia. Qed.

(** A path the search returns has the fewest hops. *)
Lemma found_fewest_hops g src dest p :
  station_id g src -> stationCount g <= MAX ->
  shortest_path g src dest None None 0 = Some (Found p) ->
  route g None None 0 src dest p
  /\ forall p', route g None None 0 src dest p' -> hops p <= hops p'.
Proof.
  intros Hsrc Hfit E.
  destruct (shortest_path_walk g None None 0 src Hsrc Hfit dest)
    as [[p0 [E0 [Hw Hmin]]] | [E0 _]]; rewrite E0 in E; [|discriminate].
  apply Some_eq in E. injection E as <-.
  split; [now apply walk_route|].
  intros p' Hp'. apply route_walk in Hp'. apply Hmin in Hp'.
  apply RouteOrderFacts.not_after_length in Hp'. unfold hops. lia.
Qed.

(** ** The theorems at concrete inputs *)

(** The search on the built network from Majestic (13) to M.G. Road (17). *)
Lemma purple_leg_found :
  shortest_path metro 13 17 None None 0 = Some (Found purple_leg).
Proof. vm_compute. reflexivity. Qed.

(** [shortest_path_correct] on the built network, Majestic to M.G. Road. *)
Lemma shortest_path_correct_witness :
  station_id metro 13 /\ stationCount metro <= MAX
  /\ (exists r, shortest_path metro 13 17 None None 0 = Some r)
  /\ (shortest_path metro 13 17 None None 0 = Some NoRoute
      <-> ~ exists p, route metro None None 0 13 17 p)
  /\ (forall p,
        shortest_path metro 13 17 None None 0 = Some (Found p) ->
        route metro None None 0 13 17 p
        /\ forall p', route metro None None 0 13 17 p' ->
             hops p <= hops p'
             /\ (hops p = hops p' -> p = p' \/ RouteOrder.lex_lt p p')).
Proof.
  split; [apply metro_station; lia|]. split; [apply metro_fits|].
  apply (shortest_path_correct metro None None 0 13 17);
    [apply metro_station; lia | apply metro_fits].
Defined.

(** [find_alternates_distinct] on the built network and the purple leg. *)
Lemma find_alternates_distinct_witness :
  Forall (station_id metro) purple_leg /\ 2 <= hops purple_leg
  /\ stationCount metro <= MAX
  /\ exists alternates,
       find_alternates metro purple_leg = Some alternates
       /\ Z.of_nat (List.length alternates) <= 3
       /\ NoDup alternates
       /\ ~ In purple_leg alternates
       /\ (forall alt, In alt alternates ->
             route metro None None 0 (at_index purple_leg 0)
                   (at_index purple_leg (plen purple_leg - 1)) alt)
       /\ exists es,
            StronglySorted Z.lt es
            /\ Forall (fun e => 0 <= e < hops purple_leg) es
            /\ Forall2 (fun e alt => detour metro purple_leg e = Some (Found alt))
                       es alternates.
Proof.
  assert (H1 : Forall (station_id metro) purple_leg)
    by (repeat constructor; apply metro_station; lia).
  assert (H2 : 2 <= hops purple_leg) by (vm_compute; discriminate).
  split; [exact H1|]. split; [exact H2|]. split; [apply metro_fits|].
  exact (find_alternates_distinct metro purple_leg H1 H2 metro_fits).
Defined.

(** [graph_symmetric_irreflexive] on the first edge of an empty matrix. *)
Lemma graph_symmetric_irreflexive_witness :
  symmetric_irreflexive (fun _ _ => 0)
  /\ symmetric_irreflexive (connect_ids (fun _ _ => 0) 1 2).
Proof.
  assert (H : symmetric_irreflexive (fun _ _ : Z => 0)) by (split; reflexivity).
  split; [exact H|].
  exact (proj2 graph_symmetric_irreflexive (fun _ _ => 0) 1 2 H).
Defined.

(** [shortest_path_self] at Majestic with its purple edge blocked. *)
Lemma shortest_path_self_witness :
  station_id metro 13
  /\ shortest_path metro 13 13 (Some (fun _ => 13)) (Some (fun _ => 14)) 1
     = Some (Found [13]).
Proof.
  assert (H : station_id metro 13) by (apply metro_station; lia).
  split; [exact H|].
  exact (shortest_path_self metro (Some (fun _ => 13)) (Some (fun _ => 14)) 1 13 H).
Defined.

(** [build_edge_lines_labels] across the change at M.G. Road. *)
Lemma build_edge_lines_labels_witness :
  lines_fit metro
  /\ build_edge_lines metro [16; 17; 75; 76]
     = map (common_line_or_unknown metro) (consecutive [16; 17; 75; 76]).
Proof.
  split; [exact metro_lines_fit|].
  exact (build_edge_lines_labels metro [16; 17; 75; 76] metro_lines_fit).
Defined.

(** [alternates_not_shorter] on the purple leg, a route with the fewest
    hops. *)
Lemma alternates_not_shorter_witness :
  stationCount metro <= MAX
  /\ route metro None None 0 (at_index purple_leg 0)
           (at_index purple_leg (plen purple_leg - 1)) purple_leg
  /\ (forall p,
        route metro None None 0 (at_index purple_leg 0)
              (at_index purple_leg (plen purple_leg - 1)) p ->
        hops purple_leg <= hops p)
  /\ exists alternates,
       find_alternates metro purple_leg = Some alternates
       /\ forall alt, In alt alternates -> hops purple_leg <= hops alt.
Proof.
  assert (Hs : station_id metro 13) by (apply metro_station; lia).
  destruct (found_fewest_hops metro 13 17 purple_leg Hs metro_fits
              purple_leg_found) as [Hr Hmin].
  change 13 with (at_index purple_leg 0) in Hr, Hmin.
  change 17 with (at_index purple_leg (plen purple_leg - 1)) in Hr, Hmin.
  split; [apply metro_fits|]. split; [exact Hr|]. split; [exact Hmin|].
  exact (alternates_not_shorter metro purple_leg metro_fits Hr Hmin).
Defined.

(** [register_within_capacity] on the first registration. *)
Lemma register_within_capacity_witness :
  0 <= stationCount initial_network < MAX
  /\ exists g' id,
       find_or_add_by_key_with_plan initial_network "majestic" "majestic" 0
         = Some (g', id)
       /\ 0 <= id < stationCount g'
       /\ stationCount initial_network <= stationCount g' <= MAX.
Proof.
  assert (H : 0 <= stationCount initial_network < MAX) by (vm_compute; split; [discriminate | reflexivity]).
  split; [exact H|].
  exact (proj1 register_within_capacity initial_network "majestic" "majestic" 0 H).
Defined.

(** ** Checks on small networks *)

Example one_line_end_to_end :
  option_map (fun g => shortest_path g 0 3 None None 0) one_line
  = Some (Some (Found [0; 1; 2; 3])).
Proof. vm_compute. reflexivity. Qed.

Example one_line_labels :
  option_map (fun g => build_edge_lines g [0; 1; 2; 3]) one_line
  = Some ["red"; "red"; "red"].
Proof. vm_compute. reflexivity. Qed.

Example two_lines_apart :
  option_map (fun g => shortest_path g 0 5 None None 0) two_lines
  = Some (Some NoRoute)
  /\ option_map (fun g => build_edge_lines g [3; 4]) two_lines
     = Some ["unknown"].
Proof. vm_compute. split; reflexivity. Qed.

(** Around the triangle Majestic, M.G. Road, Jayadeva Hospital: blocking
    any edge of the purple leg gives the one detour over the green and the
    pink line. *)
Example purple_leg_alternates :
  find_alternates metro purple_leg
  = Some [[13; 52; 53; 54; 55; 56; 57; 58; 59; 60; 70; 71; 72; 73; 74; 17]].
Proof. vm_compute. reflexivity. Qed.

(** ** Name keys: shape, case and punctuation *)

Ltac each_ascii c :=
  destruct c as [[|] [|] [|] [|] [|] [|] [|] [|]]; vm_compute; try reflexivity;
  try discriminate; try tauto.

Lemma isspace_tolower c : isspace (tolower c) = isspace c.
Proof. each_ascii c. Qed.

Lemma isalpha_tolower c : isalpha (tolower c) = isalpha c.
Proof. each_ascii c. Qed.

Lemma isalnum_tolower c : isalnum (tolower c) = isalnum c.
Proof. each_ascii c. Qed.

Lemma blank_tolower c : (tolower c =? " ")%char = (c =? " ")%char.
Proof. each_ascii c. Qed.

Lemma blank_isspace c : (c =? " ")%char = true -> isspace c = true.
Proof. each_ascii c. Qed.

Lemma blank_not_alnum c : (c =? " ")%char = true -> isalnum c = false.
Proof. each_ascii c. Qed.

Lemma space_not_alnum c : isspace c = true -> isalnum c = false.
Proof. each_ascii c. Qed.

Lemma alpha_not_blank c : isalpha c = true -> (c =? " ")%char = false.
Proof. each_ascii c. Qed.

Lemma alpha_alnum c : isalpha c = true -> isalnum c = true.
Proof. each_ascii c. Qed.

Lemma alnum_key_char c : isalnum c = true -> key_char (tolower c) = true.
Proof. each_ascii c. Qed.

Lemma blank_key_char c : (c =? " ")%char = true -> key_char (tolower c) = true.
Proof. each_ascii c. Qed.

Lemma string_length_ind (P : string -> Prop) :
  (forall t, (forall u, (String.length u < String.length t)%nat -> P u) -> P t) ->
  forall t, P t.
Proof.
  intros H t.
  assert (G : forall n u, (String.length u < n)%nat -> P u).
  { induction n as [|n IH]; intros u Hu; [lia|].
    apply H. intros v Hv. apply IH. lia. }
  apply (G (S (String.length t))). lia.
Qed.

(** The unfolding of step 3. *)
Lemma fuse_joined a c r :
  isalpha a = true -> isalpha c = true ->
  Normalize.fuse (String a (String " " (String c r)))
  = String a (String c (Normalize.fuse r)).
Proof. intros Ha Hc. cbn [Normalize.fuse]. rewrite Ha, Hc. reflexivity. Qed.

Lemma fuse_cases t :
  (exists a c r, t = String a (String " " (String c r))
                 /\ isalpha a = true /\ isalpha c = true
                 /\ Normalize.fuse t = String a (String c (Normalize.fuse r)))
  \/ (exists a t', t = String a t'
                   /\ Normalize.fuse t = String a (Normalize.fuse t'))
  \/ (t = EmptyString /\ Normalize.fuse t = EmptyString).
Proof.
  destruct t as [|a t']; [right; right; now split|].
  destruct t' as [|b [|c r]].
  - right; left. exists a, EmptyString. now split.
  - right; left. exists a, (String b EmptyString). now split.
  - destruct (isalpha a && (b =? " ")%char && isalpha c) eqn:E.
    + apply andb_true_iff in E. destruct E as [E Hc].
      apply andb_true_iff in E. destruct E as [Ha Hb].
      apply Ascii.eqb_eq in Hb. subst b.
      left. exists a, c, r. repeat split; try assumption.
      now apply fuse_joined.
    + right; left. exists a, (String b (String c r)). split; [reflexivity|].
      cbn [Normalize.fuse]. now rewrite E.
Qed.

(** *** The steps and [lowercase] *)

Lemma skip_spaces_lower t :
  Normalize.skip_spaces (lowercase t) = lowercase (Normalize.skip_spaces t).
Proof.
  induction t as [|c r IH]; simpl; [reflexivity|].
  rewrite isspace_tolower. destruct (isspace c); [exact IH | reflexivity].
Qed.

Lemma collapse_lower t : forall b,
  Normalize.collapse b (lowercase t) = lowercase (Normalize.collapse b t).
Proof.
  induction t as [|c r IH]; intros b; simpl; [reflexivity|].
  rewrite isspace_tolower. destruct (isspace c).
  - destruct b; [apply IH | simpl; now rewrite IH].
  - simpl. now rewrite IH.
Qed.

Lemma drop_trailing_space_cons c d r :
  Normalize.drop_trailing_space (String c (String d r))
  = String c (Normalize.drop_trailing_space (String d r)).
Proof. reflexivity. Qed.

Lemma drop_trailing_space_lower t :
  Normalize.drop_trailing_space (lowercase t)
  = lowercase (Normalize.drop_trailing_space t).
Proof.
  induction t as [|c r IH]; [reflexivity|].
  destruct r as [|d r'].
  - simpl. rewrite blank_tolower. destruct (c =? " ")%char; reflexivity.
  - rewrite drop_trailing_space_cons.
    change (lowercase (String c (String d r')))
      with (String (tolower c) (String (tolower d) (lowercase r'))).
    rewrite drop_trailing_space_cons.
    change (String (tolower d) (lowercase r')) with (lowercase (String d r')).
    rewrite IH. reflexivity.
Qed.

Lemma fuse_step a t :
  Normalize.fuse (String a t)
  = if fusible a t then
      match t with
      | String _ (String c r) => String a (String c (Normalize.fuse r))
      | _ => String a (Normalize.fuse t)
      end
    else String a (Normalize.fuse t).
Proof.
  destruct t as [|b [|c r]]; reflexivity.
Qed.

Lemma fusible_lower a t : fusible (tolower a) (lowercase t) = fusible a t.
Proof.
  destruct t as [|b [|c r]]; try reflexivity.
  cbn [lowercase fusible]. now rewrite !isalpha_tolower, blank_tolower.
Qed.

Lemma fuse_lower : forall t,
  Normalize.fuse (lowercase t) = lowercase (Normalize.fuse t).
Proof.
  apply (string_length_ind (fun t => Normalize.fuse (lowercase t)
                                     = lowercase (Normalize.fuse t))).
  intros t IH.
  destruct t as [|a t']; [reflexivity|].
  change (lowercase (String a t')) with (String (tolower a) (lowercase t')).
  rewrite !fuse_step, fusible_lower.
  destruct (fusible a t').
  - destruct t' as [|b [|c r]].
    + reflexivity.
    + reflexivity.
    + cbn [lowercase]. rewrite IH by (simpl; lia). reflexivity.
  - cbn [lowercase]. rewrite IH by (simpl; lia). reflexivity.
Qed.

Lemma normalize_inplace_lower s :
  normalize_inplace s
  = strncpy 79
      (Normalize.fuse
         (Normalize.drop_trailing_space
            (Normalize.collapse false
               (Normalize.skip_spaces
                  (lowercase (Normalize.keep_alnum_space s)))))).
Proof.
  unfold normalize_inplace.
  now rewrite skip_spaces_lower, collapse_lower, drop_trailing_space_lower,
    fuse_lower.
Qed.

(** X1. Two names that are the same once the characters other than
    letters, digits and white space are dropped and the capitals are
    lowered have the same key. *)
Theorem normalize_ignores_case_and_punctuation s1 s2 :
  lowercase (Normalize.keep_alnum_space s1)
  = lowercase (Normalize.keep_alnum_space s2) ->
  normalize_inplace s1 = normalize_inplace s2.
Proof. intros H. rewrite !normalize_inplace_lower. now rewrite H. Qed.

(** *** The empty key *)

Lemma has_alnum_keep s : has_alnum (Normalize.keep_alnum_space s) = has_alnum s.
Proof.
  induction s as [|c r IH]; simpl; [reflexivity|].
  destruct (isalnum c) eqn:Ha; simpl; [now rewrite Ha|].
  destruct (isspace c); simpl; [rewrite Ha|]; exact IH.
Qed.

Lemma has_alnum_skip t : has_alnum (Normalize.skip_spaces t) = has_alnum t.
Proof.
  induction t as [|c r IH]; simpl; [reflexivity|].
  destruct (isspace c) eqn:Hs; [|reflexivity].
  rewrite (space_not_alnum c Hs). exact IH.
Qed.

Lemma has_alnum_collapse t : forall b,
  has_alnum (Normalize.collapse b t) = has_alnum t.
Proof.
  induction t as [|c r IH]; intros b; simpl; [reflexivity|].
  destruct (isspace c) eqn:Hs.
  - rewrite (space_not_alnum c Hs). destruct b; simpl; apply IH.
  - simpl. now rewrite IH.
Qed.

Lemma has_alnum_drop t :
  has_alnum (Normalize.drop_trailing_space t) = has_alnum t.
Proof.
  induction t as [|c r IH]; [reflexivity|].
  destruct r as [|d r'].
  - simpl. destruct (c =? " ")%char eqn:Hb; [|reflexivity].
    simpl. now rewrite (blank_not_alnum c Hb).
  - rewrite drop_trailing_space_cons.
    change (has_alnum (String c (String d r')))
      with (isalnum c || has_alnum (String d r')).
    rewrite <- IH. reflexivity.
Qed.

Lemma has_alnum_fuse : forall t, has_alnum (Normalize.fuse t) = has_alnum t.
Proof.
  apply (string_length_ind (fun t => has_alnum (Normalize.fuse t) = has_alnum t)).
  intros t IH.
  destruct (fuse_cases t) as [[a [c [r [-> [Ha [Hc ->]]]]]] | [[a [t' [-> ->]]] | [-> ->]]].
  - cbn [has_alnum]. rewrite IH by (simpl; lia).
    assert (isalnum " " = false) by reflexivity. now rewrite H.
  - cbn [has_alnum]. now rewrite IH by (simpl; lia).
  - reflexivity.
Qed.

Lemma has_alnum_lowercase t : has_alnum (lowercase t) = has_alnum t.
Proof.
  induction t as [|c r IH]; simpl; [reflexivity|].
  now rewrite isalnum_tolower, IH.
Qed.

Lemma has_alnum_nonempty t : has_alnum t = true -> t <> EmptyString.
Proof. destruct t; [discriminate | intros _; discriminate]. Qed.

Lemma strncpy_empty_iff n t : strncpy (S n) t = EmptyString <-> t = EmptyString.
Proof. destruct t; simpl; split; intros H; try reflexivity; discriminate. Qed.

Lemma skip_all_spaces t :
  forall_chars (fun c => isalnum c || isspace c) t = true ->
  has_alnum t = false -> Normalize.skip_spaces t = EmptyString.
Proof.
  induction t as [|c r IH]; simpl; [reflexivity|].
  intros H1 H2. apply andb_true_iff in H1. destruct H1 as [Hc Hr].
  apply orb_false_iff in H2. destruct H2 as [Ha Hn].
  rewrite Ha in Hc. simpl in Hc. rewrite Hc. now apply IH.
Qed.

Lemma keep_chars s :
  forall_chars (fun c => isalnum c || isspace c) (Normalize.keep_alnum_space s)
  = true.
Proof.
  induction s as [|c r IH]; simpl; [reflexivity|].
  destruct (isalnum c || isspace c) eqn:E; [simpl; now rewrite E | exact IH].
Qed.

(** X2. The key is empty exactly when the name has no letter and no
    digit. *)
Theorem normalize_empty_iff s :
  normalize_inplace s = EmptyString <-> has_alnum s = false.
Proof.
  unfold normalize_inplace. rewrite strncpy_empty_iff. split.
  - intros H. destruct (has_alnum s) eqn:E; [|reflexivity].
    exfalso. revert H. apply has_alnum_nonempty.
    now rewrite has_alnum_lowercase, has_alnum_fuse, has_alnum_drop,
      has_alnum_collapse, has_alnum_skip, has_alnum_keep.
  - intros H. rewrite skip_all_spaces; [reflexivity | apply keep_chars |].
    now rewrite has_alnum_keep.
Qed.

(** *** The shape of a key *)

Lemma alnum_or_blank c :
  (isalnum c || isspace c) = true -> isspace c = false ->
  (isalnum c || (c =? " ")%char) = true /\ (c =? " ")%char = false.
Proof. each_ascii c. Qed.

Lemma skip_spaces_shape t :
  forall_chars (fun c => isalnum c || isspace c) t = true ->
  forall_chars (fun c => isalnum c || isspace c) (Normalize.skip_spaces t) = true
  /\ starts_space (Normalize.skip_spaces t) = false
  /\ (String.length (Normalize.skip_spaces t) <= String.length t)%nat.
Proof.
  induction t as [|c r IH]; simpl; [auto|].
  intros H. apply andb_true_iff in H. destruct H as [Hc Hr].
  destruct (isspace c) eqn:Hs.
  - destruct (IH Hr) as [H1 [H2 H3]]. repeat split; auto.
  - cbn [forall_chars starts_space String.length]. rewrite Hs, Hr.
    rewrite orb_false_r in *. rewrite Hc. auto.
Qed.

Lemma collapse_shape t : forall b,
  forall_chars (fun c => isalnum c || isspace c) t = true ->
  forall_chars (fun c => isalnum c || (c =? " ")%char) (Normalize.collapse b t)
  = true
  /\ single_blanks b (Normalize.collapse b t) = true
  /\ (String.length (Normalize.collapse b t) <= String.length t)%nat.
Proof.
  induction t as [|c r IH]; intros b; simpl; [auto|].
  intros H. apply andb_true_iff in H. destruct H as [Hc Hr].
  case_eq (isspace c); intros Hs.
  - destruct (IH true Hr) as [H1 [H2 H3]].
    destruct b; simpl; [repeat split; auto | rewrite H1, H2; repeat split; auto].
    lia.
  - destruct (IH false Hr) as [H1 [H2 H3]].
    destruct (alnum_or_blank c Hc Hs) as [Hk Hb].
    simpl. rewrite Hk, Hb, H1, H2. repeat split; auto. lia.
Qed.

Lemma collapse_first t :
  forall_chars (fun c => isalnum c || isspace c) t = true ->
  starts_space t = false ->
  single_blanks true (Normalize.collapse false t) = true.
Proof.
  destruct t as [|c r]; simpl; [reflexivity|].
  intros H Hs. apply andb_true_iff in H. destruct H as [Hc Hr].
  rewrite Hs at 1.
  destruct (alnum_or_blank c Hc Hs) as [_ Hb]. simpl. rewrite Hb.
  apply (collapse_shape r false Hr).
Qed.

Lemma single_blanks_tail prev c r :
  single_blanks prev (String c r) = true ->
  single_blanks (c =? " ")%char r = true.
Proof.
  simpl. destruct (c =? " ")%char; [|auto].
  intros H. apply andb_true_iff in H. apply H.
Qed.

Lemma forall_chars_cons p c r :
  forall_chars p (String c r) = p c && forall_chars p r.
Proof. reflexivity. Qed.

Lemma single_blanks_cons prev c r :
  single_blanks prev (String c r)
  = if (c =? " ")%char then negb prev && single_blanks true r
    else single_blanks false r.
Proof. reflexivity. Qed.

Lemma ends_blank_cons c t :
  ends_blank (String c t)
  = match t with EmptyString => (c =? " ")%char | _ => ends_blank t end.
Proof. destruct t; reflexivity. Qed.

Lemma single_blanks_push prev c t :
  single_blanks prev (String c EmptyString) = true ->
  single_blanks (c =? " ")%char t = true ->
  single_blanks prev (String c t) = true.
Proof.
  rewrite !single_blanks_cons. destruct (c =? " ")%char; [|auto].
  intros H Ht. apply andb_true_iff in H. destruct H as [Hn _].
  now rewrite Hn, Ht.
Qed.

Lemma single_blanks_head prev c r :
  single_blanks prev (String c r) = true ->
  single_blanks prev (String c EmptyString) = true.
Proof.
  rewrite !single_blanks_cons. destruct (c =? " ")%char; [|auto].
  intros H. apply andb_true_iff in H. destruct H as [Hn _]. now rewrite Hn.
Qed.

Lemma ends_blank_push c t :
  t <> EmptyString -> ends_blank t = false -> ends_blank (String c t) = false.
Proof. intros Hn H. rewrite ends_blank_cons. destruct t; [contradiction | exact H]. Qed.

Lemma ends_blank_tail c t :
  t <> EmptyString -> ends_blank (String c t) = false -> ends_blank t = false.
Proof. intros Hn H. rewrite ends_blank_cons in H. destruct t; [contradiction | exact H]. Qed.

Lemma drop_trailing_space_single prev d r :
  single_blanks prev (String d r) = true -> prev = true \/ r <> EmptyString ->
  Normalize.drop_trailing_space (String d r) <> EmptyString.
Proof.
  destruct r as [|e r']; [|intros _ _; rewrite drop_trailing_space_cons; discriminate].
  intros H [-> | Hn]; [|contradiction]. rewrite single_blanks_cons in H.
  simpl. destruct (d =? " ")%char; [discriminate H | discriminate].
Qed.

Lemma drop_trailing_space_shape p t : forall prev,
  forall_chars p t = true -> single_blanks prev t = true ->
  forall_chars p (Normalize.drop_trailing_space t) = true
  /\ single_blanks prev (Normalize.drop_trailing_space t) = true
  /\ ends_blank (Normalize.drop_trailing_space t) = false
  /\ (String.length (Normalize.drop_trailing_space t) <= String.length t)%nat.
Proof.
  induction t as [|c r IH]; intros prev Hp Hs; [simpl; auto|].
  destruct r as [|d r'].
  - simpl. destruct (c =? " ")%char eqn:Hb; simpl; [auto|].
    simpl in Hp, Hs. rewrite Hb in *. rewrite Hp. auto.
  - rewrite drop_trailing_space_cons.
    pose proof (single_blanks_tail _ _ _ Hs) as Hs'.
    rewrite forall_chars_cons in Hp.
    apply andb_true_iff in Hp. destruct Hp as [Hc Hr].
    destruct (IH _ Hr Hs') as [H1 [H2 [H3 H4]]].
    split; [rewrite forall_chars_cons; now rewrite Hc, H1|]. split; [|split].
    + apply single_blanks_push; [exact (single_blanks_head _ _ _ Hs) | exact H2].
    + destruct (c =? " ")%char eqn:Hb.
      * apply ends_blank_push; [|exact H3].
        apply (drop_trailing_space_single true); [exact Hs' | now left].
      * rewrite ends_blank_cons.
        destruct (Normalize.drop_trailing_space (String d r'));
          [exact Hb | exact H3].
    + cbn [String.length] in *. lia.
Qed.

Lemma fuse_empty t : Normalize.fuse t = EmptyString -> t = EmptyString.
Proof.
  destruct t as [|a t]; [reflexivity|]. rewrite fuse_step.
  destruct (fusible a t); [destruct t as [|b [|c r]]|]; discriminate.
Qed.

Lemma fuse_nonempty t : t <> EmptyString -> Normalize.fuse t <> EmptyString.
Proof. intros Hn E. now apply fuse_empty in E. Qed.

Lemma fuse_shape p : forall t prev,
  forall_chars p t = true -> single_blanks prev t = true ->
  ends_blank t = false ->
  key_shape p prev t (Normalize.fuse t).
Proof.
  apply (string_length_ind
           (fun t => forall prev,
                forall_chars p t = true -> single_blanks prev t = true ->
                ends_blank t = false ->
                key_shape p prev t (Normalize.fuse t))).
  intros t IH prev Hp Hs He.
  destruct t as [|a t']; [repeat split; auto|].
  rewrite fuse_step.
  assert (Hplain : key_shape p prev (String a t') (String a (Normalize.fuse t'))).
  { pose proof (single_blanks_tail _ _ _ Hs) as Hs'.
    rewrite forall_chars_cons in Hp.
    apply andb_true_iff in Hp. destruct Hp as [Ha Hr].
    destruct t' as [|b t''].
    - repeat split; auto. rewrite forall_chars_cons, Ha. reflexivity.
    - assert (Hne : String b t'' <> EmptyString) by discriminate.
      destruct (IH (String b t'') ltac:(cbn [String.length]; lia) _ Hr Hs'
                  (ends_blank_tail _ _ Hne He)) as [H1 [H2 [H3 H4]]].
      split; [rewrite forall_chars_cons; now rewrite Ha, H1|]. split; [|split].
      + apply single_blanks_push; [exact (single_blanks_head _ _ _ Hs) | exact H2].
      + apply ends_blank_push; [now apply fuse_nonempty | exact H3].
      + cbn [String.length] in *. lia. }
  destruct (fusible a t') eqn:Hf; [|exact Hplain].
  destruct t' as [|b [|c r]]; try exact Hplain.
  cbn [fusible] in Hf. apply andb_true_iff in Hf. destruct Hf as [Hf Hc].
  apply andb_true_iff in Hf. destruct Hf as [Ha Hb].
  pose proof (alpha_not_blank a Ha) as Hna. pose proof (alpha_not_blank c Hc) as Hnc.
  rewrite !forall_chars_cons in Hp.
  apply andb_true_iff in Hp. destruct Hp as [Hpa Hp].
  apply andb_true_iff in Hp. destruct Hp as [_ Hp].
  apply andb_true_iff in Hp. destruct Hp as [Hpc Hpr].
  rewrite !single_blanks_cons in Hs. rewrite Hna, Hb, Hnc in Hs. cbn [negb andb] in Hs.
  destruct r as [|d r'].
  - repeat split.
    + rewrite !forall_chars_cons, Hpa, Hpc. reflexivity.
    + rewrite !single_blanks_cons, Hna, Hnc. reflexivity.
    + rewrite !ends_blank_cons. exact Hnc.
    + cbn [Normalize.fuse String.length]. lia.
  - assert (Hne : String d r' <> EmptyString) by discriminate.
    assert (He' : ends_blank (String d r') = false).
    { apply (ends_blank_tail c); [exact Hne|].
      apply (ends_blank_tail b); [discriminate|].
      apply (ends_blank_tail a); [discriminate | exact He]. }
    destruct (IH (String d r') ltac:(cbn [String.length]; lia) false Hpr Hs He')
      as [H1 [H2 [H3 H4]]].
    split; [rewrite !forall_chars_cons; now rewrite Hpa, Hpc, H1|].
    split; [|split].
    + rewrite !single_blanks_cons, Hna, Hnc. exact H2.
    + apply ends_blank_push; [discriminate|].
      apply ends_blank_push; [now apply fuse_nonempty | exact H3].
    + cbn [String.length] in *. lia.
Qed.

Lemma lowercase_shape t : forall prev,
  forall_chars (fun c => isalnum c || (c =? " ")%char) t = true ->
  forall_chars key_char (lowercase t) = true
  /\ single_blanks prev (lowercase t) = single_blanks prev t
  /\ ends_blank (lowercase t) = ends_blank t
  /\ String.length (lowercase t) = String.length t.
Proof.
  induction t as [|c r IH]; intros prev H; [simpl; auto|].
  simpl in H. apply andb_true_iff in H. destruct H as [Hc Hr].
  destruct (IH true Hr) as [H1 [H2 [H3 H4]]].
  destruct (IH false Hr) as [_ [H2' _]].
  split; [|split; [|split]].
  - simpl. rewrite H1. apply orb_true_iff in Hc.
    destruct Hc as [Hc | Hc];
      [rewrite (alnum_key_char c Hc) | rewrite (blank_key_char c Hc)]; reflexivity.
  - simpl. rewrite blank_tolower, H2, H2'. reflexivity.
  - change (lowercase (String c r)) with (String (tolower c) (lowercase r)).
    rewrite !ends_blank_cons, blank_tolower, H3.
    destruct r; reflexivity.
  - simpl. now rewrite H4.
Qed.

(** X3. The key of a name of at most 79 characters is made of lower-case
    letters, digits and blanks, has no blank at its start, at its end or
    next to another blank, and is no longer than the name. *)
Theorem normalize_key_shape s :
  (String.length s <= 79)%nat ->
  forall_chars key_char (normalize_inplace s) = true
  /\ single_blanks true (normalize_inplace s) = true
  /\ ends_blank (normalize_inplace s) = false
  /\ (String.length (normalize_inplace s) <= String.length s)%nat.
Proof.
  intros Hlen. unfold normalize_inplace.
  pose proof (keep_chars s) as K.
  assert (Klen : (String.length (Normalize.keep_alnum_space s)
                  <= String.length s)%nat).
  { clear. induction s as [|c r IH]; simpl; [lia|].
    destruct (isalnum c || isspace c); simpl; lia. }
  destruct (skip_spaces_shape _ K) as [S1 [S2 S3]].
  destruct (collapse_shape _ false S1) as [C1 [_ C3]].
  pose proof (collapse_first _ S1 S2) as C2.
  destruct (drop_trailing_space_shape _ _ true C1 C2) as [D1 [D2 [D3 D4]]].
  destruct (fuse_shape _ _ true D1 D2 D3) as [F1 [F2 [F3 F4]]].
  destruct (lowercase_shape _ true F1) as [L1 [L2 [L3 L4]]].
  rewrite strncpy_short by lia.
  rewrite L2, L3. repeat split; try assumption. lia.
Qed.

(** ** The registry: distinct keys, growth, lookups *)

Lemma find_key_none tbl key k : forall i,
  find_key tbl key k i = None ->
  forall j, i <= j < i + Z.of_nat k -> key_name (tbl j) <> key.
Proof.
  induction k as [|k IH]; intros i H j Hj; [lia|].
  cbn [find_key] in H.
  destruct (String.eqb_spec (key_name (tbl i)) key) as [E | E]; [discriminate|].
  destruct (Z.eq_dec j i) as [-> | Hne]; [exact E|].
  apply (IH (i + 1) H). lia.
Qed.

Lemma find_key_some tbl key k : forall i id,
  find_key tbl key k i = Some id ->
  key_name (tbl id) = key
  /\ forall j, i <= j < id -> key_name (tbl j) <> key.
Proof.
  induction k as [|k IH]; intros i id; cbn [find_key]; [discriminate|].
  destruct (String.eqb_spec (key_name (tbl i)) key) as [E | E].
  - intros H. apply Some_eq in H. subst id. split; [exact E | intros j Hj; lia].
  - intros H. destruct (IH _ _ H) as [H1 H2]. split; [exact H1|].
    intros j Hj. destruct (Z.eq_dec j i) as [-> | Hne]; [exact E|].
    apply H2. lia.
Qed.

Lemma find_key_complete tbl key k : forall i j,
  i <= j < i + Z.of_nat k -> key_name (tbl j) = key ->
  exists id, find_key tbl key k i = Some id.
Proof.
  intros i j Hj E.
  destruct (find_key tbl key k i) as [id|] eqn:F; [eauto|].
  exfalso. exact (find_key_none _ _ _ _ F j Hj E).
Qed.

(** With distinct keys the lookup returns the one station of a key. *)
Lemma id_of_key_unique g key j :
  keys_distinct g -> station_id g j -> key_name (stations g j) = key ->
  id_of_key g key = j.
Proof.
  intros Hd Hj E. unfold id_of_key.
  destruct (find_key_complete (stations g) key (Z.to_nat (stationCount g)) 0 j)
    as [id F]; [unfold station_id in Hj; lia | exact E |].
  rewrite F. pose proof (find_key_range _ _ _ _ _ F) as R.
  destruct (find_key_some _ _ _ _ _ F) as [K _].
  apply Hd; [unfold station_id; lia | exact Hj | congruence].
Qed.

Lemma id_of_key_cases g key :
  (id_of_key g key = -1
   /\ forall j, station_id g j -> key_name (stations g j) <> key)
  \/ (station_id g (id_of_key g key)
      /\ key_name (stations g (id_of_key g key)) = key).
Proof.
  unfold id_of_key.
  destruct (find_key (stations g) key (Z.to_nat (stationCount g)) 0)
    as [id|] eqn:F.
  - right. pose proof (find_key_range _ _ _ _ _ F) as R.
    destruct (find_key_some _ _ _ _ _ F) as [K _].
    split; [unfold station_id; lia | exact K].
  - left. split; [reflexivity|]. intros j Hj.
    apply (find_key_none _ _ _ _ F). unfold station_id in Hj. lia.
Qed.

(** *** One registration *)

Lemma find_or_add_stations g key display planned g' id :
  find_or_add_by_key_with_plan g key display planned = Some (g', id) ->
  (g' = g /\ find_key (stations g) key (Z.to_nat (stationCount g)) 0 = Some id)
  \/ (find_key (stations g) key (Z.to_nat (stationCount g)) 0 = None
      /\ id = stationCount g /\ stationCount g < MAX
      /\ stationCount g' = stationCount g + 1
      /\ adj g' = adj g
      /\ stations g' id
         = mkStation (trim_display display) (strncpy 79 key) [] planned
      /\ forall j, j <> id -> stations g' j = stations g j).
Proof.
  unfold find_or_add_by_key_with_plan.
  destruct (find_key _ _ _ _) as [i|] eqn:E.
  - intros H. apply Some_eq in H. injection H as <- <-. now left.
  - destruct (Z.ltb_spec (stationCount g) MAX) as [Hlt | _]; [|discriminate].
    intros H. apply Some_eq in H. injection H as <- <-. right.
    cbn [stations stationCount adj]. rewrite upd_same.
    repeat split; try reflexivity; try assumption.
    intros j Hj. now apply upd_other.
Qed.

Lemma find_or_add_extends g key display planned g' id :
  find_or_add_by_key_with_plan g key display planned = Some (g', id) ->
  extends g g'.
Proof.
  intros H. apply find_or_add_stations in H.
  destruct H as [[-> _] | [_ [Hid [_ [Hc [_ [_ Hother]]]]]]].
  - split; [lia|]. intros j _. repeat split. exists []. now rewrite app_nil_r.
  - split; [lia|]. intros j Hj. unfold station_id in Hj.
    rewrite Hother by lia. repeat split. exists []. now rewrite app_nil_r.
Qed.

Lemma find_or_add_distinct g key display planned g' id :
  0 <= stationCount g -> strncpy 79 key = key -> keys_distinct g ->
  find_or_add_by_key_with_plan g key display planned = Some (g', id) ->
  keys_distinct g'.
Proof.
  intros Hc Hkey Hd H. apply find_or_add_stations in H.
  destruct H as [[-> _] | [Hnone [Hid [_ [Hc' [_ [Hnew Hother]]]]]]];
    [exact Hd|].
  assert (Hfresh : forall j, station_id g j -> key_name (stations g j) <> key).
  { intros j Hj. apply (find_key_none _ _ _ _ Hnone). unfold station_id in Hj. lia. }
  intros i j Hi Hj. unfold station_id in Hi, Hj. rewrite Hc' in Hi, Hj.
  destruct (Z.eq_dec i id) as [Ei | Ei], (Z.eq_dec j id) as [Ej | Ej];
    subst; try congruence.
  - rewrite Hnew, (Hother j Ej). cbn [key_name]. rewrite Hkey.
    intros E. exfalso. apply (Hfresh j); [unfold station_id; lia | now symmetry].
  - rewrite Hnew, (Hother i Ei). cbn [key_name]. rewrite Hkey.
    intros E. exfalso. apply (Hfresh i); [unfold station_id; lia | exact E].
  - rewrite (Hother i Ei), (Hother j Ej). apply Hd; unfold station_id; lia.
Qed.

(** *** One tag *)

Lemma add_line_tag_stations g id line g' :
  add_line_tag g id line = Some g' ->
  stationCount g' = stationCount g /\ adj g' = adj g
  /\ (forall j, j <> id -> stations g' j = stations g j)
  /\ key_name (stations g' id) = key_name (stations g id)
  /\ display_name (stations g' id) = display_name (stations g id)
  /\ planned (stations g' id) = planned (stations g id)
  /\ ((In line (lines (stations g id))
       /\ lines (stations g' id) = lines (stations g id))
      \/ (~ In line (lines (stations g id))
          /\ line_count (stations g id) < LINES_CAP
          /\ lines (stations g' id)
             = lines (stations g id) ++ [strncpy 29 line])).
Proof.
  unfold add_line_tag.
  destruct (has_line (lines (stations g id)) line) eqn:Hhas.
  - intros H. apply Some_eq in H. subst g'. apply has_line_iff in Hhas.
    repeat split; auto.
  - destruct (Z.ltb_spec (line_count (stations g id)) LINES_CAP) as [Hlt | _];
      [|discriminate].
    intros H. apply Some_eq in H. subst g'. cbn [stations stationCount adj].
    rewrite upd_same. cbn [lines key_name display_name planned].
    repeat split; auto.
    + intros j Hj. now apply upd_other.
    + right. repeat split; auto. intros Hin. apply has_line_iff in Hin. congruence.
Qed.

Lemma add_line_tag_extends g id line g' :
  add_line_tag g id line = Some g' -> extends g g'.
Proof.
  intros H. apply add_line_tag_stations in H.
  destruct H as [Hc [_ [Ho [Hk [Hd [Hp Hl]]]]]].
  split; [lia|]. intros j _.
  destruct (Z.eq_dec j id) as [-> | Hne].
  - repeat split; try assumption.
    destruct Hl as [[_ ->] | [_ [_ ->]]]; [exists []; now rewrite app_nil_r | eauto].
  - rewrite (Ho j Hne). repeat split. exists []. now rewrite app_nil_r.
Qed.

Lemma add_line_tag_distinct g id line g' :
  add_line_tag g id line = Some g' -> keys_distinct g -> keys_distinct g'.
Proof.
  intros H Hd. apply add_line_tag_stations in H.
  destruct H as [Hc [_ [Ho [Hk _]]]].
  assert (K : forall j, key_name (stations g' j) = key_name (stations g j)).
  { intros j. destruct (Z.eq_dec j id) as [-> | Hne]; [exact Hk | now rewrite Ho]. }
  intros i j Hi Hj. rewrite !K. unfold station_id in *. rewrite Hc in *.
  now apply Hd.
Qed.

(** The tagged station has the line. *)
Lemma add_line_tag_on_line g id line g' :
  (String.length line <= 29)%nat ->
  add_line_tag g id line = Some g' -> In line (lines (stations g' id)).
Proof.
  intros Hlen H. apply add_line_tag_stations in H.
  destruct H as [_ [_ [_ [_ [_ [_ [[Hin ->] | [_ [_ ->]]]]]]]]]; [exact Hin|].
  apply in_or_app. right. left. now apply strncpy_short.
Qed.

Lemma extends_refl g : extends g g.
Proof.
  split; [lia|]. intros j _. repeat split. exists []. now rewrite app_nil_r.
Qed.

Lemma extends_trans g1 g2 g3 :
  0 <= stationCount g1 -> extends g1 g2 -> extends g2 g3 -> extends g1 g3.
Proof.
  intros Hc [C1 E1] [C2 E2]. split; [lia|]. intros j Hj.
  destruct (E1 j Hj) as [K1 [D1 [P1 [m1 L1]]]].
  assert (Hj2 : station_id g2 j) by (unfold station_id in *; lia).
  destruct (E2 j Hj2) as [K2 [D2 [P2 [m2 L2]]]].
  repeat split; try congruence.
  exists (m1 ++ m2). rewrite L2, L1, app_assoc. reflexivity.
Qed.

Lemma extends_in g g' j l :
  extends g g' -> station_id g j -> In l (lines (stations g j)) ->
  In l (lines (stations g' j)).
Proof.
  intros [_ E] Hj Hin. destruct (E j Hj) as [_ [_ [_ [m ->]]]].
  apply in_or_app. now left.
Qed.

(** *** The stations of a line *)

Lemma key_of_fits raw : strncpy 79 (key_of raw) = key_of raw.
Proof. apply strncpy_short, normalize_inplace_length. Qed.

Lemma register_extends g raw planned g' id :
  register g raw planned = Some (g', id) -> extends g g'.
Proof. unfold register. apply find_or_add_extends. Qed.

Lemma register_distinct g raw planned g' id :
  0 <= stationCount g -> keys_distinct g ->
  register g raw planned = Some (g', id) -> keys_distinct g'.
Proof.
  unfold register. intros Hc Hd H.
  eapply find_or_add_distinct; [exact Hc | apply key_of_fits | exact Hd | exact H].
Qed.

Lemma register_key g raw planned g' id :
  0 <= stationCount g ->
  register g raw planned = Some (g', id) ->
  station_id g' id /\ key_name (stations g' id) = key_of raw.
Proof.
  unfold register. intros Hc H.
  pose proof (find_or_add_id _ _ _ _ _ _ Hc H) as [Hid _].
  split; [exact Hid|].
  apply find_or_add_stations in H.
  destruct H as [[-> F] | [_ [_ [_ [_ [_ [Hnew _]]]]]]].
  - now destruct (find_key_some _ _ _ _ _ F).
  - rewrite Hnew. cbn [key_name]. apply key_of_fits.
Qed.

(** What the first loop of [add_line_with_plan] keeps and establishes. *)
Lemma register_line_registry lineName names flags : forall g i ids g' ids',
  0 <= stationCount g -> keys_distinct g ->
  register_line g lineName names flags i ids = Some (g', ids') ->
  keys_distinct g' /\ extends g g'
  /\ stationCount g' <= stationCount g + Z.of_nat (List.length names)
  /\ exists new,
       ids' = ids ++ new
       /\ Forall2 (fun raw id => station_id g' id
                     /\ key_name (stations g' id) = key_of raw
                     /\ ((String.length lineName <= 29)%nat ->
                         In lineName (lines (stations g' id))))
                  names new.
Proof.
  induction names as [|raw rest IH]; intros g i ids g' ids' Hc Hd;
    cbn [register_line].
  - intros H. apply Some_eq in H. injection H as <- <-.
    split; [exact Hd|]. split; [apply extends_refl|]. split; [simpl; lia|].
    exists []. split; [now rewrite app_nil_r | constructor].
  - destruct (register g raw _) as [[g1 id]|] eqn:E1; [|discriminate].
    destruct (i <? MAX); [|discriminate].
    destruct (add_line_tag g1 id lineName) as [g2|] eqn:E2; [|discriminate].
    intros H.
    pose proof (register_distinct _ _ _ _ _ Hc Hd E1) as D1.
    pose proof (register_extends _ _ _ _ _ E1) as X1.
    assert (C1 : 0 <= stationCount g1 <= stationCount g + 1).
    { unfold register in E1. apply find_or_add_stations in E1.
      destruct E1 as [[-> _] | [_ [_ [_ [Hc1 _]]]]]; lia. }
    destruct (register_key _ _ _ _ _ Hc E1) as [Hid Hkey].
    pose proof (add_line_tag_distinct _ _ _ _ E2 D1) as D2.
    pose proof (add_line_tag_extends _ _ _ _ E2) as X2.
    pose proof (add_line_tag_count _ _ _ _ E2) as C2.
    destruct (IH g2 (i + 1) (ids ++ [id]) g' ids' ltac:(lia) D2 H)
      as [D3 [X3 [C3 [new [Hids Hall]]]]].
    assert (X12 : extends g g2) by (eapply extends_trans; eauto; lia).
    split; [exact D3|]. split; [eapply extends_trans; [exact Hc | exact X12 | exact X3]|].
    split; [cbn [List.length]; lia|].
    exists (id :: new). split; [now rewrite Hids, <- app_assoc|].
    assert (Hid2 : station_id g2 id) by (unfold station_id in *; lia).
    assert (Hhere : station_id g' id
                    /\ key_name (stations g' id) = key_of raw
                    /\ ((String.length lineName <= 29)%nat ->
                        In lineName (lines (stations g' id)))).
    { destruct X3 as [C23 X3]. destruct (X3 id Hid2) as [K3 [_ [_ [m L3]]]].
      split; [unfold station_id in *; lia|]. split.
      - rewrite K3. destruct X2 as [_ X2]. destruct (X2 id Hid) as [K2 _]. congruence.
      - intros Hlen. rewrite L3. apply in_or_app. left.
        eapply add_line_tag_on_line; eauto. }
    constructor; [exact Hhere | exact Hall].
Qed.

Lemma register_line_extends lineName names flags : forall g i ids g' ids',
  0 <= stationCount g ->
  register_line g lineName names flags i ids = Some (g', ids') ->
  extends g g'.
Proof.
  induction names as [|raw rest IH]; intros g i ids g' ids' Hc;
    cbn [register_line].
  - intros H. apply Some_eq in H. injection H as <- _. apply extends_refl.
  - destruct (register g raw _) as [[g1 id]|] eqn:E1; [|discriminate].
    destruct (i <? MAX); [|discriminate].
    destruct (add_line_tag g1 id lineName) as [g2|] eqn:E2; [|discriminate].
    intros H.
    pose proof (register_extends _ _ _ _ _ E1) as X1.
    pose proof (add_line_tag_extends _ _ _ _ E2) as X2.
    assert (C2 : 0 <= stationCount g2) by (destruct X1, X2; lia).
    pose proof (IH _ _ _ _ _ C2 H) as X3.
    eapply extends_trans; [exact Hc | | exact X3].
    eapply extends_trans; [exact Hc | exact X1 | exact X2].
Qed.

Lemma none_planned_register_line lineName names flags :
  (forall f i, flags = Some f -> f i = 0) ->
  forall g i ids g' ids',
  0 <= stationCount g -> none_planned g ->
  register_line g lineName names flags i ids = Some (g', ids') ->
  none_planned g'.
Proof.
  intros Hflags.
  induction names as [|raw rest IH]; intros g i ids g' ids' Hc Hn;
    cbn [register_line].
  - intros H. apply Some_eq in H. injection H as <- _. exact Hn.
  - destruct (register g raw _) as [[g1 id]|] eqn:E1; [|discriminate].
    destruct (i <? MAX); [|discriminate].
    destruct (add_line_tag g1 id lineName) as [g2|] eqn:E2; [|discriminate].
    intros H.
    assert (N1 : none_planned g1 /\ 0 <= stationCount g1).
    { unfold register in E1. apply find_or_add_stations in E1.
      destruct E1 as [[-> _] | [_ [Hid [_ [Hc1 [_ [Hnew Hother]]]]]]];
        [now split|].
      split; [|lia]. intros j Hj. unfold station_id in Hj.
      destruct (Z.eq_dec j id) as [-> | Hne].
      - rewrite Hnew. cbn [planned].
        destruct flags as [f|]; [now apply Hflags | reflexivity].
      - rewrite Hother by exact Hne. apply Hn. unfold station_id. lia. }
    destruct N1 as [N1 C1].
    assert (N2 : none_planned g2 /\ 0 <= stationCount g2).
    { apply add_line_tag_stations in E2.
      destruct E2 as [Hc2 [_ [Ho [_ [_ [Hp _]]]]]].
      split; [|lia]. intros j Hj. unfold station_id in Hj.
      destruct (Z.eq_dec j id) as [-> | Hne].
      - rewrite Hp. apply N1. unfold station_id. lia.
      - rewrite Ho by exact Hne. apply N1. unfold station_id. lia. }
    destruct N2 as [N2 C2]. exact (IH _ _ _ _ _ C2 N2 H).
Qed.

(** *** The edges of a line *)

Lemma connect_ids_one m a b u v :
  m u v <> 0 -> connect_ids m a b u v <> 0.
Proof.
  unfold connect_ids. destruct ((a <? 0) || (b <? 0) || (a =? b)); [auto|].
  unfold upd2. intros H.
  destruct ((u =? b) && (v =? a)); [lia|].
  destruct ((u =? a) && (v =? b)); [lia | exact H].
Qed.

Lemma connect_ids_links m a b :
  0 <= a -> 0 <= b -> a <> b ->
  connect_ids m a b a b = 1 /\ connect_ids m a b b a = 1.
Proof.
  intros Ha Hb Hab. unfold connect_ids.
  destruct (Z.ltb_spec a 0); [lia|]. destruct (Z.ltb_spec b 0); [lia|].
  destruct (Z.eqb_spec a b); [contradiction|]. cbn [orb]. unfold upd2.
  rewrite !Z.eqb_refl. cbn [andb].
  destruct (Z.eqb_spec a b); [contradiction|]. cbn [andb]. now split.
Qed.

Lemma connect_ids_binary m a b :
  (forall u v, m u v = 0 \/ m u v = 1) ->
  forall u v, connect_ids m a b u v = 0 \/ connect_ids m a b u v = 1.
Proof.
  intros Hm u v. unfold connect_ids.
  destruct ((a <? 0) || (b <? 0) || (a =? b)); [apply Hm|]. unfold upd2.
  destruct ((u =? b) && (v =? a)); [now right|].
  destruct ((u =? a) && (v =? b)); [now right | apply Hm].
Qed.

Lemma connect_chain_one ids : forall m u v,
  m u v <> 0 -> connect_chain m ids u v <> 0.
Proof.
  induction ids as [|a t IH]; intros m u v H; simpl; [exact H|].
  destruct t as [|b t']; [exact H|]. apply IH. now apply connect_ids_one.
Qed.

Lemma connect_chain_binary ids : forall m,
  (forall u v, m u v = 0 \/ m u v = 1) ->
  forall u v, connect_chain m ids u v = 0 \/ connect_chain m ids u v = 1.
Proof.
  induction ids as [|a t IH]; intros m Hm; simpl; [exact Hm|].
  destruct t as [|b t']; [exact Hm|]. apply IH. now apply connect_ids_binary.
Qed.

Lemma connect_chain_links ids : forall m a b,
  In (a, b) (consecutive ids) -> 0 <= a -> 0 <= b -> a <> b ->
  connect_chain m ids a b <> 0 /\ connect_chain m ids b a <> 0.
Proof.
  induction ids as [|x t IH]; intros m a b Hin Ha Hb Hab; [contradiction|].
  destruct t as [|y t']; [contradiction|].
  change (consecutive (x :: y :: t')) with ((x, y) :: consecutive (y :: t')) in Hin.
  change (connect_chain m (x :: y :: t'))
    with (connect_chain (connect_ids m x y) (y :: t')).
  destruct Hin as [E | Hin].
  - injection E as -> ->.
    destruct (connect_ids_links m a b Ha Hb Hab) as [H1 H2].
    split; apply connect_chain_one; lia.
  - now apply IH.
Qed.

Lemma Forall2_in_left {A B} (P : A -> B -> Prop) l1 l2 x :
  Forall2 P l1 l2 -> In x l1 -> exists y, In y l2 /\ P x y.
Proof.
  induction 1 as [|a b l1 l2 Hab H IH]; simpl; [tauto|].
  intros [<- | Hx]; [exists b; auto|].
  destruct (IH Hx) as [y [Hy Hp]]. exists y. auto.
Qed.

Lemma add_line_with_plan_share g lineName names flags g' :
  0 <= stationCount g -> keys_distinct g -> edges_registered g ->
  (String.length lineName <= 29)%nat -> edges_share_line g ->
  add_line_with_plan g lineName names flags = Some g' ->
  edges_share_line g'.
Proof.
  intros Hc Hd Hr Hlen Hs. unfold add_line_with_plan.
  destruct (register_line _ _ _ _ _ _) as [[g1 ids]|] eqn:E; [|discriminate].
  intros H. apply Some_eq in H. subst g'.
  pose proof (register_line_adj _ _ _ _ _ _ _ _ E) as Hadj.
  destruct (register_line_registry _ _ _ _ _ _ _ _ Hc Hd E)
    as [_ [X [_ [new [Hids Hall]]]]].
  simpl in Hids. subst new.
  intros u v. cbn [adj stations]. intros Huv.
  apply connect_chain_edges in Huv. destruct Huv as [Huv | [Hu Hv]].
  - rewrite Hadj in Huv. destruct (Hr u v Huv) as [Ru Rv].
    destruct (Hs u v Huv) as [l [Lu Lv]].
    exists l. split; eapply extends_in; eauto.
  - destruct (Forall2_some_left _ _ _ _ Hall Hu) as [_ [_ [_ [_ Lu]]]].
    destruct (Forall2_some_left _ _ _ _ Hall Hv) as [_ [_ [_ [_ Lv]]]].
    exists lineName. auto.
Qed.

Lemma add_line_with_plan_distinct g lineName names flags g' :
  0 <= stationCount g -> keys_distinct g ->
  add_line_with_plan g lineName names flags = Some g' ->
  keys_distinct g' /\ 0 <= stationCount g'.
Proof.
  intros Hc Hd. unfold add_line_with_plan.
  destruct (register_line _ _ _ _ _ _) as [[g1 ids]|] eqn:E; [|discriminate].
  intros H. apply Some_eq in H. subst g'.
  destruct (register_line_registry _ _ _ _ _ _ _ _ Hc Hd E)
    as [D [[C _] _]].
  split; [exact D | cbn [stationCount]; lia].
Qed.

Lemma add_line_with_plan_none_planned g lineName names flags g' :
  (forall f i, flags = Some f -> f i = 0) ->
  0 <= stationCount g -> none_planned g ->
  add_line_with_plan g lineName names flags = Some g' ->
  none_planned g'.
Proof.
  intros Hf Hc Hn. unfold add_line_with_plan.
  destruct (register_line _ _ _ _ _ _) as [[g1 ids]|] eqn:E; [|discriminate].
  intros H. apply Some_eq in H. subst g'.
  exact (none_planned_register_line _ _ _ Hf _ _ _ _ _ Hc Hn E).
Qed.

(** What every build establishes. *)
Lemma build_network_sound g include_planned g' :
  build_network g include_planned = Some g' ->
  keys_distinct g' /\ edges_share_line g' /\ none_planned g'.
Proof.
  unfold build_network.
  destruct (add_line_with_plan _ "purple" purple _) as [g1|] eqn:E1; [|discriminate].
  destruct (add_line_with_plan g1 "green" green _) as [g2|] eqn:E2; [|discriminate].
  intros E3.
  set (g0 := mkNetwork (stations g) 0 (fun _ _ => 0)) in *.
  assert (C0 : 0 <= stationCount g0) by (simpl; lia).
  assert (D0 : keys_distinct g0) by (intros i j Hi; unfold station_id in Hi; simpl in Hi; lia).
  assert (R0 : edges_registered g0) by (intros u v H; simpl in H; contradiction).
  assert (S0 : edges_share_line g0) by (intros u v H; simpl in H; contradiction).
  assert (N0 : none_planned g0) by (intros j Hj; unfold station_id in Hj; simpl in Hj; lia).
  assert (Hf : forall f i, Some (fun _ : Z => 0) = Some f -> f i = 0)
    by (intros f i H; apply Some_eq in H; now subst f).
  destruct (add_line_with_plan_distinct _ _ _ _ _ C0 D0 E1) as [D1 C1].
  destruct (add_line_with_plan_distinct _ _ _ _ _ C1 D1 E2) as [D2 C2].
  destruct (add_line_with_plan_distinct _ _ _ _ _ C2 D2 E3) as [D3 C3].
  destruct (add_line_with_plan_edges _ _ _ _ _ C0 R0 E1) as [_ R1].
  destruct (add_line_with_plan_edges _ _ _ _ _ C1 R1 E2) as [_ R2].
  assert (L1 : (String.length "purple" <= 29)%nat) by (simpl; lia).
  assert (L2 : (String.length "green" <= 29)%nat) by (simpl; lia).
  assert (L3 : (String.length "pink" <= 29)%nat) by (simpl; lia).
  pose proof (add_line_with_plan_share _ _ _ _ _ C0 D0 R0 L1 S0 E1) as S1.
  pose proof (add_line_with_plan_share _ _ _ _ _ C1 D1 R1 L2 S1 E2) as S2.
  pose proof (add_line_with_plan_share _ _ _ _ _ C2 D2 R2 L3 S2 E3) as S3.
  pose proof (add_line_with_plan_none_planned _ _ _ _ _ Hf C0 N0 E1) as N1.
  pose proof (add_line_with_plan_none_planned _ _ _ _ _ Hf C1 N1 E2) as N2.
  pose proof (add_line_with_plan_none_planned _ _ _ _ _ Hf C2 N2 E3) as N3.
  auto.
Qed.

(** *** The lookup of the two ends of a journey *)

Lemma lookup_keys_last tbl include_planned srckey dstkey k :
  forall i src dest,
  (forall j, i <= j < i + Z.of_nat k ->
     include_planned <> 0 \/ planned (tbl j) = 0) ->
  let r := lookup_keys tbl include_planned srckey dstkey k i src dest in
  ((fst r = src
    /\ forall j, i <= j < i + Z.of_nat k -> key_name (tbl j) <> srckey)
   \/ (i <= fst r < i + Z.of_nat k /\ key_name (tbl (fst r)) = srckey))
  /\ ((snd r = dest
       /\ forall j, i <= j < i + Z.of_nat k -> key_name (tbl j) <> dstkey)
      \/ (i <= snd r < i + Z.of_nat k /\ key_name (tbl (snd r)) = dstkey)).
Proof.
  induction k as [|k IH]; intros i src dest Hshown.
  - simpl. split; left; (split; [reflexivity | intros j Hj; lia]).
  - cbn [lookup_keys].
    assert (Hskip : (include_planned =? 0) && negb (planned (tbl i) =? 0) = false).
    { destruct (Hshown i ltac:(lia)) as [H | H].
      - apply Z.eqb_neq in H. now rewrite H.
      - rewrite H. simpl. apply andb_false_r. }
    rewrite Hskip.
    assert (Hshown' : forall j, i + 1 <= j < i + 1 + Z.of_nat k ->
                        include_planned <> 0 \/ planned (tbl j) = 0)
      by (intros j Hj; apply Hshown; lia).
    specialize (IH (i + 1)
                  (if (srckey =? key_name (tbl i))%string then i else src)
                  (if (dstkey =? key_name (tbl i))%string then i else dest)
                  Hshown').
    cbv zeta in IH. destruct IH as [Hs Hd]. split.
    + destruct Hs as [[E Hno] | [Hr Hk]]; [|right; split; [lia | exact Hk]].
      rewrite E. destruct (String.eqb_spec srckey (key_name (tbl i))) as [K | K].
      * right. split; [lia | now symmetry].
      * left. split; [reflexivity|]. intros j Hj.
        destruct (Z.eq_dec j i) as [-> | Hne]; [congruence | apply Hno; lia].
    + destruct Hd as [[E Hno] | [Hr Hk]]; [|right; split; [lia | exact Hk]].
      rewrite E. destruct (String.eqb_spec dstkey (key_name (tbl i))) as [K | K].
      * right. split; [lia | now symmetry].
      * left. split; [reflexivity|]. intros j Hj.
        destruct (Z.eq_dec j i) as [-> | Hne]; [congruence | apply Hno; lia].
Qed.

Lemma id_of_key_none g key :
  (forall j, station_id g j -> key_name (stations g j) <> key) ->
  id_of_key g key = -1.
Proof.
  intros Hno. destruct (id_of_key_cases g key) as [[E _] | [Hs Hk]]; [exact E|].
  exfalso. exact (Hno _ Hs Hk).
Qed.

Lemma find_stations_ids g include_planned srckey dstkey :
  keys_distinct g -> include_planned <> 0 \/ none_planned g ->
  find_stations g include_planned srckey dstkey
  = (id_of_key g srckey, id_of_key g dstkey).
Proof.
  intros Hd Hshown. unfold find_stations.
  pose proof (lookup_keys_last (stations g) include_planned srckey dstkey
                (Z.to_nat (stationCount g)) 0 (-1) (-1)) as H.
  cbv zeta in H.
  destruct H as [Hs Hdst].
  { intros j Hj. destruct Hshown as [H | H]; [now left | right].
    apply H. unfold station_id. lia. }
  destruct (lookup_keys _ _ _ _ _ _ _ _) as [s d]. cbn [fst snd] in *.
  f_equal.
  - destruct Hs as [[-> Hno] | [Hr Hk]].
    + symmetry. apply id_of_key_none. intros j Hj. apply Hno.
      unfold station_id in Hj. lia.
    + symmetry. apply id_of_key_unique; [exact Hd | unfold station_id; lia | exact Hk].
  - destruct Hdst as [[-> Hno] | [Hr Hk]].
    + symmetry. apply id_of_key_none. intros j Hj. apply Hno.
      unfold station_id in Hj. lia.
    + symmetry. apply id_of_key_unique; [exact Hd | unfold station_id; lia | exact Hk].
Qed.

(** ** First write wins, whatever is called in between *)









(** ** Routes: reversal, joining, repeated stations *)

Lemma linked_consecutive (E : Z -> Z -> Prop) p :
  linked E p <-> forall u v, In (u, v) (consecutive p) -> E u v.
Proof.
  induction p as [|a t IH]; [simpl; tauto|].
  destruct t as [|b t']; [simpl; tauto|].
  change (linked E (a :: b :: t')) with (E a b /\ linked E (b :: t')).
  change (consecutive (a :: b :: t')) with ((a, b) :: consecutive (b :: t')).
  rewrite IH. split.
  - intros [H1 H2] u v [H | H]; [injection H as <- <-; exact H1 | now apply H2].
  - intros H. split; [apply H; now left | intros u v Huv; apply H; now right].
Qed.

Lemma linked_app (E : Z -> Z -> Prop) p : forall q d,
  p <> [] ->
  (linked E (p ++ q) <->
   linked E p /\ linked E q /\ (q <> [] -> E (last p d) (hd d q))).
Proof.
  induction p as [|a t IH]; intros q d Hne; [contradiction|].
  destruct t as [|b t'].
  - destruct q as [|c q']; simpl.
    + split; [intros _; repeat split; tauto | intros _; exact I].
    + split; [intros [H1 H2]; repeat split; auto | intros [_ [H2 H3]]].
      split; [apply H3; discriminate | exact H2].
  - change ((a :: b :: t') ++ q) with (a :: (b :: t') ++ q).
    change (linked E (a :: (b :: t') ++ q))
      with (E a b /\ linked E ((b :: t') ++ q)).
    change (linked E (a :: b :: t')) with (E a b /\ linked E (b :: t')).
    change (last (a :: b :: t') d) with (last (b :: t') d).
    rewrite (IH q d) by discriminate. tauto.
Qed.

Lemma linked_rev (E : Z -> Z -> Prop) p :
  (forall u v, E u v -> E v u) -> linked E p -> linked E (rev p).
Proof.
  intros Hsym. induction p as [|a t IH]; [auto|].
  destruct t as [|b t']; [auto|].
  change (linked E (a :: b :: t')) with (E a b /\ linked E (b :: t')).
  intros [Hab Ht]. change (rev (a :: b :: t')) with (rev (b :: t') ++ [a]).
  apply (linked_app E _ _ 0).
  - simpl. intros H. apply app_eq_nil in H. destruct H as [_ H]. discriminate.
  - split; [now apply IH|]. split; [exact I|]. intros _.
    simpl. rewrite last_last. simpl. now apply Hsym.
Qed.

Lemma last_rev (p : list Z) d : last (rev p) d = hd d p.
Proof. destruct p as [|a t]; [reflexivity|]. simpl. apply last_last. Qed.

Lemma hd_rev (p : list Z) d : hd d (rev p) = last p d.
Proof.
  induction p as [|a t IH] using rev_ind; [reflexivity|].
  rewrite rev_app_distr, last_last. reflexivity.
Qed.

Lemma hd_error_hd (p : list Z) a : hd_error p = Some a -> forall d, hd d p = a.
Proof. destruct p; [discriminate|]. simpl. intros H d. now injection H. Qed.

Lemma hd_hd_error (p : list Z) d : p <> [] -> hd_error p = Some (hd d p).
Proof. destruct p; [contradiction | reflexivity]. Qed.

Lemma last_indep (p : list Z) d d' : p <> [] -> last p d = last p d'.
Proof.
  induction p as [|a t IH]; [contradiction|]. intros _.
  destruct t as [|b t']; [reflexivity|]. apply IH. discriminate.
Qed.

Lemma last_app_right (p q : list Z) d d' :
  q <> [] -> last (p ++ q) d = last q d'.
Proof.
  intros Hq. induction p as [|y p IH]; [now apply last_indep|].
  simpl. destruct (p ++ q) eqn:E; [|exact IH].
  apply app_eq_nil in E. destruct E as [_ E]. contradiction.
Qed.

Lemma open_edge_sym g blocked_a blocked_b blocked_count u v :
  (forall a b, adj g a b = adj g b a) ->
  open_edge g blocked_a blocked_b blocked_count u v ->
  open_edge g blocked_a blocked_b blocked_count v u.
Proof.
  intros Hsym [Ha Hb]. split; [now rewrite Hsym|].
  intros [ba [bb [b [H1 [H2 [H3 H4]]]]]]. apply Hb.
  exists ba, bb, b. repeat split; try assumption; try lia; tauto.
Qed.

(** Over a symmetric matrix a route read backwards is a route. *)
Lemma route_rev g blocked_a blocked_b blocked_count src dest p :
  (forall a b, adj g a b = adj g b a) ->
  route g blocked_a blocked_b blocked_count src dest p ->
  route g blocked_a blocked_b blocked_count dest src (rev p).
Proof.
  intros Hsym [H1 [H2 [H3 H4]]].
  assert (Hne : p <> []) by (intros ->; discriminate).
  assert (Hne' : rev p <> []).
  { intros E. apply (f_equal (@List.length Z)) in E. rewrite length_rev in E.
    destruct p; [contradiction | discriminate]. }
  repeat split.
  - rewrite (hd_hd_error _ src Hne'), hd_rev, H2. reflexivity.
  - rewrite last_rev. now apply hd_error_hd.
  - apply Forall_rev. exact H3.
  - apply linked_rev; [|exact H4]. intros u v. now apply open_edge_sym.
Qed.

(** Two routes that meet make one. *)
Lemma route_join g blocked_a blocked_b blocked_count a b c p q :
  route g blocked_a blocked_b blocked_count a b p ->
  route g blocked_a blocked_b blocked_count b c q ->
  route g blocked_a blocked_b blocked_count a c (p ++ tl q).
Proof.
  intros [P1 [P2 [P3 P4]]] [Q1 [Q2 [Q3 Q4]]].
  destruct q as [|b' q']; [discriminate|]. simpl in Q1. injection Q1 as ->.
  assert (Hne : p <> []) by (intros ->; discriminate).
  cbn [tl]. repeat split.
  - destruct p; [contradiction | exact P1].
  - destruct q' as [|x q''].
    + rewrite app_nil_r. simpl in Q2. rewrite <- Q2. exact P2.
    + change (last (b :: x :: q'') b) with (last (x :: q'') b) in Q2.
      rewrite <- Q2. apply last_app_right. discriminate.
  - apply Forall_app. split; [exact P3 | now inversion Q3].
  - apply (linked_app _ _ _ a Hne). split; [exact P4|].
    destruct q' as [|x q'']; [simpl; tauto|].
    change (linked (open_edge g blocked_a blocked_b blocked_count) (b :: x :: q''))
      with (open_edge g blocked_a blocked_b blocked_count b x
            /\ linked (open_edge g blocked_a blocked_b blocked_count) (x :: q'')) in Q4.
    destruct Q4 as [Q4 Q5]. split; [exact Q5|]. intros _. rewrite P2. exact Q4.
Qed.

(** Where a route exists the search finds one with no more hops. *)
Lemma shortest_path_finds g blocked_a blocked_b blocked_count src dest p' :
  station_id g src -> stationCount g <= MAX ->
  route g blocked_a blocked_b blocked_count src dest p' ->
  exists p,
    shortest_path g src dest blocked_a blocked_b blocked_count = Some (Found p)
    /\ route g blocked_a blocked_b blocked_count src dest p
    /\ hops p <= hops p'.
Proof.
  intros Hsrc Hfit Hp'.
  destruct (shortest_path_walk g blocked_a blocked_b blocked_count src
              Hsrc Hfit dest) as [[p [E [Hw Hmin]]] | [_ Hnone]].
  - exists p. split; [exact E|]. split; [now apply walk_route|].
    apply route_walk in Hp'. apply Hmin in Hp'.
    apply RouteOrderFacts.not_after_length in Hp'. unfold hops. lia.
  - exfalso. apply route_walk in Hp'. exact (Hnone _ Hp').
Qed.

(** A path the search returns, with what it is least among. *)
Lemma shortest_path_found g blocked_a blocked_b blocked_count src dest p :
  station_id g src -> stationCount g <= MAX ->
  shortest_path g src dest blocked_a blocked_b blocked_count = Some (Found p) ->
  route g blocked_a blocked_b blocked_count src dest p
  /\ forall p', route g blocked_a blocked_b blocked_count src dest p' ->
       hops p <= hops p'.
Proof.
  intros Hsrc Hfit E.
  destruct (shortest_path_walk g blocked_a blocked_b blocked_count src
              Hsrc Hfit dest) as [[p0 [E0 [Hw Hmin]]] | [E0 _]];
    rewrite E0 in E; [|discriminate].
  apply Some_eq in E. injection E as <-.
  split; [now apply walk_route|].
  intros p' Hp'. apply route_walk in Hp'. apply Hmin in Hp'.
  apply RouteOrderFacts.not_after_length in Hp'. unfold hops. lia.
Qed.

Lemma route_dest_station g blocked_a blocked_b blocked_count src dest p :
  route g blocked_a blocked_b blocked_count src dest p -> station_id g dest.
Proof.
  intros [H1 [H2 [H3 _]]]. rewrite Forall_forall in H3. apply H3.
  rewrite <- H2. destruct p as [|a t]; [discriminate|].
  clear. revert a. induction t as [|b t IH]; intros a; [now left|].
  right. apply (IH b).
Qed.

(** *** Repeated stations *)

(** A sequence of edges that meets a station twice has a shorter one
    between the same ends. *)
Lemma linked_shortcut (E : Z -> Z -> Prop) p :
  linked E p -> ~ NoDup p ->
  exists p', linked E p' /\ (List.length p' < List.length p)%nat
             /\ (forall d, hd d p' = hd d p) /\ (forall d, last p' d = last p d)
             /\ incl p' p /\ p' <> [].
Proof.
  induction p as [|a t IH]; intros Hl Hdup; [exfalso; apply Hdup; constructor|].
  destruct (in_dec Z.eq_dec a t) as [Hin | Hnot].
  - apply in_split in Hin. destruct Hin as [l1 [l2 ->]].
    exists (a :: l2). repeat split.
    + change (a :: l1 ++ a :: l2) with ((a :: l1) ++ a :: l2) in Hl.
      apply (linked_app E _ _ 0) in Hl; [tauto | discriminate].
    + simpl. rewrite length_app. simpl. lia.
    + intros d. change (a :: l1 ++ a :: l2) with ((a :: l1) ++ a :: l2).
      symmetry. apply last_app_right. discriminate.
    + intros x [<- | Hx]; [now left | right; apply in_or_app; right; now right].
    + discriminate.
  - assert (Hdup' : ~ NoDup t) by (intros H; apply Hdup; now constructor).
    destruct t as [|b t']; [exfalso; apply Hdup'; constructor|].
    change (linked E (a :: b :: t')) with (E a b /\ linked E (b :: t')) in Hl.
    destruct Hl as [Hab Hl].
    destruct (IH Hl Hdup') as [p' [L [Len [Hhd [Hlast [Hincl Hne]]]]]].
    destruct p' as [|b' p'']; [contradiction|].
    specialize (Hhd 0) as Hb. simpl in Hb. subst b'.
    exists (a :: b :: p''). repeat split.
    + exact Hab.
    + exact L.
    + simpl in *. lia.
    + intros d. change (last (a :: b :: p'') d) with (last (b :: p'') d).
      change (last (a :: b :: t') d) with (last (b :: t') d). apply Hlast.
    + intros x [<- | Hx]; [now left | right; now apply Hincl].
    + discriminate.
Qed.

Lemma repeats_or_not (l : list Z) : NoDup l \/ ~ NoDup l.
Proof.
  induction l as [|a t IH]; [left; constructor|].
  destruct (in_dec Z.eq_dec a t) as [Hin | Hnot].
  - right. intros H. now inversion H.
  - destruct IH as [H | H]; [left; now constructor | right].
    intros H'. now inversion H'.
Qed.

Lemma route_shortcut g blocked_a blocked_b blocked_count src dest p :
  route g blocked_a blocked_b blocked_count src dest p -> ~ NoDup p ->
  exists p', route g blocked_a blocked_b blocked_count src dest p'
             /\ hops p' < hops p.
Proof.
  intros [H1 [H2 [H3 H4]]] Hdup.
  destruct (linked_shortcut _ _ H4 Hdup) as [p' [L [Len [Hhd [Hlast [Hincl Hne]]]]]].
  exists p'. split; [|unfold hops; lia].
  repeat split.
  - rewrite (hd_hd_error _ src Hne), Hhd. f_equal. now apply hd_error_hd.
  - rewrite Hlast. exact H2.
  - rewrite Forall_forall in *. intros x Hx. apply H3. now apply Hincl.
  - exact L.
Qed.

(** A route with the fewest hops meets no station twice, so it has no
    more stations than the table. *)
Lemma fewest_hops_simple g blocked_a blocked_b blocked_count src dest p :
  0 <= stationCount g ->
  route g blocked_a blocked_b blocked_count src dest p ->
  (forall p', route g blocked_a blocked_b blocked_count src dest p' ->
     hops p <= hops p') ->
  NoDup p /\ Z.of_nat (List.length p) <= stationCount g.
Proof.
  intros Hc Hr Hmin.
  assert (Hnd : NoDup p).
  { destruct (repeats_or_not p) as [H | H]; [exact H|].
    destruct (route_shortcut _ _ _ _ _ _ _ Hr H) as [p' [Hp' Hlt]].
    apply Hmin in Hp'. lia. }
  split; [exact Hnd|].
  apply distinct_ids_bound; [exact Hc | exact Hnd|].
  destruct Hr as [_ [_ [H3 _]]]. rewrite Forall_forall in H3. exact H3.
Qed.

(** X11. Over a symmetric matrix the search has the same outcome in both
    directions between two stations: no route either way, or two paths
    with the same number of stations, each the other way round a route. *)
Theorem shortest_path_symmetric g blocked_a blocked_b blocked_count a b :
  station_id g a -> station_id g b -> stationCount g <= MAX ->
  (forall u v, adj g u v = adj g v u) ->
  (shortest_path g a b blocked_a blocked_b blocked_count = Some NoRoute
   /\ shortest_path g b a blocked_a blocked_b blocked_count = Some NoRoute)
  \/ exists p q,
       shortest_path g a b blocked_a blocked_b blocked_count = Some (Found p)
       /\ shortest_path g b a blocked_a blocked_b blocked_count = Some (Found q)
       /\ hops p = hops q
       /\ route g blocked_a blocked_b blocked_count a b (rev q)
       /\ route g blocked_a blocked_b blocked_count b a (rev p).
Proof.
  intros Ha Hb Hfit Hsym.
  destruct (shortest_path_walk g blocked_a blocked_b blocked_count a
              Ha Hfit b) as [[p [E [Hw Hmin]]] | [E Hnone]].
  - right. apply walk_route in Hw; [|exact Ha].
    pose proof (route_rev _ _ _ _ _ _ _ Hsym Hw) as Hrev.
    destruct (shortest_path_finds _ _ _ _ _ _ _ Hb Hfit Hrev)
      as [q [Eq [Hq Hle]]].
    exists p, q. split; [exact E|]. split; [exact Eq|].
    pose proof (route_rev _ _ _ _ _ _ _ Hsym Hq) as Hrevq.
    split; [|split; assumption].
    apply route_walk in Hrevq. apply Hmin in Hrevq.
    apply RouteOrderFacts.not_after_length in Hrevq.
    unfold hops in *. rewrite length_rev in *. lia.
  - left. split; [exact E|].
    destruct (shortest_path_walk g blocked_a blocked_b blocked_count b
                Hb Hfit a) as [[q [Eq [Hw _]]] | [Eq _]]; [|exact Eq].
    exfalso. apply walk_route in Hw; [|exact Hb].
    apply (route_rev _ _ _ _ _ _ _ Hsym) in Hw. apply route_walk in Hw.
    exact (Hnone _ Hw).
Qed.

(** X12. A path the search returns meets no station twice and has at
    most as many stations as are registered, so it fits the path arrays
    of [MAX] entries that the callers read it into. *)
Theorem shortest_path_simple g blocked_a blocked_b blocked_count src dest p :
  station_id g src -> stationCount g <= MAX ->
  shortest_path g src dest blocked_a blocked_b blocked_count = Some (Found p) ->
  NoDup p /\ Z.of_nat (List.length p) <= stationCount g
  /\ hops p < MAX.
Proof.
  intros Hsrc Hfit E.
  destruct (shortest_path_found _ _ _ _ _ _ _ Hsrc Hfit E) as [Hr Hmin].
  destruct (fewest_hops_simple g blocked_a blocked_b blocked_count src dest p)
    as [Hnd Hlen]; [unfold station_id in Hsrc; lia | exact Hr | exact Hmin |].
  split; [exact Hnd|]. split; [exact Hlen | unfold hops; lia].
Qed.

Lemma blocked_pair a b u v :
  is_blocked (Some (fun _ : Z => a)) (Some (fun _ : Z => b)) 1 u v
  <-> (u = a /\ v = b) \/ (u = b /\ v = a).
Proof.
  unfold is_blocked. split.
  - intros [ba [bb [i [H1 [H2 [_ H]]]]]].
    apply Some_eq in H1. apply Some_eq in H2. subst ba bb. exact H.
  - intros H. exists (fun _ => a), (fun _ => b), 0.
    repeat split; try reflexivity; try lia; exact H.
Qed.

(** X17. Every alternate that [find_alternates] returns goes with one
    edge of the primary path: it is a route between the ends of the
    primary path that does not use that edge in either direction, and no
    route avoiding that edge has fewer hops. *)
Theorem alternates_avoid_edge g primary alternates alt :
  station_id g (at_index primary 0) -> stationCount g <= MAX ->
  find_alternates g primary = Some alternates -> In alt alternates ->
  exists e,
    0 <= e < hops primary
    /\ route g None None 0 (at_index primary 0)
             (at_index primary (plen primary - 1)) alt
    /\ (forall u v, In (u, v) (consecutive alt) ->
          ~ (u = at_index primary e /\ v = at_index primary (e + 1))
          /\ ~ (u = at_index primary (e + 1) /\ v = at_index primary e))
    /\ forall p,
         route g None None 0 (at_index primary 0)
               (at_index primary (plen primary - 1)) p ->
         (forall u v, In (u, v) (consecutive p) ->
            ~ (u = at_index primary e /\ v = at_index primary (e + 1))
            /\ ~ (u = at_index primary (e + 1) /\ v = at_index primary e)) ->
         hops alt <= hops p.
Proof.
  intros Hsrc Hfit E Hin.
  destruct (find_alternates_accepted g primary Hsrc Hfit) as [a [E' Hacc]].
  rewrite E in E'. apply Some_eq in E'. subst a.
  destruct Hacc as [_ [_ [_ [es [_ [Hes H]]]]]].
  destruct (Forall2_some_left _ _ _ _ H Hin) as [e [He Hd]].
  rewrite Forall_forall in Hes. apply Hes in He.
  exists e. split; [lia|]. unfold detour in Hd.
  destruct (shortest_path_found _ _ _ _ _ _ _ Hsrc Hfit Hd) as [Hr Hmin].
  split; [eapply route_unblocked; exact Hr|]. split.
  - destruct Hr as [_ [_ [_ Hl]]].
    rewrite linked_consecutive in Hl. intros u v Huv.
    destruct (Hl u v Huv) as [_ Hb]. rewrite blocked_pair in Hb. tauto.
  - intros p [P1 [P2 [P3 P4]]] Hp. apply Hmin. repeat split; try assumption.
    rewrite linked_consecutive in *. intros u v Huv.
    destruct (P4 u v Huv) as [Hadj _]. split; [exact Hadj|].
    rewrite blocked_pair. specialize (Hp u v Huv). tauto.
Qed.

(** ** Segments and interchanges *)

Lemma same_line_run_le curr rest :
  (same_line_run curr rest <= List.length rest)%nat.
Proof.
  induction rest as [|l r IH]; simpl; [lia|].
  destruct (l =? curr)%string; simpl; lia.
Qed.

(** The rounds of the segment loop: more fuel than labels changes
    nothing. *)
Lemma segments_from_fuel fuel : forall fuel' i labels,
  (List.length labels <= fuel)%nat -> (List.length labels <= fuel')%nat ->
  segments_from fuel i labels = segments_from fuel' i labels.
Proof.
  induction fuel as [|f IH]; intros fuel' i labels H H'.
  - destruct labels; [|simpl in H; lia]. destruct fuel'; reflexivity.
  - destruct labels as [|l rest]; [destruct fuel'; reflexivity|].
    destruct fuel' as [|f']; [simpl in H'; lia|].
    cbn [segments_from]. f_equal.
    pose proof (same_line_run_le (strncpy 29 l) rest).
    apply IH; rewrite length_skipn; simpl in *; lia.
Qed.

Lemma segments_from_cons fuel i l rest :
  segments_from (S fuel) i (l :: rest)
  = mkSegment (strncpy 29 l) i (i + Z.of_nat (same_line_run (strncpy 29 l) rest))
    :: segments_from fuel (i + Z.of_nat (same_line_run (strncpy 29 l) rest) + 1)
         (skipn (same_line_run (strncpy 29 l) rest) rest).
Proof. reflexivity. Qed.

Lemma segments_from_one fuel i l :
  segments_from (S fuel) i [l] = [mkSegment (strncpy 29 l) i i].
Proof.
  rewrite segments_from_cons. cbn [same_line_run skipn]. rewrite Z.add_0_r.
  destruct fuel; reflexivity.
Qed.

(** A label equal to the one before it goes into its segment. *)
Lemma segments_from_same fuel i l rest :
  (String.length l <= 29)%nat -> (List.length rest < fuel)%nat ->
  segments_from (S fuel) i (l :: l :: rest)
  = match segments_from fuel (i + 1) (l :: rest) with
    | sg :: segs => mkSegment (seg_line sg) i (seg_e sg) :: segs
    | [] => []
    end.
Proof.
  intros Hl Hf. destruct fuel as [|f]; [lia|].
  rewrite (segments_from_cons (S f)), (segments_from_cons f (i + 1)).
  rewrite (strncpy_short 29 l Hl).
  cbn [same_line_run]. rewrite String.eqb_refl. cbn [skipn seg_line seg_e].
  f_equal; [f_equal; lia|].
  pose proof (same_line_run_le l rest).
  replace (i + Z.of_nat (S (same_line_run l rest)) + 1)
    with (i + 1 + Z.of_nat (same_line_run l rest) + 1) by lia.
  apply segments_from_fuel; rewrite length_skipn; lia.
Qed.

(** A label that differs from the one before it starts a segment. *)
Lemma segments_from_new fuel i l l' rest :
  (String.length l <= 29)%nat -> l' <> l ->
  segments_from (S fuel) i (l :: l' :: rest)
  = mkSegment l i i :: segments_from fuel (i + 1) (l' :: rest).
Proof.
  intros Hl Hne. rewrite segments_from_cons, (strncpy_short 29 l Hl).
  cbn [same_line_run]. apply String.eqb_neq in Hne. rewrite Hne.
  cbn [skipn]. rewrite Z.add_0_r. reflexivity.
Qed.

Lemma seg_labels_grow l i e :
  i + 1 <= e + 1 ->
  seg_labels (mkSegment l i e) = l :: seg_labels (mkSegment l (i + 1) e).
Proof.
  intros H. unfold seg_labels, seg_stops. cbn [seg_line seg_s seg_e].
  replace (Z.to_nat (e - i + 1)) with (S (Z.to_nat (e - (i + 1) + 1))) by lia.
  reflexivity.
Qed.

(** What the segment loop makes of the labels from edge [i] on. *)
Lemma segments_from_partition labels : forall fuel i,
  labels_fit labels -> (List.length labels <= fuel)%nat ->
  List.concat (map seg_labels (segments_from fuel i labels)) = labels
  /\ chained i (i + Z.of_nat (List.length labels)) (segments_from fuel i labels)
  /\ lines_alternate (segments_from fuel i labels)
  /\ (forall l rest, labels = l :: rest ->
        exists sg segs, segments_from fuel i labels = sg :: segs
                        /\ seg_line sg = l).
Proof.
  induction labels as [|l rest IH]; intros fuel i Hfit Hfuel.
  - destruct fuel; simpl; (repeat split; [lia | discriminate]).
  - destruct fuel as [|f]; [simpl in Hfuel; lia|].
    assert (Hl : (String.length l <= 29)%nat) by now inversion Hfit.
    assert (Hrest : labels_fit rest) by now inversion Hfit.
    destruct rest as [|l' rest'].
    + rewrite segments_from_one, (strncpy_short 29 l Hl).
      cbn [map List.concat chained lines_alternate seg_s seg_e List.length].
      unfold seg_labels, seg_stops. cbn [seg_line seg_s seg_e].
      replace (Z.to_nat (i - i + 1)) with 1%nat by lia.
      repeat split; try lia.
      intros l0 r0 E. injection E as <- <-. eauto.
    + destruct (IH f (i + 1) Hrest ltac:(simpl in *; lia))
        as [Hcat [Hch [Halt Hhd]]].
      destruct (Hhd l' rest' eq_refl) as [sg [segs [Es Hline]]].
      destruct (String.eqb_spec l' l) as [-> | Hne].
      * rewrite segments_from_same by (simpl in *; lia || assumption).
        rewrite Es in *. cbn [map List.concat chained lines_alternate] in *.
        destruct Hch as [Hs [Hse Hch]].
        split; [|split; [|split]].
        -- destruct sg as [sl ss se]. cbn [seg_line seg_s seg_e] in *.
           subst sl ss. rewrite seg_labels_grow by lia.
           cbn [app]. now rewrite Hcat.
        -- cbn [seg_s seg_e]. split; [reflexivity|]. split; [lia|].
           replace (i + Z.of_nat (List.length (l :: l :: rest')))
             with (i + 1 + Z.of_nat (List.length (l :: rest')))
             by (cbn [List.length]; lia).
           exact Hch.
        -- destruct segs as [|sg2 segs2]; [exact I|].
           cbn [seg_line]. exact Halt.
        -- intros l0 r0 E. injection E as <- <-.
           eexists _, _. split; [reflexivity | exact Hline].
      * rewrite segments_from_new by assumption.
        rewrite Es in *. cbn [map List.concat chained lines_alternate] in *.
        split; [|split; [|split]].
        -- unfold seg_labels at 1, seg_stops. cbn [seg_line seg_s seg_e].
           replace (Z.to_nat (i - i + 1)) with 1%nat by lia.
           cbn [repeat app]. now rewrite Hcat.
        -- cbn [seg_s seg_e]. split; [reflexivity|]. split; [lia|].
           replace (i + Z.of_nat (List.length (l :: l' :: rest')))
             with (i + 1 + Z.of_nat (List.length (l' :: rest')))
             by (cbn [List.length]; lia).
           exact Hch.
        -- cbn [seg_line]. split; [congruence | exact Halt].
        -- intros l0 r0 E. injection E as <- <-.
           eexists _, _. split; reflexivity.
Qed.

(** *** Labels over a network whose edges share a line *)

Lemma match_line_some la lbs l :
  match_line la lbs = Some l -> l = strncpy 29 la /\ In la lbs.
Proof.
  induction lbs as [|lb rest IH]; simpl; [discriminate|].
  destruct (String.eqb_spec la lb) as [-> | Hne].
  - intros H. apply Some_eq in H. split; [now symmetry | now left].
  - intros H. destruct (IH H). split; [assumption | now right].
Qed.

Lemma match_line_none la lbs : match_line la lbs = None -> ~ In la lbs.
Proof.
  induction lbs as [|lb rest IH]; simpl; [tauto|].
  destruct (String.eqb_spec la lb) as [-> | Hne]; [discriminate|].
  intros H [E | Hin]; [congruence | now apply IH].
Qed.

Lemma shared_line_some las lbs l :
  shared_line las lbs = Some l ->
  exists la, l = strncpy 29 la /\ In la las /\ In la lbs.
Proof.
  induction las as [|la rest IH]; simpl; [discriminate|].
  destruct (match_line la lbs) as [l0|] eqn:E.
  - intros H. apply Some_eq in H. subst l0.
    destruct (match_line_some _ _ _ E). exists la. auto.
  - intros H. destruct (IH H) as [x [H1 [H2 H3]]]. exists x. auto.
Qed.

Lemma shared_line_none las lbs :
  shared_line las lbs = None -> forall l, In l las -> ~ In l lbs.
Proof.
  induction las as [|la rest IH]; simpl; [tauto|].
  destruct (match_line la lbs) as [l0|] eqn:E; [discriminate|].
  intros H l [<- | Hin]; [now apply match_line_none | now apply IH].
Qed.

Lemma edge_line_fits g a b : (String.length (edge_line g a b) <= 29)%nat.
Proof.
  unfold edge_line.
  destruct (shared_line _ _) as [l|] eqn:E; [|simpl; lia].
  destruct (shared_line_some _ _ _ E) as [la [-> _]]. apply strncpy_length.
Qed.

Lemma build_edge_lines_fit g path : labels_fit (build_edge_lines g path).
Proof.
  induction path as [|a t IH]; [constructor|].
  destruct t as [|b t']; [constructor|].
  change (build_edge_lines g (a :: b :: t'))
    with (edge_line g a b :: build_edge_lines g (b :: t')).
  constructor; [apply edge_line_fits | exact IH].
Qed.

Lemma build_edge_lines_length g path :
  Z.of_nat (List.length (build_edge_lines g path))
  = Z.max 0 (Z.of_nat (List.length path) - 1).
Proof.
  induction path as [|a t IH]; [reflexivity|].
  destruct t as [|b t']; [reflexivity|].
  change (build_edge_lines g (a :: b :: t'))
    with (edge_line g a b :: build_edge_lines g (b :: t')).
  cbn [List.length] in *. lia.
Qed.

(** The label of an edge whose ends share a line is a line of both. *)
Lemma edge_line_shared g a b :
  lines_fit g ->
  (exists l, In l (lines (stations g a)) /\ In l (lines (stations g b))) ->
  In (edge_line g a b) (lines (stations g a))
  /\ In (edge_line g a b) (lines (stations g b)).
Proof.
  intros Hfit [l [Ha Hb]]. unfold edge_line.
  destruct (shared_line _ _) as [l0|] eqn:E.
  - destruct (shared_line_some _ _ _ E) as [la [-> [H1 H2]]].
    rewrite strncpy_short by (eapply Hfit; exact H1). now split.
  - exfalso. exact (shared_line_none _ _ E l Ha Hb).
Qed.

Lemma two_lines_counted g b l1 l2 :
  In l1 (lines (stations g b)) -> In l2 (lines (stations g b)) -> l1 <> l2 ->
  1 < line_count (stations g b).
Proof.
  unfold line_count. destruct (lines (stations g b)) as [|x [|y r]]; simpl.
  - tauto.
  - intros [<- | []] [<- | []] H. contradiction.
  - intros _ _ _. lia.
Qed.

Lemma count_interchanges_nonneg g path : 0 <= count_interchanges g path.
Proof.
  induction path as [|a t IH]; simpl; [lia|].
  destruct (1 <? line_count (stations g a)); lia.
Qed.

(** Every change of line along the path happens at a station that is
    counted as an interchange. *)
Lemma segments_interchanges g : forall path fuel i,
  lines_fit g -> edges_share_line g ->
  linked (fun u v => adj g u v <> 0) path ->
  (List.length path <= S fuel)%nat ->
  Z.of_nat (List.length (segments_from fuel i (build_edge_lines g path))) - 1
  <= count_interchanges g (tl path).
Proof.
  intros path fuel i Hfit Hshare. revert fuel i.
  induction path as [|a t IH]; intros fuel i Hl Hfuel.
  - destruct fuel; simpl; lia.
  - destruct t as [|b t'].
    + destruct fuel; simpl; lia.
    + change (linked (fun u v => adj g u v <> 0) (a :: b :: t'))
        with (adj g a b <> 0 /\ linked (fun u v => adj g u v <> 0) (b :: t')) in Hl.
      destruct Hl as [Hab Hl]. cbn [tl].
      destruct fuel as [|f]; [simpl in Hfuel; lia|].
      specialize (IH f (i + 1) Hl ltac:(simpl in *; lia)). cbn [tl] in IH.
      destruct t' as [|c t''].
      * change (build_edge_lines g [a; b]) with [edge_line g a b].
        rewrite segments_from_one. simpl.
        destruct (1 <? line_count (stations g b)); lia.
      * change (build_edge_lines g (a :: b :: c :: t''))
          with (edge_line g a b :: edge_line g b c
                :: build_edge_lines g (c :: t'')) in *.
        change (build_edge_lines g (b :: c :: t''))
          with (edge_line g b c :: build_edge_lines g (c :: t'')) in IH.
        destruct Hl as [Hbc Hl].
        pose proof (edge_line_fits g a b) as F1.
        pose proof (count_interchanges_nonneg g (c :: t'')) as Hnn.
        change (count_interchanges g (b :: c :: t''))
          with ((if 1 <? line_count (stations g b) then 1 else 0)
                + count_interchanges g (c :: t'')).
        destruct (String.eqb_spec (edge_line g b c) (edge_line g a b)) as [E | E].
        -- rewrite E in *. rewrite segments_from_same.
           ++ destruct (segments_from f (i + 1) _) as [|sg segs].
              ** cbn [List.length] in *.
                 destruct (1 <? line_count (stations g b)); lia.
              ** cbn [List.length] in *.
                 destruct (1 <? line_count (stations g b)); lia.
           ++ exact F1.
           ++ pose proof (build_edge_lines_length g (c :: t'')) as Hlen.
              cbn [List.length] in *. lia.
        -- rewrite segments_from_new by assumption.
           destruct (edge_line_shared g a b Hfit (Hshare a b Hab)) as [_ L1].
           destruct (edge_line_shared g b c Hfit (Hshare b c Hbc)) as [L2 _].
           assert (Hb : 1 < line_count (stations g b))
             by (eapply two_lines_counted; [exact L1 | exact L2 | congruence]).
           apply Z.ltb_lt in Hb. rewrite Hb.
           cbn [List.length]. lia.
Qed.

(** X15. The segment table of labels that fit their slots: written out
    stop by stop it gives the labels back; its segments follow one
    another from the first edge to the last, each with at least one stop;
    and neighbouring segments are on different lines. *)
Theorem segments_partition labels :
  labels_fit labels ->
  List.concat (map seg_labels (segments labels)) = labels
  /\ chained 0 (Z.of_nat (List.length labels)) (segments labels)
  /\ lines_alternate (segments labels).
Proof.
  intros Hfit. unfold segments.
  destruct (segments_from_partition labels (List.length labels) 0 Hfit (le_n _))
    as [H1 [H2 [H3 _]]].
  split; [exact H1|]. split; [exact H2 | exact H3].
Qed.

(** X16. Along a sequence of edges of a network in which the two ends of
    every edge share a line: the label of each edge is a line of both its
    ends, never the sentinel taken for want of one, and the number of
    changes of line in the segment table is at most the number of
    stations counted as interchanges. *)
Theorem route_labels_and_interchanges g path :
  lines_fit g -> edges_share_line g ->
  linked (fun u v => adj g u v <> 0) path ->
  (forall a b, In (a, b) (consecutive path) ->
     In (edge_line g a b) (lines (stations g a))
     /\ In (edge_line g a b) (lines (stations g b)))
  /\ Z.of_nat (List.length (segments (build_edge_lines g path))) - 1
     <= count_interchanges g path.
Proof.
  intros Hfit Hshare Hl. split.
  - rewrite linked_consecutive in Hl. intros a b Hab.
    apply edge_line_shared; [exact Hfit | apply Hshare; now apply Hl].
  - unfold segments.
    pose proof (build_edge_lines_length g path) as Hlen.
    destruct path as [|a t]; [simpl; lia|].
    destruct (build_edge_lines g (a :: t)) as [|l ls] eqn:E.
    + cbn [List.length segments_from].
      pose proof (count_interchanges_nonneg g (a :: t)). lia.
    + rewrite <- E.
      pose proof (segments_interchanges g (a :: t)
                    (List.length (build_edge_lines g (a :: t))) 0
                    Hfit Hshare Hl) as H.
      cbn [tl] in H.
      change (count_interchanges g (a :: t))
        with ((if 1 <? line_count (stations g a) then 1 else 0)
              + count_interchanges g t).
      assert (Hf : (List.length (a :: t)
                    <= S (List.length (build_edge_lines g (a :: t))))%nat).
      { rewrite E in *. cbn [List.length] in *. lia. }
      specialize (H Hf).
      destruct (1 <? line_count (stations g a)); lia.
Qed.

(** ** Suggestions *)

Lemma strncmp_zero_prefix p : forall key,
  strncmp_zero (String.length p) key p = String.prefix p key.
Proof.
  induction p as [|d p' IH]; intros key; [destruct key; reflexivity|].
  destruct key as [|c key']; [reflexivity|].
  cbn [String.length strncmp_zero String.prefix].
  destruct (Ascii.eqb_spec c d) as [-> | Hne].
  - destruct (ascii_dec d d) as [_ | H]; [apply IH | contradiction].
  - destruct (ascii_dec d c) as [H | _]; [congruence | reflexivity].
Qed.

Lemma autocomplete_loop_names tbl prefix k : forall i printed out,
  autocomplete_loop tbl prefix k i printed out
  = out ++ firstn (Z.to_nat (20 - printed))
             (map shown_name
                (filter (fun s => String.prefix prefix (key_name s))
                        (table_from tbl i k))).
Proof.
  induction k as [|k IH]; intros i printed out.
  - simpl. now rewrite firstn_nil, app_nil_r.
  - cbn [autocomplete_loop table_from filter].
    rewrite strncmp_zero_prefix.
    destruct (Z.ltb_spec printed 20) as [Hlt | Hge].
    + destruct (String.prefix prefix (key_name (tbl i))).
      * rewrite IH, <- app_assoc. cbn [map app].
        replace (Z.to_nat (20 - printed)) with (S (Z.to_nat (20 - (printed + 1))))
          by lia.
        reflexivity.
      * apply IH.
    + replace (Z.to_nat (20 - printed)) with O by lia.
      now rewrite firstn_O, app_nil_r.
Qed.

Lemma autocomplete_print_names g prefix :
  autocomplete_print g prefix = firstn 20 (names_with_prefix g prefix).
Proof. unfold autocomplete_print. rewrite autocomplete_loop_names. reflexivity. Qed.

Lemma firstn_in {A} n (l : list A) x : In x (firstn n l) -> In x l.
Proof.
  intros H. rewrite <- (firstn_skipn n l). apply in_or_app. now left.
Qed.

(** X18. [autocomplete_print] prints the names shown for the first 20
    registered stations, in the order of their ids, whose key begins with
    the prefix, and every name it prints is such a station's. *)
Theorem autocomplete_print_first_20 g prefix :
  autocomplete_print g prefix = firstn 20 (names_with_prefix g prefix)
  /\ (List.length (autocomplete_print g prefix) <= 20)%nat
  /\ forall nm, In nm (autocomplete_print g prefix) ->
       exists id, station_id g id
                  /\ String.prefix prefix (key_name (stations g id)) = true
                  /\ nm = shown_name (stations g id).
Proof.
  pose proof (autocomplete_print_names g prefix) as E.
  split; [exact E|]. split; [rewrite E; apply firstn_le_length|].
  intros nm Hin. rewrite E in Hin. apply firstn_in in Hin.
  unfold names_with_prefix in Hin. apply in_map_iff in Hin.
  destruct Hin as [s [<- Hs]]. apply filter_In in Hs. destruct Hs as [Hs Hp].
  unfold station_list in Hs.
  assert (Hgen : forall k i, In s (table_from (stations g) i k) ->
                   exists id, i <= id < i + Z.of_nat k /\ s = stations g id).
  { induction k as [|k IH]; intros i; simpl; [tauto|].
    intros [<- | H]; [exists i; split; [lia | reflexivity]|].
    destruct (IH _ H) as [id [Hid ->]]. exists id. split; [lia | reflexivity]. }
  destruct (Hgen _ _ Hs) as [id [Hid ->]].
  exists id. split; [unfold station_id; lia | now split].
Qed.

(** ** Display names *)

Lemma append_assoc (a b c : string) : ((a ++ b) ++ c = a ++ (b ++ c))%string.
Proof. induction a as [|x a IH]; simpl; [reflexivity | now rewrite IH]. Qed.

Lemma append_empty_r (a : string) : (a ++ "" = a)%string.
Proof. induction a as [|x a IH]; simpl; [reflexivity | now rewrite IH]. Qed.

Lemma append_length (a b : string) :
  String.length (a ++ b) = (String.length a + String.length b)%nat.
Proof. induction a as [|x a IH]; simpl; [reflexivity | now rewrite IH]. Qed.

Lemma get_after (a : string) c r :
  String.get (String.length a) (a ++ String c r) = Some c.
Proof. induction a as [|x a IH]; simpl; [reflexivity | exact IH]. Qed.

Lemma substring_middle (pre body post : string) :
  String.substring (String.length pre) (String.length body)
                   (pre ++ body ++ post) = body.
Proof.
  induction pre as [|x pre IH]; [|exact IH].
  cbn [String.length append]. clear.
  induction body as [|y body IH]; simpl; [destruct post; reflexivity|].
  now rewrite IH.
Qed.

(** The white space at the start. *)
Lemma leading_split (t : string) :
  exists pre r,
    t = (pre ++ r)%string /\ forall_chars isspace pre = true
    /\ starts_space r = false
    /\ leading_spaces t = Z.of_nat (String.length pre).
Proof.
  induction t as [|c t IH].
  - exists "", "". repeat split.
  - destruct IH as [pre [r [E [Hp [Hr Hl]]]]].
    destruct (isspace c) eqn:Hc.
    + exists (String c pre), r. cbn [append forall_chars leading_spaces String.length].
      rewrite Hc, Hp, Hl, <- E. repeat split; [exact Hr | lia].
    + exists "", (String c t). cbn [append forall_chars leading_spaces starts_space String.length].
      rewrite Hc. repeat split.
Qed.

(** The white space at the end. *)
Lemma trailing_split (r : string) :
  exists body post,
    r = (body ++ post)%string /\ forall_chars isspace post = true
    /\ (body = ""
        \/ exists b c, body = (b ++ String c "")%string /\ isspace c = false).
Proof.
  induction r as [|c r IH].
  - exists "", "". repeat split. now left.
  - destruct IH as [body [post [E [Hp Hb]]]].
    destruct Hb as [-> | [b [x [-> Hx]]]].
    + simpl in E. subst r. destruct (isspace c) eqn:Hc.
      * exists "", (String c post). cbn [append forall_chars].
        rewrite Hc, Hp. repeat split. now left.
      * exists (String c ""), post. repeat split; [exact Hp|].
        right. exists "", c. now split.
    + exists (String c (b ++ String x "")), post.
      cbn [append]. rewrite E. repeat split; [exact Hp|].
      right. exists (String c b), x. now split.
Qed.

(** The backward loop passes over white space. *)
Lemma last_nonspace_skip (t2 : string) : forall t1,
  forall_chars isspace t2 = true ->
  last_nonspace (t1 ++ t2) (String.length (t1 ++ t2))
  = last_nonspace (t1 ++ t2) (String.length t1).
Proof.
  induction t2 as [|c r IH]; intros t1 H.
  - now rewrite append_empty_r.
  - cbn [forall_chars] in H. apply andb_true_iff in H. destruct H as [Hc Hr].
    replace (t1 ++ String c r)%string with ((t1 ++ String c "") ++ r)%string
      by (rewrite append_assoc; reflexivity).
    rewrite (IH (t1 ++ String c "")%string Hr).
    rewrite append_length. cbn [String.length].
    replace (String.length t1 + 1)%nat with (S (String.length t1)) by lia.
    cbn [last_nonspace].
    rewrite append_assoc. cbn [append]. rewrite get_after, Hc. reflexivity.
Qed.

Lemma last_nonspace_stop (b : string) c post :
  isspace c = false ->
  last_nonspace (b ++ String c post) (S (String.length b))
  = Z.of_nat (String.length b).
Proof. intros Hc. cbn [last_nonspace]. now rewrite get_after, Hc. Qed.

Lemma starts_space_append (a b : string) :
  a <> "" -> starts_space (a ++ b) = starts_space a.
Proof. destruct a; [contradiction | reflexivity]. Qed.

Lemma ends_space_last (b : string) c :
  ends_space (b ++ String c "") = isspace c.
Proof.
  induction b as [|x b IH]; [reflexivity|].
  cbn [append]. destruct (b ++ String c "")%string eqn:E; [|exact IH].
  destruct b; discriminate.
Qed.

(** X5. The display name stored for a new station is the raw name, cut
    to its first 79 characters, without the white space at its two ends:
    what is removed is white space only, and what is left neither starts
    nor ends with white space. *)
Theorem trim_display_trims display :
  exists pre post,
    strncpy 79 display = (pre ++ trim_display display ++ post)%string
    /\ forall_chars isspace pre = true
    /\ forall_chars isspace post = true
    /\ starts_space (trim_display display) = false
    /\ ends_space (trim_display display) = false.
Proof.
  unfold trim_display.
  pose proof (strncpy_length 79 display) as Hlen.
  set (t := strncpy 79 display) in *. cbv zeta.
  destruct (leading_split t) as [pre [r [E [Hpre [Hr Hl]]]]].
  destruct (trailing_split r) as [body [post [Er [Hpost Hbody]]]].
  rewrite Hl.
  destruct Hbody as [-> | [b [c [-> Hc]]]].
  - simpl in Er. subst r.
    assert (Hall : forall_chars isspace post = true -> post = "").
    { destruct post as [|x post]; [reflexivity|]. simpl in Hr. simpl.
      rewrite Hr. discriminate. }
    rewrite (Hall Hpost) in *. rewrite append_empty_r in E. subst pre.
    pose proof (last_nonspace_skip t "" Hpre) as Hskip. cbn [append] in Hskip.
    rewrite Hskip. cbn [String.length last_nonspace].
    destruct (Z.leb_spec (Z.of_nat (String.length t)) (-1)) as [H | _]; [lia|].
    exists t, "". rewrite append_empty_r. repeat split. exact Hpre.
  - subst r.
    assert (Et : t = ((pre ++ b) ++ String c post)%string).
    { rewrite E, !append_assoc. reflexivity. }
    assert (He : last_nonspace t (String.length t)
                 = Z.of_nat (String.length (pre ++ b))).
    { replace t with (((pre ++ b) ++ String c "") ++ post)%string
        by (rewrite Et, !append_assoc; reflexivity).
      rewrite (last_nonspace_skip post _ Hpost).
      rewrite append_length. cbn [String.length].
      replace (String.length (pre ++ b) + 1)%nat
        with (S (String.length (pre ++ b))) by lia.
      rewrite append_assoc. cbn [append]. now apply last_nonspace_stop. }
    rewrite He, append_length.
    assert (Hfit : (String.length pre + String.length b + 1
                    + String.length post <= 79)%nat).
    { rewrite Et in Hlen. rewrite !append_length in Hlen.
      cbn [String.length] in Hlen. lia. }
    destruct (Z.leb_spec (Z.of_nat (String.length pre))
                (Z.of_nat (String.length pre + String.length b))) as [_ | H];
      [|lia].
    replace (Z.to_nat (Z.min (Z.of_nat (String.length pre + String.length b)
                              - Z.of_nat (String.length pre) + 1) 79))
      with (String.length (b ++ String c "")%string)
      by (rewrite append_length; cbn [String.length]; lia).
    rewrite Nat2Z.id.
    replace t with (pre ++ (b ++ String c "") ++ post)%string
      by (rewrite E, !append_assoc; reflexivity).
    rewrite substring_middle.
    exists pre, post. split; [reflexivity|]. split; [exact Hpre|].
    split; [exact Hpost|]. split.
    + rewrite append_assoc in Hr. destruct b as [|x b]; [exact Hr | exact Hr].
    + rewrite ends_space_last. exact Hc.
Qed.

(** ** Fares *)

Lemma ids_from_in k : forall i v, i <= v < i + Z.of_nat k -> In v (ids_from i k).
Proof.
  induction k as [|k IH]; intros i v Hv; [lia|].
  destruct (Z.eq_dec v i) as [-> | Hne]; [now left | right].
  apply IH. lia.
Qed.

Lemma fares_agree : forallb fare_agrees (ids_from 0 400) = true.
Proof. vm_compute. reflexivity. Qed.

Lemma fare_of_route edges :
  0 <= edges < MAX ->
  fare_from_distance (distance_of_edges edges) = fare_of_edges edges
  /\ fare_from_distance (distance_by_sum edges) = fare_of_edges edges.
Proof.
  intros He. pose proof fares_agree as H. rewrite forallb_forall in H.
  specialize (H edges (ids_from_in 400 0 edges He)).
  unfold fare_agrees in H. apply andb_true_iff in H.
  rewrite !Z.eqb_eq in H. exact H.
Qed.

Lemma fare_of_edges_slabs edges :
  In (fare_of_edges edges) [10; 20; 30; 40; 50; 60; 70; 80; 90].
Proof.
  unfold fare_of_edges.
  repeat (match goal with |- context [if ?b then _ else _] => destruct b end);
    simpl; tauto.
Qed.

Lemma fare_of_edges_mono e1 e2 :
  e1 <= e2 -> fare_of_edges e1 <= fare_of_edges e2.
Proof.
  intros H. unfold fare_of_edges.
  repeat (match goal with
          | |- context [?a <=? ?b] => destruct (Z.leb_spec a b)
          end); lia.
Qed.

(** X4. The fare of a journey of up to 399 stops is the slab of its
    number of stops, whichever way the report adds up the distance: as
    the product of the stops and 1.1 km ([get_route], the text report) or
    as the sum of 1.1 km over the stops (the terminal summary, the HTML
    report). The fare is one of the nine slabs from 10 to 90 and never
    falls when stops are added. *)
Theorem fare_by_stops edges :
  0 <= edges < MAX ->
  fare_from_distance (distance_of_edges edges) = fare_of_edges edges
  /\ fare_from_distance (distance_by_sum edges) = fare_of_edges edges
  /\ In (fare_of_edges edges) [10; 20; 30; 40; 50; 60; 70; 80; 90]
  /\ forall more, edges <= more -> fare_of_edges edges <= fare_of_edges more.
Proof.
  intros He. destruct (fare_of_route edges He) as [H1 H2].
  split; [exact H1|]. split; [exact H2|].
  split; [apply fare_of_edges_slabs | intros more; apply fare_of_edges_mono].
Qed.

(** ** The network of the program: one piece *)

Lemma build_network_adj g include_planned :
  option_map adj (build_network g include_planned) = Some (adj metro).
Proof. vm_compute. reflexivity. Qed.

Lemma built_like_metro g include_planned g' :
  build_network g include_planned = Some g' ->
  stationCount g' = stationCount metro /\ adj g' = adj metro.
Proof.
  intros E. pose proof (build_network_count g include_planned) as C.
  pose proof (build_network_adj g include_planned) as A.
  rewrite E in C, A. cbn [option_map] in C, A.
  apply Some_eq in C. apply Some_eq in A.
  rewrite metro_count. split; assumption.
Qed.

Lemma route_same_graph g h blocked_a blocked_b blocked_count src dest p :
  stationCount g = stationCount h -> adj g = adj h ->
  route g blocked_a blocked_b blocked_count src dest p ->
  route h blocked_a blocked_b blocked_count src dest p.
Proof.
  intros C A [H1 [H2 [H3 H4]]]. repeat split; try assumption.
  - eapply Forall_impl; [|exact H3]. unfold station_id. intros x. now rewrite C.
  - revert H4. apply linked_weaken. unfold open_edge. intros u v. now rewrite A.
Qed.

Lemma metro_reached : forallb (reaches metro 0) (ids_from 0 82) = true.
Proof. vm_cast_no_check (eq_refl true). Qed.

Lemma metro_symmetric : forall u v, adj metro u v = adj metro v u.
Proof. exact (proj1 (build_network_keeps _ _ _ metro_built)). Qed.

(** Any two stations of the network are joined by a route. *)
Lemma metro_connected a b :
  station_id metro a -> station_id metro b ->
  exists p, route metro None None 0 a b p.
Proof.
  assert (H0 : station_id metro 0) by (apply metro_station; lia).
  assert (Hfrom0 : forall d, station_id metro d ->
                     exists p, route metro None None 0 0 d p).
  { intros d Hd. unfold station_id in Hd. rewrite metro_count in Hd.
    pose proof metro_reached as H. rewrite forallb_forall in H.
    specialize (H d (ids_from_in 82 0 d ltac:(lia))). unfold reaches in H.
    destruct (shortest_path metro 0 d None None 0) as [[p|]|] eqn:E;
      try discriminate.
    exists p. exact (proj1 (shortest_path_found _ _ _ _ _ _ _ H0 metro_fits E)). }
  intros Ha Hb. destruct (Hfrom0 a Ha) as [p Hp]. destruct (Hfrom0 b Hb) as [q Hq].
  exists (rev p ++ tl q). eapply route_join; [|exact Hq].
  apply route_rev; [exact metro_symmetric | exact Hp].
Qed.

(** Between any two stations of a built network the search finds a
    path. *)
Lemma built_network_search g include_planned g' a b :
  build_network g include_planned = Some g' ->
  station_id g' a -> station_id g' b ->
  exists p, shortest_path g' a b None None 0 = Some (Found p)
            /\ route g' None None 0 a b p
            /\ forall p', route g' None None 0 a b p' -> hops p <= hops p'.
Proof.
  intros E Ha Hb. destruct (built_like_metro _ _ _ E) as [C A].
  assert (Hfit : stationCount g' <= MAX) by (rewrite C; apply metro_fits).
  destruct (metro_connected a b) as [p0 Hp0];
    [unfold station_id in *; now rewrite <- C ..|].
  apply (route_same_graph metro g') in Hp0; [|now symmetry ..].
  destruct (shortest_path_finds _ _ _ _ _ _ _ Ha Hfit Hp0) as [p [Ep [Hp _]]].
  exists p. split; [exact Ep|].
  exact (shortest_path_found _ _ _ _ _ _ _ Ha Hfit Ep).
Qed.

(** ** The answer of [get_route] *)

Lemma id_of_key_station g key :
  id_of_key g key <> -1 -> station_id g (id_of_key g key).
Proof.
  intros H. destruct (id_of_key_cases g key) as [[E _] | [Hs _]];
    [contradiction | exact Hs].
Qed.

Lemma get_route_names g g' from to :
  build_network g 1 = Some g' -> from <> "" -> to <> "" ->
  exists reply,
    get_route g (Some from) (Some to) = Some (g', reply)
    /\ right_answer g' from to reply.
Proof.
  intros E Hf Ht. unfold get_route. rewrite E.
  destruct (built_like_metro _ _ _ E) as [C A]. rewrite metro_count in C.
  rewrite C. change (82 =? 0) with false. cbv iota.
  destruct from as [|f0 fr]; [contradiction|].
  destruct to as [|t0 tr]; [contradiction|].
  destruct (build_network_sound _ _ _ E) as [Hd _].
  fold (key_of (String f0 fr)). fold (key_of (String t0 tr)).
  rewrite (find_stations_ids g' 1 _ _ Hd) by (left; discriminate).
  unfold right_answer.
  set (s := id_of_key g' (key_of (String f0 fr))).
  set (d := id_of_key g' (key_of (String t0 tr))).
  cbv zeta.
  destruct (Z.eqb_spec s (-1)) as [Es | Es], (Z.eqb_spec d (-1)) as [Ed | Ed];
    cbn [andb]; eauto.
  destruct (built_network_search g 1 g' s d E) as [p [Ep [Hr Hmin]]];
    [now apply id_of_key_station ..|].
  rewrite Ep. eexists. split; [reflexivity|].
  exists p. split; [|split; assumption].
  assert (Hhops : 0 <= hops p < MAX).
  { destruct (fewest_hops_simple g' None None 0 s d p) as [_ Hlen];
      [lia | exact Hr | exact Hmin |].
    destruct Hr as [Hhd _]. unfold hops, MAX.
    destruct p; [discriminate | cbn [List.length] in *; lia]. }
  fold (hops p). now rewrite (proj1 (fare_of_route (hops p) Hhops)).
Qed.

(** X20. [get_route] always returns, inside its arrays, after building
    the network anew. For two non-empty names it looks the two keys up as
    the registry does, answers which of them is not a station's, and
    otherwise gives the summary of a route between the two stations with
    the fewest hops; it never answers that there is no route. A null or
    empty name is answered with the request for both names. *)
Theorem get_route_answers g from to :
  exists g' reply,
    get_route g from to = Some (g', reply)
    /\ build_network g 1 = Some g'
    /\ match from, to with
       | Some f, Some t =>
           if (f =? "")%string || (t =? "")%string then reply = MissingInput
           else right_answer g' f t reply
       | _, _ => reply = MissingInput
       end.
Proof.
  destruct (build_network_returns g 1) as [g' E]. exists g'.
  destruct (built_like_metro _ _ _ E) as [C _]. rewrite metro_count in C.
  assert (Hmiss : forall from to,
            match from, to with
            | Some (String _ _), Some (String _ _) => False
            | _, _ => True
            end ->
            get_route g from to = Some (g', MissingInput)).
  { intros f t H. unfold get_route. rewrite E, C. change (82 =? 0) with false.
    cbv iota. destruct f as [[|f0 fr]|], t as [[|t0 tr]|];
      try reflexivity; contradiction. }
  destruct from as [f|]; [|exists MissingInput; split; [now apply Hmiss | now split]].
  destruct to as [t|];
    [|exists MissingInput; split; [apply Hmiss; now destruct f | now split]].
  destruct (String.eqb_spec f "") as [-> | Hf].
  { exists MissingInput. split; [now apply Hmiss | now split]. }
  destruct (String.eqb_spec t "") as [-> | Ht].
  { exists MissingInput. split; [apply Hmiss; now destruct f | now split]. }
  destruct (get_route_names g g' f t E Hf Ht) as [reply [H1 H2]].
  exists reply. split; [exact H1|]. split; [exact E | exact H2].
Qed.

(** ** Choice 1 of [main] *)

Lemma at_index_ends (p : list Z) s d :
  hd_error p = Some s -> last p s = d ->
  at_index p 0 = s /\ at_index p (plen p - 1) = d.
Proof.
  intros Hhd Hlast. unfold at_index, plen.
  destruct p as [|a t]; [discriminate|]. simpl in Hhd. injection Hhd as ->.
  split; [reflexivity|].
  replace (Z.to_nat (Z.of_nat (List.length (s :: t)) - 1))
    with (List.length t) by (cbn [List.length]; lia).
  rewrite <- Hlast. generalize s at 3. intros x. clear. revert s.
  induction t as [|b t IH]; intros s; [reflexivity|].
  change (nth (List.length (b :: t)) (s :: b :: t) 0)
    with (nth (List.length t) (b :: t) 0).
  rewrite IH. reflexivity.
Qed.

(** X21. Choice 1 of [main] over a built network always comes to an end
    inside its arrays. A first name that is no station's key gets up to
    20 suggestions for it, otherwise a second one does; for two stations
    it keeps a route between them with the fewest hops, labelled edge by
    edge, with at most 3 alternates, each a route between the same two
    stations with no fewer hops, no two the same and none the kept
    route. *)
Theorem find_route_answers g0 built_with g include_planned srcraw dstra :
  build_network g0 built_with = Some g ->
  exists finding,
    find_route g include_planned srcraw dstra = Some finding
    /\ right_finding g srcraw dstra finding.
Proof.
  intros E. unfold find_route.
  destruct (built_like_metro _ _ _ E) as [C A]. rewrite metro_count in C.
  destruct (build_network_sound _ _ _ E) as [Hd [_ Hn]].
  fold (key_of srcraw). fold (key_of dstra).
  rewrite (find_stations_ids g include_planned _ _ Hd) by (now right).
  unfold right_finding.
  set (s := id_of_key g (key_of srcraw)).
  set (d := id_of_key g (key_of dstra)).
  cbv zeta.
  destruct (Z.eqb_spec s (-1)) as [Es | Es].
  { eexists. split; [reflexivity|].
    now rewrite autocomplete_print_names. }
  destruct (Z.eqb_spec d (-1)) as [Ed | Ed].
  { eexists. split; [reflexivity|].
    now rewrite autocomplete_print_names. }
  assert (Hs : station_id g s) by now apply id_of_key_station.
  assert (Hdst : station_id g d) by now apply id_of_key_station.
  assert (Hfit : stationCount g <= MAX) by (rewrite C; unfold MAX; lia).
  destruct (built_network_search g0 built_with g s d E Hs Hdst)
    as [p [Ep [Hr Hmin]]].
  rewrite Ep.
  destruct Hr as [Hhd [Hlast Hrest]].
  destruct (at_index_ends p s d Hhd Hlast) as [A0 A1].
  assert (Hsrc : station_id g (at_index p 0)) by now rewrite A0.
  destruct (find_alternates_accepted g p Hsrc Hfit) as [alts [Ea Hacc]].
  rewrite Ea. eexists. split; [reflexivity|].
  exists p, alts. split; [reflexivity|].
  split; [repeat split; tauto|]. split; [exact Hmin|].
  pose proof Hacc as [H1 [H2 [H3 _]]].
  split; [exact H1|]. split; [exact H2|]. split; [exact H3|].
  intros alt Hin.
  pose proof (accepted_routes g p _ alts alt Hsrc Hfit Hacc Hin) as Halt.
  rewrite A0, A1 in Halt. split; [exact Halt | now apply Hmin].
Qed.

(** ** The registry: what a line adds *)

Lemma Forall2_nth {A B} (P : A -> B -> Prop) l1 l2 :
  Forall2 P l1 l2 ->
  forall i d1 d2, (i < List.length l1)%nat -> P (nth i l1 d1) (nth i l2 d2).
Proof.
  induction 1 as [|a b l1 l2 Hab H IH]; intros i d1 d2 Hi; [simpl in Hi; lia|].
  destruct i as [|i]; [exact Hab|]. simpl. apply IH. simpl in Hi. lia.
Qed.

Lemma consecutive_nth (ids : list Z) : forall i,
  (S i < List.length ids)%nat ->
  In (nth i ids 0, nth (S i) ids 0) (consecutive ids).
Proof.
  induction ids as [|a t IH]; intros i Hi; [simpl in Hi; lia|].
  destruct t as [|b t']; [simpl in Hi; lia|].
  change (consecutive (a :: b :: t')) with ((a, b) :: consecutive (b :: t')).
  destruct i as [|i]; [now left | right].
  apply (IH i). simpl in *. lia.
Qed.

(** X7. A line added to a registry with distinct keys: the keys stay
    distinct, at most one station is added for each name, and every name
    of the line is then a registered station, found under its key and
    tagged with the line. *)
Theorem add_line_with_plan_registers g lineName names flags g' :
  0 <= stationCount g -> keys_distinct g ->
  (String.length lineName <= 29)%nat ->
  add_line_with_plan g lineName names flags = Some g' ->
  keys_distinct g'
  /\ stationCount g <= stationCount g'
     <= stationCount g + Z.of_nat (List.length names)
  /\ forall raw, In raw names ->
       station_id g' (id_of_key g' (key_of raw))
       /\ key_name (stations g' (id_of_key g' (key_of raw))) = key_of raw
       /\ In lineName (lines (stations g' (id_of_key g' (key_of raw)))).
Proof.
  intros Hc Hd Hlen. unfold add_line_with_plan.
  destruct (register_line _ _ _ _ _ _) as [[g1 ids]|] eqn:E; [|discriminate].
  intros H. apply Some_eq in H. subst g'.
  destruct (register_line_registry _ _ _ _ _ _ _ _ Hc Hd E)
    as [D [[C _] [Cup [new [Hids Hall]]]]].
  assert (Hsame : forall key,
            id_of_key (mkNetwork (stations g1) (stationCount g1)
                                 (connect_chain (adj g1) ids)) key
            = id_of_key g1 key) by reflexivity.
  split; [exact D|]. split; [cbn [stationCount]; lia|].
  intros raw Hraw. rewrite Hsame. cbn [stations].
  destruct (Forall2_in_left _ _ _ _ Hall Hraw) as [id [_ [Hid [Hkey Hline]]]].
  rewrite (id_of_key_unique g1 (key_of raw) id D Hid Hkey).
  split; [exact Hid|]. split; [exact Hkey | now apply Hline].
Qed.

(** X8. Adding a line keeps every station that was registered: its id,
    key, display name and planned flag stay, its lines are only added to,
    and no edge of the matrix is removed. *)
Theorem add_line_with_plan_extends g lineName names flags g' :
  0 <= stationCount g ->
  add_line_with_plan g lineName names flags = Some g' ->
  extends g g' /\ forall u v, adj g u v <> 0 -> adj g' u v <> 0.
Proof.
  intros Hc. unfold add_line_with_plan.
  destruct (register_line _ _ _ _ _ _) as [[g1 ids]|] eqn:E; [|discriminate].
  intros H. apply Some_eq in H. subst g'.
  split.
  - exact (register_line_extends _ _ _ _ _ _ _ _ Hc E).
  - intros u v Huv. cbn [adj]. apply connect_chain_one.
    now rewrite (register_line_adj _ _ _ _ _ _ _ _ E).
Qed.

(** X9. Adding a line joins every two names that follow one another in
    it and have different keys, in both directions. *)
Theorem add_line_with_plan_links g lineName names flags g' i :
  0 <= stationCount g -> keys_distinct g ->
  add_line_with_plan g lineName names flags = Some g' ->
  (S i < List.length names)%nat ->
  key_of (nth i names "") <> key_of (nth (S i) names "") ->
  adj g' (id_of_key g' (key_of (nth i names "")))
         (id_of_key g' (key_of (nth (S i) names ""))) <> 0
  /\ adj g' (id_of_key g' (key_of (nth (S i) names "")))
            (id_of_key g' (key_of (nth i names ""))) <> 0.
Proof.
  intros Hc Hd. unfold add_line_with_plan.
  destruct (register_line _ _ _ _ _ _) as [[g1 ids]|] eqn:E; [|discriminate].
  intros H Hi Hkeys. apply Some_eq in H. subst g'.
  destruct (register_line_registry _ _ _ _ _ _ _ _ Hc Hd E)
    as [D [_ [_ [new [Hids Hall]]]]].
  simpl in Hids. subst new.
  assert (Hsame : forall key,
            id_of_key (mkNetwork (stations g1) (stationCount g1)
                                 (connect_chain (adj g1) ids)) key
            = id_of_key g1 key) by reflexivity.
  rewrite !Hsame. cbn [adj].
  destruct (Forall2_nth _ _ _ Hall i "" 0 ltac:(lia)) as [A1 [A2 _]].
  destruct (Forall2_nth _ _ _ Hall (S i) "" 0 Hi) as [B1 [B2 _]].
  rewrite (id_of_key_unique g1 _ _ D A1 A2), (id_of_key_unique g1 _ _ D B1 B2).
  apply connect_chain_links.
  - apply consecutive_nth. now rewrite <- (Forall2_length Hall).
  - unfold station_id in A1. lia.
  - unfold station_id in B1. lia.
  - intros Heq. apply Hkeys. rewrite <- A2, <- B2. now rewrite Heq.
Qed.

(** X6. What [add_line_tag] does: a line the station has changes
    nothing; a new line is appended, cut to 29 characters, while fewer
    than 6 are stored, and nothing else changes; a new line for a station
    that has 6 is stored outside its [lines] array. *)
Theorem add_line_tag_outcome g id line :
  (In line (lines (stations g id)) -> add_line_tag g id line = Some g)
  /\ (~ In line (lines (stations g id)) ->
      line_count (stations g id) < LINES_CAP ->
      exists g',
        add_line_tag g id line = Some g'
        /\ lines (stations g' id) = lines (stations g id) ++ [strncpy 29 line]
        /\ line_count (stations g' id) <= LINES_CAP
        /\ key_name (stations g' id) = key_name (stations g id)
        /\ display_name (stations g' id) = display_name (stations g id)
        /\ planned (stations g' id) = planned (stations g id)
        /\ (forall j, j <> id -> stations g' j = stations g j)
        /\ stationCount g' = stationCount g /\ adj g' = adj g)
  /\ (~ In line (lines (stations g id)) ->
      LINES_CAP <= line_count (stations g id) ->
      add_line_tag g id line = None).
Proof.
  unfold add_line_tag. split; [|split].
  - intros Hin. apply has_line_iff in Hin. now rewrite Hin.
  - intros Hnew Hroom.
    destruct (has_line (lines (stations g id)) line) eqn:Hhas.
    { apply has_line_iff in Hhas. contradiction. }
    apply Z.ltb_lt in Hroom. rewrite Hroom. apply Z.ltb_lt in Hroom.
    eexists. split; [reflexivity|]. cbn [stations stationCount adj].
    rewrite upd_same. cbn [lines key_name display_name planned].
    repeat split.
    + unfold line_count in *. cbn [lines]. rewrite length_app. simpl.
      unfold LINES_CAP in *. lia.
    + intros j Hj. now apply upd_other.
  - intros Hnew Hfull.
    destruct (has_line (lines (stations g id)) line) eqn:Hhas.
    { apply has_line_iff in Hhas. contradiction. }
    destruct (Z.ltb_spec (line_count (stations g id)) LINES_CAP); [lia|].
    reflexivity.
Qed.

(** ** The lookup of a journey's ends *)

(** X19. Over a registry with distinct keys, and with planned stations
    included or none planned, the lookup loop of [get_route] and [main],
    which keeps the last station of a key, gives what the registry's own
    lookup gives, which returns the first: -1 exactly when no registered
    station has the key, and the station of the key otherwise. *)
Theorem find_stations_correct g include_planned srckey dstkey :
  keys_distinct g -> include_planned <> 0 \/ none_planned g ->
  find_stations g include_planned srckey dstkey
  = (id_of_key g srckey, id_of_key g dstkey)
  /\ (forall key,
        (id_of_key g key = -1 <->
         forall j, station_id g j -> key_name (stations g j) <> key)
        /\ (id_of_key g key <> -1 ->
            station_id g (id_of_key g key)
            /\ key_name (stations g (id_of_key g key)) = key)).
Proof.
  intros Hd Hshown. split; [now apply find_stations_ids|].
  intros key. destruct (id_of_key_cases g key) as [[E Hno] | [Hs Hk]].
  - split; [tauto | intros H; contradiction].
  - split; [|intros _; now split].
    split; [|intros Hno; exfalso; exact (Hno _ Hs Hk)].
    intros E. rewrite E in Hs. unfold station_id in Hs. lia.
Qed.

(** ** Every build *)

(** X10. Every build of the network, from any earlier state of the
    globals, ends with 82 stations with distinct keys, none planned, the
    two ends of every edge on a common line, and every station reached
    by the search from every other; the toggle of planned stations
    changes no lookup. *)
Theorem build_network_invariants g include_planned :
  exists g',
    build_network g include_planned = Some g'
    /\ stationCount g' = 82
    /\ keys_distinct g' /\ none_planned g' /\ edges_share_line g'
    /\ (forall a b, station_id g' a -> station_id g' b ->
          reaches g' a b = true)
    /\ (forall srckey dstkey,
          find_stations g' 0 srckey dstkey = find_stations g' 1 srckey dstkey).
Proof.
  destruct (build_network_returns g include_planned) as [g' E]. exists g'.
  destruct (build_network_sound _ _ _ E) as [Hd [Hs Hn]].
  destruct (built_like_metro _ _ _ E) as [C _]. rewrite metro_count in C.
  split; [exact E|]. split; [exact C|]. split; [exact Hd|].
  split; [exact Hn|]. split; [exact Hs|]. split.
  - intros a b Ha Hb. unfold reaches.
    destruct (built_network_search _ _ _ a b E Ha Hb) as [p [Ep _]].
    now rewrite Ep.
  - intros sk dk. rewrite !find_stations_ids; auto.
Qed.

(** ** Route helpers *)

(** X13. The swap loop that the callers run over a path read back from
    [parent] reverses it: the stations come out last first, as many as
    went in, and a second run gives the path back. *)
Theorem reverse_in_place_reverses path :
  reverse_in_place path = rev path
  /\ List.length (reverse_in_place path) = List.length path
  /\ reverse_in_place (reverse_in_place path) = path.
Proof.
  rewrite !reverse_in_place_rev. split; [reflexivity|].
  split; [apply length_rev | apply rev_involutive].
Qed.

(** X14. [route_equals] returns 1 for two paths with the same stations
    in the same order and 0 for any other two. *)
Theorem route_equals_decides a b :
  (route_equals a b = 1 <-> a = b) /\ (route_equals a b = 0 <-> a <> b).
Proof.
  assert (Hbin : route_equals a b = 0 \/ route_equals a b = 1).
  { unfold route_equals. destruct (negb _); [now left|].
    clear. revert b. induction a as [|x a IH]; intros [|y b]; simpl; auto.
    destruct (negb (x =? y)); [now left | apply IH]. }
  pose proof (route_equals_iff a b) as H.
  split; split; intros H'.
  - apply H. lia.
  - apply H in H'. lia.
  - intros E. apply H in E. lia.
  - destruct Hbin as [E | E]; [exact E|]. exfalso. apply H'. apply H. lia.
Qed.

(** ** The names of the lines *)

Lemma build_network_registered g include_planned :
  option_map (fun g' => forallb (registered g') listed_names)
             (build_network g include_planned) = Some true.
Proof. vm_compute. reflexivity. Qed.

(** X22. Every station name of the three lines can be typed in any case
    and with any punctuation: after any build, a name that differs from a
    listed name only in case and in characters that are no letters,
    digits or white space has the key of the listed name, and the
    registry has that station. *)
Theorem listed_names_found g include_planned raw typed :
  In raw listed_names ->
  lowercase (Normalize.keep_alnum_space (strncpy 79 typed))
  = lowercase (Normalize.keep_alnum_space (strncpy 79 raw)) ->
  exists g',
    build_network g include_planned = Some g'
    /\ key_of typed = key_of raw
    /\ station_id g' (id_of_key g' (key_of typed))
    /\ key_name (stations g' (id_of_key g' (key_of typed))) = key_of raw.
Proof.
  intros Hin Hsame.
  pose proof (build_network_registered g include_planned) as H.
  destruct (build_network g include_planned) as [g'|]; [|discriminate].
  exists g'. split; [reflexivity|].
  assert (Hkey : key_of typed = key_of raw).
  { unfold key_of. rewrite !normalize_inplace_lower. now rewrite Hsame. }
  split; [exact Hkey|]. rewrite Hkey.
  cbn [option_map] in H. apply Some_eq in H. rewrite forallb_forall in H.
  specialize (H raw Hin). unfold registered in H.
  apply negb_true_iff, Z.eqb_neq in H.
  destruct (id_of_key_cases g' (key_of raw)) as [[E _] | [Hs Hk]];
    [contradiction | now split].
Qed.

(** [listed_names_found] on M.G. Road in capitals with other punctuation. *)
Lemma listed_names_found_witness :
  In "m.g. road" listed_names
  /\ lowercase (Normalize.keep_alnum_space (strncpy 79 "M,G, ROAD!"))
     = lowercase (Normalize.keep_alnum_space (strncpy 79 "m.g. road"))
  /\ exists g',
       build_network initial_network 1 = Some g'
       /\ key_of "M,G, ROAD!" = key_of "m.g. road"
       /\ station_id g' (id_of_key g' (key_of "M,G, ROAD!"))
       /\ key_name (stations g' (id_of_key g' (key_of "M,G, ROAD!")))
          = key_of "m.g. road".
Proof.
  assert (H1 : In "m.g. road" listed_names)
    by (vm_compute; do 17 right; left; reflexivity).
  assert (H2 : lowercase (Normalize.keep_alnum_space (strncpy 79 "M,G, ROAD!"))
               = lowercase (Normalize.keep_alnum_space (strncpy 79 "m.g. road")))
    by reflexivity.
  split; [exact H1|]. split; [exact H2|].
  exact (listed_names_found initial_network 1 "m.g. road" "M,G, ROAD!" H1 H2).
Defined.

(** ** The further theorems at concrete inputs *)

Lemma metro_sound :
  keys_distinct metro /\ edges_share_line metro /\ none_planned metro.
Proof. exact (build_network_sound _ _ _ metro_built). Qed.

(** [normalize_ignores_case_and_punctuation] on two spellings of
    M.G. Road. *)
Lemma normalize_ignores_case_and_punctuation_witness :
  lowercase (Normalize.keep_alnum_space "M.G. Road")
  = lowercase (Normalize.keep_alnum_space "mg road")
  /\ normalize_inplace "M.G. Road" = normalize_inplace "mg road".
Proof.
  assert (H : lowercase (Normalize.keep_alnum_space "M.G. Road")
              = lowercase (Normalize.keep_alnum_space "mg road")) by reflexivity.
  split; [exact H|].
  exact (normalize_ignores_case_and_punctuation "M.G. Road" "mg road" H).
Defined.

(** [normalize_key_shape] on a name with white space and punctuation to
    spare. *)
Lemma normalize_key_shape_witness :
  (String.length "  Sri Satya-Sai   Hospital. " <= 79)%nat
  /\ forall_chars key_char (normalize_inplace "  Sri Satya-Sai   Hospital. ") = true
  /\ single_blanks true (normalize_inplace "  Sri Satya-Sai   Hospital. ") = true
  /\ ends_blank (normalize_inplace "  Sri Satya-Sai   Hospital. ") = false
  /\ (String.length (normalize_inplace "  Sri Satya-Sai   Hospital. ")
      <= String.length "  Sri Satya-Sai   Hospital. ")%nat.
Proof.
  assert (H : (String.length "  Sri Satya-Sai   Hospital. " <= 79)%nat)
    by (simpl; lia).
  split; [exact H|].
  exact (normalize_key_shape "  Sri Satya-Sai   Hospital. " H).
Defined.

(** [add_line_with_plan_registers] on the first line of an empty
    registry, with one station named twice. *)
Lemma add_line_with_plan_registers_witness :
  exists g',
    (0 <= stationCount initial_network /\ keys_distinct initial_network
     /\ (String.length "red" <= 29)%nat
     /\ add_line_with_plan initial_network "red" ["A"; "B"; "a"; "C"] None
        = Some g')
    /\ keys_distinct g'
    /\ stationCount initial_network <= stationCount g'
       <= stationCount initial_network
          + Z.of_nat (List.length ["A"; "B"; "a"; "C"])
    /\ forall raw, In raw ["A"; "B"; "a"; "C"] ->
         station_id g' (id_of_key g' (key_of raw))
         /\ key_name (stations g' (id_of_key g' (key_of raw))) = key_of raw
         /\ In "red" (lines (stations g' (id_of_key g' (key_of raw)))).
Proof.
  assert (H0 : 0 <= stationCount initial_network) by (simpl; lia).
  assert (Hd : keys_distinct initial_network)
    by (intros i j [Hi1 Hi2]; simpl in Hi2; lia).
  assert (Hl : (String.length "red" <= 29)%nat) by (simpl; lia).
  destruct (add_line_with_plan initial_network "red" ["A"; "B"; "a"; "C"] None)
    as [g'|] eqn:E; [|vm_compute in E; discriminate].
  exists g'. split; [repeat split; assumption|].
  exact (add_line_with_plan_registers initial_network "red"
           ["A"; "B"; "a"; "C"] None g' H0 Hd Hl E).
Defined.

(** [add_line_with_plan_extends] on the green line added to the purple
    one. *)
Lemma add_line_with_plan_extends_witness :
  exists g g',
    (0 <= stationCount g
     /\ add_line_with_plan g "green" green None = Some g')
    /\ extends g g' /\ forall u v, adj g u v <> 0 -> adj g' u v <> 0.
Proof.
  destruct (add_line_with_plan initial_network "purple" purple None)
    as [g|] eqn:E0; [|vm_compute in E0; discriminate].
  assert (H0 : 0 <= stationCount g).
  { apply add_line_with_plan_edges in E0.
    - apply E0.
    - simpl. lia.
    - intros u v H. simpl in H. contradiction. }
  destruct (add_line_with_plan g "green" green None) as [g'|] eqn:E.
  - exists g, g'. split; [split; [exact H0 | exact E]|].
    exact (add_line_with_plan_extends g "green" green None g' H0 E).
  - exfalso. revert E. clear H0.
    assert (E1 : match add_line_with_plan initial_network "purple" purple None with
                 | Some g1 => add_line_with_plan g1 "green" green None
                 | None => None
                 end <> None) by (vm_compute; discriminate).
    rewrite E0 in E1. exact E1.
Defined.

(** [add_line_with_plan_links] on the first two names of a line. *)
Lemma add_line_with_plan_links_witness :
  exists g',
    (0 <= stationCount initial_network /\ keys_distinct initial_network
     /\ add_line_with_plan initial_network "red" ["A"; "B"; "a"; "C"] None
        = Some g'
     /\ (1 < List.length ["A"; "B"; "a"; "C"])%nat
     /\ key_of (nth 0 ["A"; "B"; "a"; "C"] "")
        <> key_of (nth 1 ["A"; "B"; "a"; "C"] ""))
    /\ adj g' (id_of_key g' (key_of (nth 0 ["A"; "B"; "a"; "C"] "")))
              (id_of_key g' (key_of (nth 1 ["A"; "B"; "a"; "C"] ""))) <> 0
    /\ adj g' (id_of_key g' (key_of (nth 1 ["A"; "B"; "a"; "C"] "")))
              (id_of_key g' (key_of (nth 0 ["A"; "B"; "a"; "C"] ""))) <> 0.
Proof.
  assert (H0 : 0 <= stationCount initial_network) by (simpl; lia).
  assert (Hd : keys_distinct initial_network)
    by (intros i j [Hi1 Hi2]; simpl in Hi2; lia).
  assert (Hi : (1 < List.length ["A"; "B"; "a"; "C"])%nat) by (simpl; lia).
  assert (Hk : key_of (nth 0 ["A"; "B"; "a"; "C"] "")
               <> key_of (nth 1 ["A"; "B"; "a"; "C"] ""))
    by (vm_compute; discriminate).
  destruct (add_line_with_plan initial_network "red" ["A"; "B"; "a"; "C"] None)
    as [g'|] eqn:E; [|vm_compute in E; discriminate].
  exists g'. split; [repeat split; assumption|].
  exact (add_line_with_plan_links initial_network "red" ["A"; "B"; "a"; "C"]
           None g' 0%nat H0 Hd E Hi Hk).
Defined.

(** [find_stations_correct] on the built network, Majestic and
    M.G. Road. *)
Lemma find_stations_correct_witness :
  keys_distinct metro /\ (1 <> 0 \/ none_planned metro)
  /\ find_stations metro 1 "majestic" "mgroad"
     = (id_of_key metro "majestic", id_of_key metro "mgroad")
  /\ (forall key,
        (id_of_key metro key = -1 <->
         forall j, station_id metro j -> key_name (stations metro j) <> key)
        /\ (id_of_key metro key <> -1 ->
            station_id metro (id_of_key metro key)
            /\ key_name (stations metro (id_of_key metro key)) = key)).
Proof.
  assert (Hd : keys_distinct metro) by exact (proj1 metro_sound).
  assert (Hp : 1 <> 0 \/ none_planned metro) by (left; discriminate).
  split; [exact Hd|]. split; [exact Hp|].
  exact (find_stations_correct metro 1 "majestic" "mgroad" Hd Hp).
Defined.

(** [shortest_path_symmetric] between Majestic and M.G. Road. *)
Lemma shortest_path_symmetric_witness :
  station_id metro 13 /\ station_id metro 17 /\ stationCount metro <= MAX
  /\ (forall u v, adj metro u v = adj metro v u)
  /\ ((shortest_path metro 13 17 None None 0 = Some NoRoute
       /\ shortest_path metro 17 13 None None 0 = Some NoRoute)
      \/ exists p q,
           shortest_path metro 13 17 None None 0 = Some (Found p)
           /\ shortest_path metro 17 13 None None 0 = Some (Found q)
           /\ hops p = hops q
           /\ route metro None None 0 13 17 (rev q)
           /\ route metro None None 0 17 13 (rev p)).
Proof.
  assert (H1 : station_id metro 13) by (apply metro_station; lia).
  assert (H2 : station_id metro 17) by (apply metro_station; lia).
  split; [exact H1|]. split; [exact H2|]. split; [exact metro_fits|].
  split; [exact metro_symmetric|].
  exact (shortest_path_symmetric metro None None 0 13 17 H1 H2 metro_fits
           metro_symmetric).
Defined.

(** [shortest_path_simple] on the purple leg. *)
Lemma shortest_path_simple_witness :
  station_id metro 13 /\ stationCount metro <= MAX
  /\ shortest_path metro 13 17 None None 0 = Some (Found purple_leg)
  /\ NoDup purple_leg
  /\ Z.of_nat (List.length purple_leg) <= stationCount metro
  /\ hops purple_leg < MAX.
Proof.
  assert (H1 : station_id metro 13) by (apply metro_station; lia).
  split; [exact H1|]. split; [exact metro_fits|].
  split; [exact purple_leg_found|].
  exact (shortest_path_simple metro None None 0 13 17 purple_leg H1 metro_fits
           purple_leg_found).
Defined.

(** [alternates_avoid_edge] on the purple leg and its one alternate. *)
Lemma alternates_avoid_edge_witness :
  station_id metro (at_index purple_leg 0) /\ stationCount metro <= MAX
  /\ find_alternates metro purple_leg
     = Some [[13; 52; 53; 54; 55; 56; 57; 58; 59; 60; 70; 71; 72; 73; 74; 17]]
  /\ In [13; 52; 53; 54; 55; 56; 57; 58; 59; 60; 70; 71; 72; 73; 74; 17]
        [[13; 52; 53; 54; 55; 56; 57; 58; 59; 60; 70; 71; 72; 73; 74; 17]]
  /\ exists e,
       0 <= e < hops purple_leg
       /\ route metro None None 0 (at_index purple_leg 0)
                (at_index purple_leg (plen purple_leg - 1))
                [13; 52; 53; 54; 55; 56; 57; 58; 59; 60; 70; 71; 72; 73; 74; 17]
       /\ (forall u v,
             In (u, v)
                (consecutive
                   [13; 52; 53; 54; 55; 56; 57; 58; 59; 60; 70; 71; 72; 73; 74; 17]) ->
             ~ (u = at_index purple_leg e /\ v = at_index purple_leg (e + 1))
             /\ ~ (u = at_index purple_leg (e + 1) /\ v = at_index purple_leg e))
       /\ forall p,
            route metro None None 0 (at_index purple_leg 0)
                  (at_index purple_leg (plen purple_leg - 1)) p ->
            (forall u v, In (u, v) (consecutive p) ->
               ~ (u = at_index purple_leg e /\ v = at_index purple_leg (e + 1))
               /\ ~ (u = at_index purple_leg (e + 1) /\ v = at_index purple_leg e)) ->
            hops [13; 52; 53; 54; 55; 56; 57; 58; 59; 60; 70; 71; 72; 73; 74; 17]
            <= hops p.
Proof.
  assert (H1 : station_id metro (at_index purple_leg 0))
    by (apply metro_station; change (at_index purple_leg 0) with 13; lia).
  assert (H2 : find_alternates metro purple_leg
               = Some [[13; 52; 53; 54; 55; 56; 57; 58; 59; 60; 70; 71; 72; 73; 74; 17]])
    by (vm_compute; reflexivity).
  assert (H3 : In [13; 52; 53; 54; 55; 56; 57; 58; 59; 60; 70; 71; 72; 73; 74; 17]
                  [[13; 52; 53; 54; 55; 56; 57; 58; 59; 60; 70; 71; 72; 73; 74; 17]])
    by (left; reflexivity).
  split; [exact H1|]. split; [exact metro_fits|]. split; [exact H2|].
  split; [exact H3|].
  exact (alternates_avoid_edge metro purple_leg _ _ H1 metro_fits H2 H3).
Defined.

(** [segments_partition] on two purple stops and a pink one. *)
Lemma segments_partition_witness :
  labels_fit ["purple"; "purple"; "pink"]
  /\ List.concat (map seg_labels (segments ["purple"; "purple"; "pink"]))
     = ["purple"; "purple"; "pink"]
  /\ chained 0 (Z.of_nat (List.length ["purple"; "purple"; "pink"]))
             (segments ["purple"; "purple"; "pink"])
  /\ lines_alternate (segments ["purple"; "purple"; "pink"]).
Proof.
  assert (H : labels_fit ["purple"; "purple"; "pink"])
    by (repeat constructor; simpl; lia).
  split; [exact H|].
  exact (segments_partition ["purple"; "purple"; "pink"] H).
Defined.

(** [route_labels_and_interchanges] across the change at M.G. Road. *)
Lemma route_labels_and_interchanges_witness :
  lines_fit metro /\ edges_share_line metro
  /\ linked (fun u v => adj metro u v <> 0) [16; 17; 75; 76]
  /\ (forall a b, In (a, b) (consecutive [16; 17; 75; 76]) ->
        In (edge_line metro a b) (lines (stations metro a))
        /\ In (edge_line metro a b) (lines (stations metro b)))
  /\ Z.of_nat (List.length (segments (build_edge_lines metro [16; 17; 75; 76]))) - 1
     <= count_interchanges metro [16; 17; 75; 76].
Proof.
  assert (H1 : edges_share_line metro) by exact (proj1 (proj2 metro_sound)).
  assert (H2 : linked (fun u v => adj metro u v <> 0) [16; 17; 75; 76])
    by (repeat split; intros H; vm_compute in H; discriminate H).
  split; [exact metro_lines_fit|]. split; [exact H1|]. split; [exact H2|].
  exact (route_labels_and_interchanges metro [16; 17; 75; 76]
           metro_lines_fit H1 H2).
Defined.

(** [fare_by_stops] on the ten stops where the two distances differ in
    the last place. *)
Lemma fare_by_stops_witness :
  0 <= 10 < MAX
  /\ fare_from_distance (distance_of_edges 10) = fare_of_edges 10
  /\ fare_from_distance (distance_by_sum 10) = fare_of_edges 10
  /\ In (fare_of_edges 10) [10; 20; 30; 40; 50; 60; 70; 80; 90]
  /\ forall more, 10 <= more -> fare_of_edges 10 <= fare_of_edges more.
Proof.
  assert (H : 0 <= 10 < MAX) by (unfold MAX; lia).
  split; [exact H|]. exact (fare_by_stops 10 H).
Defined.

(** [find_route_answers] on the network built at the start, from
    Majestic to M.G. Road. *)
Lemma find_route_answers_witness :
  build_network initial_network 1 = Some metro
  /\ exists finding,
       find_route metro 1 "Majestic" "M.G. Road" = Some finding
       /\ right_finding metro "Majestic" "M.G. Road" finding.
Proof.
  split; [exact metro_built|].
  exact (find_route_answers initial_network 1 metro 1 "Majestic" "M.G. Road"
           metro_built).
Defined.

(** ** Checks of the reports on the built network *)

Example get_route_majestic_mg_road :
  option_map snd (get_route initial_network (Some "Majestic") (Some "M.G. Road"))
  = Some (Summary purple_leg ["purple"; "purple"; "purple"; "purple"]
                  [mkSegment "purple" 0 3] 4 2 14 30).
Proof. vm_compute. reflexivity. Qed.

Example get_route_unknown_name :
  option_map snd (get_route initial_network (Some "Majestic") (Some "Atlantis"))
  = Some DestNotFound
  /\ option_map snd (get_route initial_network (Some "") (Some "Majestic"))
     = Some MissingInput
  /\ option_map snd (get_route initial_network None (Some "Majestic"))
     = Some MissingInput.
Proof. vm_compute. repeat split. Qed.

Example autocomplete_ma :
  autocomplete_print metro "ma"
  = ["magadi road"; "majestic"; "Madavara"; "Manjunathanagar"; "Mahalakshmi"].
Proof. vm_compute. reflexivity. Qed.

Example distances_of_ten_stops :
  PrimFloat.eqb (distance_of_edges 10) (distance_by_sum 10) = false
  /\ fare_from_distance (distance_of_edges 10) = 60
  /\ fare_from_distance (distance_by_sum 10) = 60.
Proof. vm_compute. repeat split. Qed.
